(** * Particle clustering animation: the neutron population of
    [clustering_game.cc]

    A shallow embedding of [clustering_game.cc] (the [Neutron] record,
    [randf], [random_color], [initialize_neutrons], [move_neutrons],
    [draw_neutrons] and [main]), the properties of it that the
    specification states, and further properties that the code has.

    Modelling choices.
    - A C++ [double] is a primitive binary64 float of Rocq ([PrimFloat]),
      so that every arithmetic operation and comparison of the source is
      the IEEE operation it is on the machine, and every definition runs.
    - [int], [unsigned] and [size_t] values are integers in [Z] or [nat].
      The [int] results of [initialize_neutrons] are checked against the
      limits of [int]: where one overflows, which C++ leaves undefined,
      the function has no result.  The conversion [(int)] of a double and
      the pixel arithmetic of [draw_neutrons] are those of the source for
      the neutrons that [drawable] and [paintable] describe.
    - [std::vector<Neutron>] is a [list]; [neuts[i]] is stdpp's lookup and
      an assignment through [neuts[i]] is [alter] or insert at [i].
    - The reference [Neutron& n = neuts[nn]] of [move_neutrons] is
      modelled twice.  [step_neutron] and the definitions it is made of
      act on the element at index [nn]: that is the loop body for as long
      as [n] is valid.  [step_stored] follows the buffer of the vector: an
      [emplace_back] on a full vector reallocates and leaves [n] dangling,
      after which what is written through [n] does not reach the vector.
      The two agree whenever the vector has room for two more neutrons
      ([step_stored_agrees]).
    - The three things the program takes from outside the repository are
      the fields of a [Platform]: the C library's [rand], the math
      library's [log] and OpenMC's isotropic direction sampler.
    - What [draw_neutrons] does to the SDL renderer is the list of the
      points it draws, each with the colour and the alpha set before it. *)

From Stdlib Require Import ZArith Floats Lia.
From stdpp Require Import base option list.

#[local] Set Warnings "-inexact-float".
#[local] Open Scope Z_scope.

(** ** Conversions between integers and doubles *)

(** The conversion of an integer to [double] (round to nearest, ties to
    even; exact below [2^53]). *)
Definition int_to_double (k : Z) : float :=
  SF2Prim (binary_normalize prec emax k 0 false).

(** The conversion [(int) f] of a double to an integer: truncation toward
    zero.  (The source only converts finite values within the range of
    [int]; anything that is not a finite number is sent to [0] here.) *)
Definition double_to_int (f : float) : Z :=
  match Prim2SF f with
  | S754_finite s m e =>
      let a := match e with
               | Z0 => Zpos m
               | Zpos p => Zpos m * Z.pow_pos 2 p
               | Zneg p => Z.quot (Zpos m) (Z.pow_pos 2 p)
               end in
      if s then - a else a
  | _ => 0
  end.

(** ** Constants of the problem *)

Definition WIDTH : Z := 1920.
Definition HEIGHT : Z := 1080.

(** [RAND_MAX] of the C library (glibc). *)
Definition RAND_MAX : Z := 2147483647.

(** The limits of [int], and an [int] result: an arithmetic result that
    does not fit is a signed overflow, which C++ leaves undefined, so
    there is no result then. *)
Definition INT_MIN : Z := -2147483648.
Definition INT_MAX : Z := 2147483647.

Definition int_checked (k : Z) : option Z :=
  if (INT_MIN <=? k) && (k <=? INT_MAX) then Some k else None.

Definition nu : float := 2.5%float.
Definition sig_s : float := 0.27%float.
Definition sig_c : float := 0.02%float.
Definition sig_f : float := (sig_c / (nu - 1.0))%float.
Definition sig_t : float := (sig_s + sig_c + sig_f)%float.
Definition vel : float := (20000.0 * 100.0)%float.

(** ** Data *)

Module Position.
Record t : Set := mk { x : float; y : float; z : float }.

(** [operator+=] and [operator*] of [openmc::Position], componentwise. *)
Definition add (p q : t) : t :=
  {| x := x p + x q; y := y p + y q; z := z p + z q |}%float.
Definition scale (p : t) (d : float) : t :=
  {| x := x p * d; y := y p * d; z := z p * d |}%float.

Definition origin : t := {| x := 0; y := 0; z := 0 |}%float.
End Position.

(** [openmc::Direction] is the same type as [openmc::Position]. *)
Abbreviation Direction := Position.t (only parsing).

Module Color.
(** Three [unsigned char] channels. *)
Record t : Set := mk { r : Z; g : Z; b : Z }.
Definition black : t := {| r := 0; g := 0; b := 0 |}.
End Color.

Module Neutron.
Record t : Set := mk {
  r : Position.t;
  u : Position.t;
  distance_to_collision : float;
  alive : bool;
  c : Color.t  (* coloring for progeny tracking *)
}.

Definition with_r (p : Position.t) (n : t) : t :=
  {| r := p; u := u n; distance_to_collision := distance_to_collision n;
     alive := alive n; c := c n |}.
Definition with_u (d : Position.t) (n : t) : t :=
  {| r := r n; u := d; distance_to_collision := distance_to_collision n;
     alive := alive n; c := c n |}.
Definition with_distance (d : float) (n : t) : t :=
  {| r := r n; u := u n; distance_to_collision := d;
     alive := alive n; c := c n |}.
Definition with_alive (a : bool) (n : t) : t :=
  {| r := r n; u := u n; distance_to_collision := distance_to_collision n;
     alive := a; c := c n |}.

(** A value-initialised [Neutron], as [std::vector::resize] and the
    sized constructor of [std::vector] make them. *)
Definition zero : t :=
  {| r := Position.origin; u := Position.origin;
     distance_to_collision := 0%float; alive := false; c := Color.black |}.
End Neutron.

(** ** What the program takes from its platform *)

Class Platform : Type := {
  (** the hidden state of the C library's generator, and [rand()] *)
  rand_state : Type;
  rand : rand_state -> Z * rand_state;
  (** [std::log] on doubles *)
  flog : float -> float;
  (** [openmc::Isotropic::sample], which reads and advances the seed it is
      given *)
  isotropic_sample : Z -> Position.t * Z
}.

(** What the C standard promises of [rand]: a value between [0] and
    [RAND_MAX]. *)
Definition rand_in_range (P : Platform) : Prop :=
  forall s : rand_state, 0 <= fst (rand s) <= RAND_MAX.

(** What is assumed of [std::log]: it is positive only on arguments above
    one.  (On [(0, 1]] it is negative or zero, at [0] it is minus infinity,
    below [0] and on a NaN it is a NaN.) *)
Definition log_sign_law (P : Platform) : Prop :=
  forall y : float, (1 <? y)%float = false -> (0 <? flog y)%float = false.

Section Simulation.
Context {P : Platform}.

(** The state the two functions work on: the vector they are passed, and
    the two global generator states ([rand]'s and [dir_seed]). *)
Record World : Type := mkWorld {
  neuts : list Neutron.t;
  rand_st : rand_state;
  dir_seed : Z
}.

Definition set_neuts (l : list Neutron.t) (w : World) : World :=
  {| neuts := l; rand_st := rand_st w; dir_seed := dir_seed w |}.

(** [inline double randf() { return (double)rand() / (double)RAND_MAX; }] *)
Definition randf (s : rand_state) : float * rand_state :=
  ((int_to_double (fst (rand s)) / int_to_double RAND_MAX)%float,
   snd (rand s)).

(** The value of the next [randf()] and the world after it. *)
Definition next_randf (w : World) : float := fst (randf (rand_st w)).
Definition after_randf (w : World) : World :=
  {| neuts := neuts w; rand_st := snd (randf (rand_st w));
     dir_seed := dir_seed w |}.

(** The value of the next [dir_distr.sample(&dir_seed)] and the world
    after it. *)
Definition next_direction (w : World) : Position.t :=
  fst (isotropic_sample (dir_seed w)).
Definition after_direction (w : World) : World :=
  {| neuts := neuts w; rand_st := rand_st w;
     dir_seed := snd (isotropic_sample (dir_seed w)) |}.

(** *** [random_color] *)

(** Conversion to [unsigned char]. *)
Definition to_uchar (k : Z) : Z := k mod 256.

Definition random_color (s : rand_state) : Color.t * rand_state :=
  let rgb0 := to_uchar (Z.rem (fst (rand s)) 256) in
  let s1 := snd (rand s) in
  let rgb1 := to_uchar (Z.rem (fst (rand s1)) 256) in
  let s2 := snd (rand s1) in
  let rgb2 := to_uchar (Z.rem (fst (rand s2)) 256) in
  let s3 := snd (rand s2) in
  if (200 <? rgb0) && (200 <? rgb1) && (200 <? rgb2) then
    let indx := to_uchar (Z.rem (fst (rand s3)) 3) in
    let s4 := snd (rand s3) in
    (if indx =? 0 then Color.mk 10 rgb1 rgb2
     else if indx =? 1 then Color.mk rgb0 10 rgb2
     else if indx =? 2 then Color.mk rgb0 rgb1 10
     else Color.mk rgb0 rgb1 rgb2,
     s4)
  else (Color.mk rgb0 rgb1 rgb2, s3).

(** *** [initialize_neutrons] *)

(** [std::vector::resize]: keep the first [k] elements, or fill up to
    [k] with value-initialised ones. *)
Definition resize (k : nat) (l : list Neutron.t) : list Neutron.t :=
  take k l ++ replicate (k - length l) Neutron.zero.

(** [int nrows = std::sqrt(neuts.size()/2);] the integer division of
    [size_t], the square root in double, and the truncation to [int]. *)
Definition grid_rows (size : nat) : Z :=
  double_to_int (PrimFloat.sqrt (int_to_double (Z.of_nat size / 2))).
Definition grid_cols (size : nat) : Z := 2 * grid_rows size.

(** [double dr = HEIGHT / (nrows + 1);] an integer division, which has no
    result when the divisor is zero, converted to double. *)
Definition spacing (extent cells : Z) : option float :=
  if cells + 1 =? 0 then None
  else Some (int_to_double (Z.quot extent (cells + 1))).

(** The position given to the neutron of a grid cell:
    [r.x = dc/2.0 + col * dc; r.y = dr/2.0 + row * dr; r.z = 0;] *)
Definition grid_position (dr dc : float) (row col : nat) : Position.t :=
  {| Position.x := dc / 2.0 + int_to_double (Z.of_nat col) * dc;
     Position.y := dr / 2.0 + int_to_double (Z.of_nat row) * dr;
     Position.z := 0 |}%float.

(** What the body of the two nested loops stores at [row * ncols + col]. *)
Definition init_cell (ncols : nat) (dr dc : float) (row col : nat)
    (w : World) : World :=
  let d := next_direction w in
  let w1 := after_direction w in
  let col_s := random_color (rand_st w1) in
  {| neuts := <[(row * ncols + col)%nat :=
                 {| Neutron.r := grid_position dr dc row col;
                    Neutron.u := d;
                    Neutron.distance_to_collision := 0%float;
                    Neutron.alive := true;
                    Neutron.c := fst col_s |}]>
              (neuts w1);
     rand_st := snd col_s;
     dir_seed := dir_seed w1 |}.

Definition init_row (ncols : nat) (dr dc : float) (row : nat)
    (w : World) : World :=
  foldl (fun w col => init_cell ncols dr dc row col w) w (seq 0 ncols).

Definition init_grid (nrows ncols : nat) (dr dc : float) (w : World) : World :=
  foldl (fun w row => init_row ncols dr dc row w) w (seq 0 nrows).

(** The last loop: [neuts[oldsize+i].alive = false] for [i < oldsize]. *)
Definition mark_dead (oldsize : nat) (l : list Neutron.t) : list Neutron.t :=
  foldl (fun l i => alter (Neutron.with_alive false) (oldsize + i)%nat l)
        l (seq 0 oldsize).

(** [nrows], [ncols], [nrows * ncols] and [oldsize * 2] are [int]s: when
    one of them does not fit, the function has no result. *)
Definition initialize_neutrons (w : World) : option World :=
  nrows ← int_checked (grid_rows (length (neuts w)));
  ncols ← int_checked (2 * nrows);
  cells ← int_checked (nrows * ncols);
  let w1 := set_neuts (resize (Z.to_nat cells) (neuts w)) w in
  dr ← spacing HEIGHT nrows;
  dc ← spacing WIDTH ncols;
  let w2 := init_grid (Z.to_nat nrows) (Z.to_nat ncols) dr dc w1 in
  let oldsize := length (neuts w2) in
  newsize ← int_checked (Z.of_nat oldsize * 2);
  Some (set_neuts (mark_dead oldsize (resize (Z.to_nat newsize) (neuts w2))) w2).

(** [main]: [std::vector<Neutron> neutrons(n_neuts); initialize_neutrons(neutrons);] *)
Definition initialize (n_neuts : nat) (s : rand_state) (seed : Z)
    : option World :=
  initialize_neutrons
    {| neuts := replicate n_neuts Neutron.zero; rand_st := s;
       dir_seed := seed |}.

(** *** [move_neutrons] *)

(** The two samplers of a free-flight distance: [-std::log(x) / sig_t]
    and, for a neutron that is pushed back, [-std::log(1-x) / sig_t]. *)
Definition sample_distance (x : float) : float :=
  (- flog x / sig_t)%float.
Definition sample_distance_pushed (x : float) : float :=
  (- flog (1 - x) / sig_t)%float.

(** The scan [for (nnn = 0; nnn < neuts.size(); ++nnn)] that stops at
    the first neutron that is not alive. *)
Fixpoint find_dead_slot (l : list Neutron.t) : option nat :=
  match l with
  | [] => None
  | n :: l' => if Neutron.alive n then S <$> find_dead_slot l' else Some 0%nat
  end.

(** [int n_new = (int)nu; if (randf() < nu-n_new) n_new++; n_new--;]
    where [x] is the value [randf()] returned. *)
Definition fission_secondaries (x : float) : Z :=
  let n_new := double_to_int nu in
  let n_new := if (x <? nu - int_to_double n_new)%float
               then n_new + 1 else n_new in
  n_new - 1.

(** One turn of [while (n_new > 0)]: a copy of the neutron at [nn] goes
    to the first dead slot, or to the end when there is none, with a
    direction and a distance of its own.  (This and the definitions that
    follow act on the element at index [nn]: they are the loop body for
    as long as the reference [n] is valid, that is, until an
    [emplace_back] reallocates.  [spawn_secondary_stored] and
    [step_stored] below follow the reference beyond that.) *)
Definition spawn_secondary (nn : nat) (w : World) : World :=
  match neuts w !! nn with
  | None => w
  | Some n =>
      let d := next_direction w in
      let w1 := after_direction w in
      let x := next_randf w1 in
      let w2 := after_randf w1 in
      match find_dead_slot (neuts w) with
      | Some nnn =>
          set_neuts
            (<[nnn := Neutron.with_distance (sample_distance x)
                        (Neutron.with_u d n)]> (neuts w2)) w2
      | None =>
          set_neuts
            (neuts w2 ++ [Neutron.with_distance (sample_distance_pushed x)
                            (Neutron.with_u d n)]) w2
      end
  end.

Fixpoint spawn_secondaries (n_new : nat) (nn : nat) (w : World) : World :=
  match n_new with
  | O => w
  | S k => spawn_secondaries k nn (spawn_secondary nn w)
  end.

(** The three-way branch on [xi]: capture, fission, or (nothing to do)
    scatter. *)
Definition resolve_collision (nn : nat) (w : World) : World :=
  let xi := next_randf w in
  let w1 := after_randf w in
  if (xi <? sig_c / sig_t)%float then
    set_neuts (alter (Neutron.with_alive false) nn (neuts w1)) w1
  else if (xi <? (sig_c + sig_f) / sig_t)%float then
    let x := next_randf w1 in
    let w2 := after_randf w1 in
    spawn_secondaries (Z.to_nat (fission_secondaries x)) nn w2
  else w1.

(** The two statements after the branch:
    [n.distance_to_collision = -std::log(randf()) / sig_t;
     n.u = dir_distr.sample(&dir_seed);] *)
Definition resample_self (nn : nat) (w : World) : World :=
  let x := next_randf w in
  let w1 := after_randf w in
  let d := next_direction w1 in
  let w2 := after_direction w1 in
  set_neuts
    (alter (fun n => Neutron.with_u d
                       (Neutron.with_distance (sample_distance x) n))
           nn (neuts w2)) w2.

Definition collide (nn : nat) (w : World) : World :=
  resample_self nn (resolve_collision nn w).

(** [double dist = vel * dt; n.r += n.u * dist;
     n.distance_to_collision -= dist;] *)
Definition move_one (dt : float) (n : Neutron.t) : Neutron.t :=
  let dist := (vel * dt)%float in
  Neutron.with_distance (Neutron.distance_to_collision n - dist)%float
    (Neutron.with_r
       (Position.add (Neutron.r n) (Position.scale (Neutron.u n) dist)) n).

Definition advance (dt : float) (nn : nat) (w : World) : World :=
  set_neuts (alter (move_one dt) nn (neuts w)) w.

(** The body of the loop of [move_neutrons] at index [nn]. *)
Definition step_neutron (dt : float) (nn : nat) (w : World) : World :=
  match neuts w !! nn with
  | None => w
  | Some n =>
      if negb (Neutron.alive n) then w
      else if (Neutron.distance_to_collision n <? 0)%float
           then advance dt nn (collide nn w)
           else advance dt nn w
  end.

(** [for (int nn=0; nn<neuts.size(); ++nn)]: the bound is read again at
    every turn, so the loop also runs over what it pushed back.  [fuel]
    bounds the number of turns; [None] is a loop that has not finished
    within it. *)
Fixpoint move_loop (fuel : nat) (dt : float) (nn : nat) (w : World)
    : option World :=
  if decide (nn < length (neuts w))%nat then
    match fuel with
    | O => None
    | S fuel' => move_loop fuel' dt (S nn) (step_neutron dt nn w)
    end
  else Some w.

Definition move_neutrons (fuel : nat) (dt : float) (w : World)
    : option World :=
  move_loop fuel dt 0 w.

(** *** The buffer of the vector, and the reference [n]

    [Neutron& n = neuts[nn]] refers into the buffer of the vector.  An
    [emplace_back] on a full vector (its size is its capacity) copies the
    new element and the old ones to a new buffer and frees the old buffer;
    from then on [n] dangles, and what the rest of the iteration does
    through it is undefined in C++.  The definitions below take it the way
    the compiled program runs: the statements through [n] still execute,
    and still draw their random numbers, but they read and write the
    freed buffer, not the vector.  Nothing is assumed about what a read
    finds there. *)

Section Storage.

(** What a read through the dangling [n] returns when the element held
    the given neutron at the time its buffer was freed. *)
Variable stale : Neutron.t -> Neutron.t.

(** The capacity that a full vector of the given size gets when it
    reallocates (the growth policy of the library). *)
Variable grown : nat -> nat.

(** The state of one iteration: the vector with the two generators, the
    capacity of the vector, and what [n] refers to: the element at [nn]
    ([None]), or a freed buffer in which it reads the given neutron. *)
Record Stored : Type := mkStored {
  vec : World;
  capacity : nat;
  dangling : option Neutron.t
}.

Definition on_vec (f : World -> World) (b : Stored) : Stored :=
  {| vec := f (vec b); capacity := capacity b; dangling := dangling b |}.

(** A read and a write through [n]. *)
Definition read_n (nn : nat) (b : Stored) : option Neutron.t :=
  match dangling b with
  | Some v => Some v
  | None => neuts (vec b) !! nn
  end.

Definition write_n (f : Neutron.t -> Neutron.t) (nn : nat) (b : Stored)
    : Stored :=
  match dangling b with
  | Some v => {| vec := vec b; capacity := capacity b; dangling := Some (f v) |}
  | None => on_vec (fun w => set_neuts (alter f nn (neuts w)) w) b
  end.

(** One turn of [while (n_new > 0)].  [nprime = n] and [emplace_back(n)]
    copy what [n] reads; [emplace_back] reallocates when the vector is
    full, and leaves [n] dangling if it was not yet. *)
Definition spawn_secondary_stored (nn : nat) (b : Stored) : Stored :=
  match read_n nn b with
  | None => b
  | Some n =>
      let w := vec b in
      let d := next_direction w in
      let w1 := after_direction w in
      let x := next_randf w1 in
      let w2 := after_randf w1 in
      match find_dead_slot (neuts w) with
      | Some nnn =>
          {| vec := set_neuts
                      (<[nnn := Neutron.with_distance (sample_distance x)
                                  (Neutron.with_u d n)]> (neuts w2)) w2;
             capacity := capacity b;
             dangling := dangling b |}
      | None =>
          let full := (capacity b <=? length (neuts w))%nat in
          {| vec := set_neuts
                      (neuts w2 ++
                       [Neutron.with_distance (sample_distance_pushed x)
                          (Neutron.with_u d n)]) w2;
             capacity := if full then grown (length (neuts w)) else capacity b;
             dangling := match dangling b with
                         | Some v => Some v
                         | None => if full then Some (stale n) else None
                         end |}
      end
  end.

Fixpoint spawn_secondaries_stored (n_new : nat) (nn : nat) (b : Stored)
    : Stored :=
  match n_new with
  | O => b
  | S k => spawn_secondaries_stored k nn (spawn_secondary_stored nn b)
  end.

(** The branch on [xi], the two statements after it, and the motion, all
    through [n]. *)
Definition resolve_collision_stored (nn : nat) (b : Stored) : Stored :=
  let xi := next_randf (vec b) in
  let b1 := on_vec after_randf b in
  if (xi <? sig_c / sig_t)%float then
    write_n (Neutron.with_alive false) nn b1
  else if (xi <? (sig_c + sig_f) / sig_t)%float then
    let x := next_randf (vec b1) in
    let b2 := on_vec after_randf b1 in
    spawn_secondaries_stored (Z.to_nat (fission_secondaries x)) nn b2
  else b1.

Definition resample_self_stored (nn : nat) (b : Stored) : Stored :=
  let x := next_randf (vec b) in
  let b1 := on_vec after_randf b in
  let d := next_direction (vec b1) in
  let b2 := on_vec after_direction b1 in
  write_n (fun n => Neutron.with_u d
                      (Neutron.with_distance (sample_distance x) n)) nn b2.

Definition collide_stored (nn : nat) (b : Stored) : Stored :=
  resample_self_stored nn (resolve_collision_stored nn b).

Definition advance_stored (dt : float) (nn : nat) (b : Stored) : Stored :=
  write_n (move_one dt) nn b.

(** The body of the loop of [move_neutrons] at index [nn], on a vector of
    the given capacity: the vector and the capacity it leaves.  [n] is
    bound anew at every turn of the loop. *)
Definition step_stored (dt : float) (nn : nat) (w : World) (cap : nat)
    : World * nat :=
  match neuts w !! nn with
  | None => (w, cap)
  | Some n =>
      if negb (Neutron.alive n) then (w, cap)
      else
        let b := {| vec := w; capacity := cap; dangling := None |} in
        let b' := if (Neutron.distance_to_collision n <? 0)%float
                  then advance_stored dt nn (collide_stored nn b)
                  else advance_stored dt nn b in
        (vec b', capacity b')
  end.

End Storage.

(** The number of live neutrons. *)
Fixpoint live_count (l : list Neutron.t) : nat :=
  match l with
  | [] => O
  | n :: l' => ((if Neutron.alive n then 1 else 0) + live_count l')%nat
  end.

(** *** Notions the properties below are stated with *)

(** [j] is the lowest index of [l] that holds a dead neutron. *)
Definition lowest_dead (j : nat) (l : list Neutron.t) : Prop :=
  (exists d, l !! j = Some d /\ Neutron.alive d = false) /\
  (forall i p, (i < j)%nat -> l !! i = Some p -> Neutron.alive p = true).

(** No neutron of [l] is dead. *)
Definition all_alive (l : list Neutron.t) : Prop :=
  forall i p, l !! i = Some p -> Neutron.alive p = true.

(** [p] is a secondary of the parent [n]: the parent's position, tag and
    alive flag, with a direction that [dir_distr.sample] returned and a
    distance that one of the two samplers computed from a [randf()]. *)
Definition secondary_of (n p : Neutron.t) : Prop :=
  Neutron.r p = Neutron.r n /\ Neutron.c p = Neutron.c n /\
  Neutron.alive p = Neutron.alive n /\
  (exists seed, Neutron.u p = fst (isotropic_sample seed)) /\
  (exists s, Neutron.distance_to_collision p = sample_distance (fst (randf s)) \/
             Neutron.distance_to_collision p
               = sample_distance_pushed (fst (randf s))).

(** The two neutrons [spawn_secondary] can store for the parent [n] in the
    world [w]: the one that goes to a dead slot, and the one pushed back. *)
Definition reused_secondary (n : Neutron.t) (w : World) : Neutron.t :=
  Neutron.with_distance (sample_distance (next_randf w))
    (Neutron.with_u (next_direction w) n).
Definition pushed_secondary (n : Neutron.t) (w : World) : Neutron.t :=
  Neutron.with_distance (sample_distance_pushed (next_randf w))
    (Neutron.with_u (next_direction w) n).

(** What the two statements after the branch make of a neutron. *)
Definition resampled (w : World) (n : Neutron.t) : Neutron.t :=
  Neutron.with_u (next_direction (after_randf w))
    (Neutron.with_distance (sample_distance (next_randf w)) n).

(** The neutron of a cell that has been laid out. *)
Definition laid_out (dr dc : float) (row col : nat) (p : Neutron.t) : Prop :=
  Neutron.alive p = true /\ Neutron.distance_to_collision p = 0%float /\
  Neutron.r p = grid_position dr dc row col.

(** The world in which the loop of [move_neutrons] reaches index [i]: the
    bodies at the indices below [i] have run, in order. *)
Definition state_at (dt : float) (w : World) (i : nat) : World :=
  foldl (fun w j => step_neutron dt j w) w (seq 0 i).

(** A neutron that is due for collision resolution when the loop visits it. *)
Definition collides (n : Neutron.t) : bool :=
  Neutron.alive n && (Neutron.distance_to_collision n <? 0)%float.

(** The most turns of the loop that a neutron can still cost: its own, and
    two more for the neutrons it may push back if it collides. *)
Definition turns_of (n : Neutron.t) : nat := if collides n then 3%nat else 1%nat.

Fixpoint turns_left (l : list Neutron.t) : nat :=
  match l with
  | [] => O
  | n :: l' => (turns_of n + turns_left l')%nat
  end.

(** The number of neutrons that are due for collision resolution. *)
Fixpoint due_count (l : list Neutron.t) : nat :=
  match l with
  | [] => O
  | n :: l' => ((if collides n then 1 else 0) + due_count l')%nat
  end.

(** What a tick makes of a neutron that is not due: a live one moves, a
    dead one stays as it is. *)
Definition moved (dt : float) (n : Neutron.t) : Neutron.t :=
  if Neutron.alive n then move_one dt n else n.

(** The range of an [unsigned char]. *)
Definition is_uchar (k : Z) : Prop := 0 <= k <= 255.

(** The nearly white colours that [random_color] is to avoid: the three
    channels above [200]. *)
Definition near_white (c : Color.t) : bool :=
  (200 <? Color.r c) && (200 <? Color.g c) && (200 <? Color.b c).

(** [rgb[indx] = 10;] *)
Definition darken (indx : Z) (c : Color.t) : Color.t :=
  if indx =? 0 then Color.mk 10 (Color.g c) (Color.b c)
  else if indx =? 1 then Color.mk (Color.r c) 10 (Color.b c)
  else if indx =? 2 then Color.mk (Color.r c) (Color.g c) 10
  else c.

(** The neutron that the body of the two nested loops of
    [initialize_neutrons] stores for a cell: the position of the cell, a
    sampled direction, a distance of zero, and a tag from [random_color]. *)
Definition laid_out_by (dr dc : float) (row col : nat) (p : Neutron.t) : Prop :=
  exists (seed : Z) (s : rand_state),
    p = {| Neutron.r := grid_position dr dc row col;
           Neutron.u := fst (isotropic_sample seed);
           Neutron.distance_to_collision := 0%float;
           Neutron.alive := true;
           Neutron.c := fst (random_color s) |}.

End Simulation.


(** ** [draw_neutrons] *)

Definition NEUT_SIZE : Z := 3.

(** One call of [SDL_RenderDrawPoint], with the colour and the alpha that
    the last [SDL_SetRenderDrawColor] gave the renderer. *)
Record Point : Set := mkPoint {
  point_x : Z;
  point_y : Z;
  point_color : Color.t;
  point_alpha : Z
}.

(** The four tests on [posx] and [posy], in the order of the source:
    a neutron that left the window on one side comes back on the other. *)
Definition wrap_position (posx posy : Z) (r : Position.t) : Position.t :=
  let r := if posx <? Z.quot NEUT_SIZE 2
           then {| Position.x := int_to_double (WIDTH - NEUT_SIZE);
                   Position.y := Position.y r; Position.z := Position.z r |}
           else r in
  let r := if posy <? Z.quot NEUT_SIZE 2
           then {| Position.x := Position.x r;
                   Position.y := int_to_double (HEIGHT - NEUT_SIZE);
                   Position.z := Position.z r |}
           else r in
  let r := if WIDTH - Z.quot NEUT_SIZE 2 <? posx
           then {| Position.x := int_to_double (Z.quot NEUT_SIZE 2);
                   Position.y := Position.y r; Position.z := Position.z r |}
           else r in
  if HEIGHT - Z.quot NEUT_SIZE 2 <? posy
  then {| Position.x := Position.x r;
          Position.y := int_to_double (Z.quot NEUT_SIZE 2);
          Position.z := Position.z r |}
  else r.

(** The two nested loops over [xx] and [yy], after [posx--; posy--;]. *)
Definition draw_block (posx posy : Z) (c : Color.t) : list Point :=
  xx ← seqZ 0 NEUT_SIZE;
  yy ← seqZ 0 NEUT_SIZE;
  [mkPoint (posx - 1 + xx) (posy - 1 + yy) c 180].

(** The body of the loop of [draw_neutrons]: the neutron as the body
    leaves it, and the points it draws after
    [SDL_SetRenderDrawColor(renderer, n.c.r, n.c.g, n.c.b, 180)].  (The
    conversion [(int)] is undefined in C++ for a double outside [int],
    and so is an overflow of [posx--]: this is what the source does for
    the neutrons that are [drawable], and its points are those of the
    source for the neutrons that are [paintable].) *)
Definition draw_neutron (n : Neutron.t) : Neutron.t * list Point :=
  if negb (Neutron.alive n) then (n, [])
  else
    let posx := double_to_int (Position.x (Neutron.r n)) in
    let posy := double_to_int (Position.y (Neutron.r n)) in
    (Neutron.with_r (wrap_position posx posy (Neutron.r n)) n,
     draw_block posx posy (Neutron.c n)).

(** [for (auto& n: neuts)]: the vector after the loop and the points
    drawn, in the order of the calls. *)
Fixpoint draw_neutrons (l : list Neutron.t) : list Neutron.t * list Point :=
  match l with
  | [] => ([], [])
  | n :: l' =>
      let nd := draw_neutron n in
      let ld := draw_neutrons l' in
      (fst nd :: fst ld, snd nd ++ snd ld)
  end.

(** A double that [(int)] converts: a finite number whose truncation is
    an [int].  (The conversion of anything else is undefined in C++.) *)
Definition fits_int (f : float) : bool :=
  match Prim2SF f with
  | S754_zero _ | S754_finite _ _ _ =>
      (INT_MIN <=? double_to_int f) && (double_to_int f <=? INT_MAX)
  | _ => false
  end.

(** A neutron whose two coordinates [(int)] converts. *)
Definition drawable (n : Neutron.t) : Prop :=
  fits_int (Position.x (Neutron.r n)) = true /\
  fits_int (Position.y (Neutron.r n)) = true.

(** A neutron for which the pixel arithmetic is that of [int]: its
    coordinates convert, and [posx--], [posy--], [posx + xx] and
    [posy + yy] do not overflow. *)
Definition paintable (n : Neutron.t) : Prop :=
  drawable n /\
  INT_MIN < double_to_int (Position.x (Neutron.r n)) < INT_MAX /\
  INT_MIN < double_to_int (Position.y (Neutron.r n)) < INT_MAX.

(** The pixel of a position lies where none of the four tests of
    [draw_neutrons] fires. *)
Definition in_window (r : Position.t) : Prop :=
  Z.quot NEUT_SIZE 2 <= double_to_int (Position.x r) <= WIDTH - Z.quot NEUT_SIZE 2 /\
  Z.quot NEUT_SIZE 2 <= double_to_int (Position.y r) <= HEIGHT - Z.quot NEUT_SIZE 2.

(** *** The window and the grid *)

(** The coordinate [d/2.0 + k * d] of the cell [k] of a grid of spacing
    [d] lies within [0, extent). *)
Definition coordinate_inside (extent d k : Z) : bool :=
  let x := (int_to_double d / 2.0 + int_to_double k * int_to_double d)%float in
  (0 <=? x)%float && (x <? int_to_double extent)%float.

(** So do the coordinates of all the cells that a grid of spacing [d >= 1]
    can have, and this for every spacing up to [extent]. *)
Definition spacing_inside (extent d : Z) : bool :=
  forallb (coordinate_inside extent d) (seqZ 0 (Z.quot extent d - 1)).
Definition grid_inside (extent : Z) : bool :=
  forallb (spacing_inside extent) (seqZ 1 extent).

(** The coordinate of the cell [k] of a grid of spacing [d] keeps half
    a spacing from the near edge and one and a half spacings from the far
    edge; and that of the first cell is half the spacing. *)
Definition coordinate_margins (extent d k : Z) : bool :=
  let x := (int_to_double d / 2.0 + int_to_double k * int_to_double d)%float in
  (int_to_double d / 2.0 <=? x)%float &&
  (int_to_double d + int_to_double d / 2.0 <=? int_to_double extent - x)%float.
Definition first_coordinate (d : Z) : bool :=
  (int_to_double d / 2.0 + int_to_double 0 * int_to_double d
   =? int_to_double d / 2.0)%float.

Definition grid_margins (extent : Z) : bool :=
  forallb (fun d => forallb (coordinate_margins extent d)
                      (seqZ 0 (Z.quot extent d - 1)))
          (seqZ 1 extent)
  && forallb first_coordinate (seqZ 0 (extent + 1)).

(** The statement that the grid of [initialize_neutrons] keeps a margin
    of half the spacing at the right edge too: some live neutron lies
    half a column spacing from [WIDTH]. *)
Definition margins_of_half_spacing : Prop :=
  forall (P : Platform) (w w' : World),
    (2 <= length (neuts w))%nat -> initialize_neutrons w = Some w' ->
    let dc := int_to_double
                (Z.quot WIDTH (grid_cols (length (neuts w)) + 1)) in
    exists i p, neuts w' !! i = Some p /\ Neutron.alive p = true /\
      (int_to_double WIDTH - Position.x (Neutron.r p) =? dc / 2.0)%float = true.

(** ** A platform to run the program on *)

(** A stand-in for [log] with the sign of the logarithm. *)
Definition sign_log (y : float) : float :=
  if (1 <? y)%float then 1%float
  else if (y =? 1)%float then 0%float else (-1)%float.

(** Directions along the axes, one after the other. *)
Definition axis_sample (seed : Z) : Position.t * Z :=
  (if Z.even seed then Position.mk 1 0 0 else Position.mk 0 1 0, seed + 1).

(** [rand] reads its values off a script, and returns [0] when the script
    has run out. *)
Definition scripted (draws : list Z) : Platform :=
  {| rand_state := nat;
     rand := fun i => (nth i draws 0, S i);
     flog := sign_log;
     isotropic_sample := axis_sample |}.

(** Every value of a script lies between [0] and [RAND_MAX]. *)
Definition script_in_range (draws : list Z) : bool :=
  forallb (fun k => (0 <=? k) && (k <=? RAND_MAX)) draws.

(** *** Worlds to run it in *)

(** A live neutron that is due for a collision, and one that has just
    been initialised. *)
Definition due_neutron : Neutron.t :=
  {| Neutron.r := Position.mk 100 200 0;
     Neutron.u := Position.mk 0 1 0;
     Neutron.distance_to_collision := (-1)%float;
     Neutron.alive := true;
     Neutron.c := Color.mk 10 20 30 |}.
Definition fresh_neutron : Neutron.t :=
  {| Neutron.r := Position.mk 320 270 0;
     Neutron.u := Position.mk 1 0 0;
     Neutron.distance_to_collision := 0%float;
     Neutron.alive := true;
     Neutron.c := Color.mk 100 200 44 |}.

(** Scripts whose first value makes [randf()] fall in the capture band
    (about [0.01]), in the fission band (about [0.08], followed by a value
    below one half) and in the scatter band (about [0.5]). *)
Definition capture_script : list Z :=
  [21474836; 1073741823; 536870911; 1610612735].
Definition fission_script : list Z :=
  [171798691; 100; 1073741823; 536870911; 1610612735; 2147483647; 0].
Definition scatter_script : list Z :=
  [1073741823; 536870911; 1610612735].

Definition world_of (draws : list Z) (l : list Neutron.t)
    : @World (scripted draws) :=
  @mkWorld (scripted draws) l 0%nat 0.

(** A collision that is a capture, with a spare dead slot behind; a
    fission with a dead slot to reuse; a fission in a vector with no dead
    slot; and a neutron straight from [initialize_neutrons]. *)
Definition capture_world := world_of capture_script [due_neutron; Neutron.zero].
Definition fission_world := world_of fission_script [due_neutron; Neutron.zero].
Definition crowded_world := world_of fission_script [due_neutron].
Definition fresh_world := world_of scatter_script [fresh_neutron].

(** A fission with two dead slots to reuse, and a collision that is a
    scattering. *)
Definition roomy_world :=
  world_of fission_script [due_neutron; Neutron.zero; Neutron.zero].
Definition scatter_world := world_of scatter_script [due_neutron].

(** Three draws that make a nearly white colour, and the draw that picks
    the channel to darken. *)
Definition white_script : list Z := [255; 254; 253; 4].

(** The two extreme values of [rand]. *)
Definition ends_script : list Z := [0; 2147483647].

(** A live neutron that has left the window at two sides, a dead one far
    outside, and a live one inside. *)
Definition stray_neutron : Neutron.t :=
  {| Neutron.r := Position.mk (-5) 2000 0;
     Neutron.u := Position.mk 0 1 0;
     Neutron.distance_to_collision := 1%float;
     Neutron.alive := true;
     Neutron.c := Color.mk 10 20 30 |}.
Definition lost_neutron : Neutron.t :=
  {| Neutron.r := Position.mk 5000 5000 0;
     Neutron.u := Position.mk 0 1 0;
     Neutron.distance_to_collision := 1%float;
     Neutron.alive := false;
     Neutron.c := Color.mk 1 2 3 |}.
Definition strays : list Neutron.t :=
  [stray_neutron; lost_neutron; fresh_neutron].

(** The vector [main] makes for two requested neutrons. *)
Definition two_world := world_of [100; 200; 300; 5; 6; 7] [Neutron.zero; Neutron.zero].

(** The time step [main] passes to [move_neutrons]. *)
Definition tick_dt : float := 1e-6%float.

(** The body of the loop of [main], between [SDL_RenderClear] and
    [SDL_RenderPresent]:
    [move_neutrons(neutrons, 1e-6); draw_neutrons(neutrons, renderer);] *)
Definition frame {P : Platform} (fuel : nat) (w : World)
    : option (World * list Point) :=
  w' ← move_neutrons fuel tick_dt w;
  Some (set_neuts (fst (draw_neutrons (neuts w'))) w',
        snd (draw_neutrons (neuts w'))).





(** ** Binary64 rounding, as [SpecFloat] defines it *)

(** The bits that right shifts have dropped from a mantissa. *)
Definition lost (mrs : shr_record) : bool := shr_r mrs || shr_s mrs.

(** [b] is [a] shifted right by [k] bits. *)
Definition shifted (k : Z) (a b : shr_record) : Prop :=
  shr_m b = shr_m a / 2 ^ k /\
  lost b = lost a || negb (shr_m a mod 2 ^ k =? 0).

Definition inexact (l : location) : bool :=
  match l with loc_Exact => false | loc_Inexact _ => true end.

Definition b2z (b : bool) : Z := if b then 1 else 0.

(** The float [1.0]. *)
Definition SF_one : spec_float := S754_finite false 4503599627370496 (-52).

(** [x] is a NaN or has the sign [s]. *)
Definition has_sign (s : bool) (x : spec_float) : Prop :=
  match x with
  | S754_nan => True
  | S754_zero s' | S754_infinity s' | S754_finite s' _ _ => s' = s
  end.

(** * Facts about binary64 arithmetic *)

Lemma fexp_eq e : fexp prec emax e = Z.max (e - 53) (-1074).
Proof. reflexivity. Qed.

Lemma digits2_pos_size p : digits2_pos p = Pos.size p.
Proof. induction p; simpl; congruence. Qed.

Lemma digits2_upper (m k : Z) : 0 <= k -> 0 <= m < 2 ^ k -> Zdigits2 m <= k.
Proof.
  intros Hk [Hm0 Hm]. destruct m as [|p|p]; cbn [Zdigits2]; try lia.
  rewrite digits2_pos_size.
  pose proof (Pos.size_le p) as Hs.
  destruct (Z_lt_le_dec k (Z.pos (Pos.size p))) as [Hlt|]; [|lia].
  exfalso.
  assert (H1 : 2 ^ (k + 1) <= 2 ^ Z.pos (Pos.size p)) by (apply Z.pow_le_mono_r; lia).
  assert (H2 : Z.pos (2 ^ Pos.size p) = 2 ^ Z.pos (Pos.size p))
    by (rewrite Pos2Z.inj_pow; reflexivity).
  assert (H3 : Z.pos (2 ^ Pos.size p) <= Z.pos p~0) by (apply Pos2Z.pos_le_pos; exact Hs).
  rewrite Z.pow_add_r in H1 by lia. lia.
Qed.

Lemma shr_1_shifted a : 0 <= shr_m a -> shifted 1 a (shr_1 a).
Proof.
  destruct a as [m r s]. unfold shifted, lost.
  cbn [shr_m shr_r shr_s]. intros Hm.
  replace (2 ^ 1) with 2 by reflexivity.
  destruct m as [|[p|p|]|]; cbn [shr_1 shr_m shr_r shr_s]; try lia.
  - split; [reflexivity | destruct r, s; reflexivity].
  - split.
    + rewrite Pos2Z.inj_xI. apply Z.div_unique with 1; lia.
    + rewrite Pos2Z.inj_xI.
      replace ((2 * Z.pos p + 1) mod 2) with 1
        by (apply Z.mod_unique with (Z.pos p); lia).
      destruct r, s; reflexivity.
  - split.
    + rewrite Pos2Z.inj_xO. apply Z.div_unique with 0; lia.
    + rewrite Pos2Z.inj_xO.
      replace ((2 * Z.pos p) mod 2) with 0
        by (apply Z.mod_unique with (Z.pos p); lia).
      destruct r, s; reflexivity.
  - split; [reflexivity | destruct r, s; reflexivity].
Qed.

Lemma shifted_nonneg k a b : 0 <= k -> 0 <= shr_m a -> shifted k a b -> 0 <= shr_m b.
Proof.
  intros Hk Ha [Hb _]. rewrite Hb. apply Z.div_pos; [lia|]. apply Z.pow_pos_nonneg; lia.
Qed.

Lemma shifted_trans j k a b c :
  0 <= j -> 0 <= k -> 0 <= shr_m a ->
  shifted j a b -> shifted k b c -> shifted (j + k) a c.
Proof.
  intros Hj Hk Ha [Hb Lb] [Hc Lc].
  assert (0 < 2 ^ j) by (apply Z.pow_pos_nonneg; lia).
  assert (0 < 2 ^ k) by (apply Z.pow_pos_nonneg; lia).
  split.
  - rewrite Hc, Hb, Z.pow_add_r by lia. apply Z.div_div; lia.
  - rewrite Lc, Lb, Hb, Z.pow_add_r by lia.
    rewrite (Z.rem_mul_r (shr_m a) (2 ^ j) (2 ^ k)) by lia.
    set (x := shr_m a mod 2 ^ j). set (y := (shr_m a / 2 ^ j) mod 2 ^ k).
    assert (0 <= x < 2 ^ j) by (apply Z.mod_pos_bound; lia).
    assert (0 <= y < 2 ^ k) by (apply Z.mod_pos_bound; lia).
    destruct (lost a); simpl; [reflexivity|].
    destruct (Z.eqb_spec x 0), (Z.eqb_spec y 0), (Z.eqb_spec (x + 2 ^ j * y) 0);
      simpl; try reflexivity; try lia.
    all: assert (0 <= 2 ^ j * y) by (apply Z.mul_nonneg_nonneg; lia); try lia.
    all: subst; try lia.
Qed.

Lemma iter_pos_shifted p a :
  0 <= shr_m a -> shifted (Z.pos p) a (SpecFloat.iter_pos shr_1 p a).
Proof.
  revert a. induction p as [p IH|p IH|]; intros a Ha; simpl.
  - pose proof (shr_1_shifted a Ha) as H1.
    pose proof (shifted_nonneg 1 _ _ Z.le_0_1 Ha H1) as Hb.
    pose proof (IH _ Hb) as H2.
    pose proof (shifted_nonneg (Z.pos p) _ _ (Pos2Z.is_nonneg p) Hb H2) as Hc.
    pose proof (IH _ Hc) as H3.
    rewrite Pos2Z.inj_xI. replace (2 * Z.pos p + 1) with (1 + Z.pos p + Z.pos p) by lia.
    eapply shifted_trans; [lia|lia|exact Ha| |exact H3].
    eapply shifted_trans; [lia|lia|exact Ha|exact H1|exact H2].
  - pose proof (IH _ Ha) as H2.
    pose proof (shifted_nonneg (Z.pos p) _ _ (Pos2Z.is_nonneg p) Ha H2) as Hc.
    pose proof (IH _ Hc) as H3.
    rewrite Pos2Z.inj_xO. replace (2 * Z.pos p) with (Z.pos p + Z.pos p) by lia.
    eapply shifted_trans; [lia|lia|exact Ha|exact H2|exact H3].
  - apply shr_1_shifted; exact Ha.
Qed.

Lemma lost_record_of_loc m l : lost (shr_record_of_loc m l) = inexact l.
Proof. destruct l as [|[]]; reflexivity. Qed.

Lemma shr_m_record_of_loc m l : shr_m (shr_record_of_loc m l) = m.
Proof. destruct l as [|[]]; reflexivity. Qed.

Lemma inexact_loc_of_record a : inexact (loc_of_shr_record a) = lost a.
Proof. destruct a as [m [] []]; reflexivity. Qed.

(** One pass of [shr_fexp] keeps a value that is at most one at most one. *)
Lemma shr_fexp_le_one m e l :
  0 <= m -> e <= -52 -> m + b2z (inexact l) <= 2 ^ (- e) ->
  let '(a, e') := shr_fexp prec emax m e l in
  0 <= shr_m a /\ e' <= -52 /\ shr_m a + b2z (lost a) <= 2 ^ (- e').
Proof.
  intros Hm He Hb. unfold shr_fexp, shr.
  destruct (fexp prec emax (Zdigits2 m + e) - e) as [|p|p] eqn:Hn.
  - rewrite shr_m_record_of_loc, lost_record_of_loc. auto.
  - pose proof (iter_pos_shifted p (shr_record_of_loc m l)) as Hs.
    rewrite shr_m_record_of_loc in Hs. specialize (Hs Hm).
    destruct Hs as [Hq Hl]. rewrite shr_m_record_of_loc in Hq, Hl.
    rewrite lost_record_of_loc in Hl.
    set (a := SpecFloat.iter_pos shr_1 p (shr_record_of_loc m l)) in *.
    assert (0 < 2 ^ Z.pos p) as Hp by (apply Z.pow_pos_nonneg; lia).
    assert (Hd : Zdigits2 m <= - e + 1).
    { apply digits2_upper; [lia|]. rewrite Z.pow_add_r by lia.
      assert (0 < 2 ^ (- e)) by (apply Z.pow_pos_nonneg; lia).
      destruct (inexact l); cbn [b2z] in Hb; lia. }
    assert (He' : e + Z.pos p <= -52).
    { rewrite <- Hn, fexp_eq. lia. }
    assert (Hpow : 2 ^ (- e) = 2 ^ (- (e + Z.pos p)) * 2 ^ Z.pos p).
    { rewrite <- Z.pow_add_r by lia. f_equal. lia. }
    set (T := 2 ^ (- (e + Z.pos p))) in *.
    assert (0 < T) by (apply Z.pow_pos_nonneg; lia).
    pose proof (Z.div_mod m (2 ^ Z.pos p) ltac:(lia)) as Hdm.
    pose proof (Z.mod_pos_bound m (2 ^ Z.pos p) Hp) as Hmod.
    rewrite <- Hq in Hdm.
    split; [rewrite Hq; apply Z.div_pos; lia|]. split; [exact He'|].
    rewrite Hl.
    set (P2 := 2 ^ Z.pos p) in *. set (q := shr_m a) in *.
    set (r := m mod P2) in *.
    destruct (inexact l); cbn [orb b2z] in *.
    + nia.
    + destruct (Z.eqb_spec r 0); cbn [negb b2z]; nia.
  - rewrite shr_m_record_of_loc, lost_record_of_loc. auto.
Qed.

Lemma round_nearest_even_le m l :
  round_nearest_even m l <= m + b2z (inexact l).
Proof.
  destruct l as [|[]]; cbn [round_nearest_even inexact b2z]; try lia.
  destruct (Z.even m); lia.
Qed.

Lemma round_nearest_even_nonneg m l : 0 <= m -> 0 <= round_nearest_even m l.
Proof.
  intros Hm. destruct l as [|[]]; cbn [round_nearest_even]; try lia.
  destruct (Z.even m); lia.
Qed.

(** Rounding a value that is at most one gives a float that is not above
    one: the mantissa [m], followed by more digits when [l] is inexact,
    counts units of [2^e]. *)
Lemma binary_round_aux_le_one m e l :
  0 <= m -> e <= -52 -> m + b2z (inexact l) <= 2 ^ (- e) ->
  SFltb SF_one (binary_round_aux prec emax false m e l) = false.
Proof.
  intros Hm He Hb. unfold binary_round_aux.
  pose proof (shr_fexp_le_one m e l Hm He Hb) as H1.
  destruct (shr_fexp prec emax m e l) as [a e1].
  destruct H1 as (Ha & He1 & Hb1).
  pose proof (round_nearest_even_le (shr_m a) (loc_of_shr_record a)) as Hr.
  rewrite inexact_loc_of_record in Hr.
  pose proof (round_nearest_even_nonneg (shr_m a) (loc_of_shr_record a) Ha) as Hr0.
  set (m1 := round_nearest_even (shr_m a) (loc_of_shr_record a)) in *.
  pose proof (shr_fexp_le_one m1 e1 loc_Exact Hr0 He1) as H2.
  cbn [inexact b2z] in H2. specialize (H2 ltac:(lia)).
  destruct (shr_fexp prec emax m1 e1 loc_Exact) as [c e2].
  destruct H2 as (Hc & He2 & Hb2).
  assert (Hle : shr_m c <= 2 ^ (- e2)) by (destruct (lost c); cbn [b2z] in Hb2; lia).
  destruct (shr_m c) as [|q|q]; [reflexivity| |lia].
  replace (IntDef.Z.leb e2 (IntDef.Z.sub emax prec)) with true
    by (symmetry; apply Z.leb_le; unfold emax, prec; lia).
  unfold SFltb, SF_one, SFcompare.
  destruct (Z.compare_spec (-52) e2) as [Heq|Hlt|Hgt]; [|lia|reflexivity].
  subst e2. change (2 ^ (- -52)) with 4503599627370496 in Hle.
  rewrite Pos.compare_cont_spec. cbn [Pos.switch_Eq].
  destruct (Pos.compare_spec 4503599627370496 q) as [|Hlt|]; try reflexivity.
  exfalso. apply Pos2Z.pos_lt_pos in Hlt. lia.
Qed.

(** The result of a rounding has the sign it was given. *)
Lemma binary_round_aux_sign s m e l :
  has_sign s (binary_round_aux prec emax s m e l).
Proof.
  unfold binary_round_aux.
  destruct (shr_fexp prec emax m e l) as [a e1].
  destruct (shr_fexp prec emax _ e1 loc_Exact) as [c e2].
  destruct (shr_m c); cbn; auto.
  destruct (IntDef.Z.leb _ _); reflexivity.
Qed.

(** A float of non-negative sign is not below zero, and one of negative
    sign is not above one. *)
Lemma nonneg_not_lt_zero x :
  has_sign false x -> SFltb x (S754_zero false) = false.
Proof. destruct x as [s|s| |s m e]; cbn; intros H; try subst s; reflexivity. Qed.

Lemma neg_not_gt_one x :
  has_sign true x -> SFltb SF_one x = false.
Proof. destruct x as [s|s| |s m e]; cbn; intros H; try subst s; reflexivity. Qed.

(** Rounding an exact mantissa that is already in canonical position
    changes nothing. *)
Lemma binary_round_aux_canonical s m e :
  canonical_mantissa prec emax m e = true -> e <= 971 ->
  binary_round_aux prec emax s (Z.pos m) e loc_Exact = S754_finite s m e.
Proof.
  unfold canonical_mantissa. intros Hc He. apply Z.eqb_eq in Hc.
  unfold binary_round_aux, shr_fexp. cbn [Zdigits2 shr_record_of_loc].
  replace (IntDef.Z.sub (fexp prec emax (IntDef.Z.add (Z.pos (digits2_pos m)) e)) e)
    with 0 by (change (0 = fexp prec emax (Z.pos (digits2_pos m) + e) - e); lia).
  cbn [shr shr_m loc_of_shr_record round_nearest_even Zdigits2 shr_record_of_loc].
  replace (IntDef.Z.sub (fexp prec emax (IntDef.Z.add (Z.pos (digits2_pos m)) e)) e)
    with 0 by (change (0 = fexp prec emax (Z.pos (digits2_pos m) + e) - e); lia).
  cbn [shr shr_m].
  replace (IntDef.Z.leb e (IntDef.Z.sub emax prec)) with true
    by (symmetry; apply Z.leb_le; unfold emax, prec; lia).
  reflexivity.
Qed.

Lemma iter_xO_pow m d : Z.pos (Pos.iter xO m d) = Z.pos m * 2 ^ Z.pos d.
Proof.
  induction d as [|d IH] using Pos.peano_ind.
  - cbn. lia.
  - rewrite Pos.iter_succ, Pos2Z.inj_xO, IH, Pos2Z.inj_succ, Z.pow_succ_r by lia.
    lia.
Qed.

Lemma digits2_iter_xO m d :
  Z.pos (digits2_pos (Pos.iter xO m d)) = Z.pos (digits2_pos m) + Z.pos d.
Proof.
  induction d as [|d IH] using Pos.peano_ind.
  - cbn. lia.
  - rewrite Pos.iter_succ. cbn [digits2_pos].
    change (PosDef.Pos.succ ?x) with (Pos.succ x).
    rewrite Pos2Z.inj_succ, IH. lia.
Qed.

(** [shl_align] keeps the value and lowers the exponent to the one asked
    for, when that is lower. *)
Lemma shl_align_spec m e e' :
  let '(m', e'') := shl_align m e e' in
  e'' <= e /\ Z.pos m' = Z.pos m * 2 ^ (e - e'') /\ (e' <= e -> e'' = e') /\
  Z.pos (digits2_pos m') = Z.pos (digits2_pos m) + (e - e'').
Proof.
  unfold shl_align.
  destruct (IntDef.Z.sub e' e) as [|d|d] eqn:Hd;
    change (IntDef.Z.sub e' e) with (e' - e) in Hd.
  - rewrite Z.sub_diag. cbn. lia.
  - rewrite Z.sub_diag. cbn. lia.
  - split; [lia|].
    replace (e - e') with (Z.pos d) by lia.
    split; [apply iter_xO_pow|]. split; [reflexivity|apply digits2_iter_xO].
Qed.

(** *** Conversion of a small positive integer *)

Lemma binary_normalize_small p :
  Z.pos (digits2_pos p) <= 53 ->
  exists m e,
    binary_normalize prec emax (Z.pos p) 0 false = S754_finite false m e /\
    e = Z.pos (digits2_pos p) - 53 /\ Z.pos m = Z.pos p * 2 ^ (- e) /\
    Z.pos (digits2_pos m) = 53.
Proof.
  intros Hd. unfold binary_normalize, binary_round.
  pose proof (shl_align_spec p 0 (fexp prec emax (Z.pos (digits2_pos p) + 0))) as Hs.
  change (IntDef.Z.add (Z.pos (digits2_pos p)) 0) with (Z.pos (digits2_pos p) + 0).
  destruct (shl_align p 0 (fexp prec emax (Z.pos (digits2_pos p) + 0))) as [m e].
  destruct Hs as (He & Hm & Heq & Hdig).
  rewrite fexp_eq in Heq.
  assert (e = Z.pos (digits2_pos p) - 53) as He' by lia.
  exists m, e. split; [|repeat split; try lia].
  - apply binary_round_aux_canonical; [|lia].
    unfold canonical_mantissa. apply Z.eqb_eq.
    change (fexp prec emax (Z.pos (digits2_pos m) + e) = e).
    rewrite fexp_eq. lia.
  - rewrite Hm, Z.sub_0_l. reflexivity.
Qed.

(** *** Division of a smaller by a larger positive float *)

Lemma new_location_exact n k :
  inexact (new_location n k) = negb (k =? 0).
Proof.
  unfold new_location, new_location_even, new_location_odd.
  change (IntDef.Z.eqb k 0) with (k =? 0).
  destruct (IntDef.Z.even n), (k =? 0); reflexivity.
Qed.

Lemma SFdiv_le_one ma ea mb eb :
  ea <= eb -> Z.pos ma <= Z.pos mb * 2 ^ (eb - ea) ->
  fexp prec emax (Z.pos (digits2_pos ma) + ea - (Z.pos (digits2_pos mb) + eb)) <= -52 ->
  SFltb SF_one
    (SFdiv prec emax (S754_finite false ma ea) (S754_finite false mb eb)) = false.
Proof.
  intros Hea Hv Hf. unfold SFdiv, SFdiv_core_binary. cbn [Zdigits2 xorb].
  change (IntDef.Z.sub (IntDef.Z.add (Z.pos (digits2_pos ma)) ea)
            (IntDef.Z.add (Z.pos (digits2_pos mb)) eb))
    with (Z.pos (digits2_pos ma) + ea - (Z.pos (digits2_pos mb) + eb)).
  set (f := fexp prec emax _) in *.
  change (IntDef.Z.min f (IntDef.Z.sub ea eb)) with (Z.min f (ea - eb)).
  set (e' := Z.min f (ea - eb)).
  change (IntDef.Z.sub (IntDef.Z.sub ea eb) e') with (ea - eb - e').
  set (s := ea - eb - e').
  assert (Hs : 0 <= s) by (unfold s, e'; lia).
  assert (He' : e' <= -52) by (unfold e'; lia).
  set (m' := match s with Z.pos _ => IntDef.Z.shiftl (Z.pos ma) s | 0 => Z.pos ma
                        | Z.neg _ => 0 end).
  assert (Hm' : m' = Z.pos ma * 2 ^ s).
  { unfold m'. destruct s as [|p|p] eqn:E; [cbn; lia| |lia].
    change (IntDef.Z.shiftl (Z.pos ma) (Z.pos p)) with (Z.shiftl (Z.pos ma) (Z.pos p)).
    rewrite Z.shiftl_mul_pow2 by lia. reflexivity. }
  clearbody m'.
  change (IntDef.Z.div_eucl m' (Z.pos mb)) with (Z.div_eucl m' (Z.pos mb)).
  pose proof (Z_div_mod m' (Z.pos mb) ltac:(lia)) as Hdiv.
  destruct (Z.div_eucl m' (Z.pos mb)) as [q r]. destruct Hdiv as [Hq Hr].
  assert (H2s : 0 < 2 ^ s) by (apply Z.pow_pos_nonneg; lia).
  assert (H2e : 0 < 2 ^ (eb - ea)) by (apply Z.pow_pos_nonneg; lia).
  assert (Hpow : 2 ^ (- e') = 2 ^ (eb - ea) * 2 ^ s).
  { rewrite <- Z.pow_add_r by lia. f_equal. unfold s. lia. }
  assert (Hq0 : 0 <= q) by nia.
  apply binary_round_aux_le_one; [exact Hq0|exact He'|].
  rewrite new_location_exact, Hpow.
  set (X := 2 ^ (eb - ea)) in *. set (Y := 2 ^ s) in *.
  destruct (Z.eqb_spec r 0); cbn [negb b2z]; nia.
Qed.

(** *** Subtraction from one *)

Lemma SFsub_one_le_one x :
  has_sign false x -> SFltb SF_one (SFsub prec emax SF_one x) = false.
Proof.
  destruct x as [s|s| |s m e]; cbn [has_sign]; intros Hs; try subst s;
    try reflexivity.
  unfold SF_one, SFsub. cbn [cond_Zopp].
  change (IntDef.Z.min (-52) e) with (Z.min (-52) e).
  set (ez := Z.min (-52) e).
  pose proof (shl_align_spec 4503599627370496 (-52) ez) as HA.
  pose proof (shl_align_spec m e ez) as HB.
  destruct (shl_align 4503599627370496 (-52) ez) as [A eA].
  destruct (shl_align m e ez) as [B eB]. cbn [fst].
  destruct HA as (_ & HA & HeA & _). destruct HB as (_ & _ & _ & _).
  specialize (HeA ltac:(lia)). subst eA.
  assert (HAv : Z.pos A = 2 ^ (- ez)).
  { rewrite HA. change 4503599627370496 with (2 ^ 52).
    rewrite <- Z.pow_add_r by lia. f_equal. lia. }
  change (IntDef.Z.sub (Z.pos A) (Z.pos B)) with (Z.pos A - Z.pos B).
  assert (HD : Z.pos A - Z.pos B < 2 ^ (- ez)) by lia.
  destruct (Z.pos A - Z.pos B) as [|q|q]; cbn [binary_normalize].
  - reflexivity.
  - unfold binary_round.
    pose proof (shl_align_spec q ez (fexp prec emax (IntDef.Z.add (Z.pos (digits2_pos q)) ez))) as HQ.
    destruct (shl_align q ez _) as [mz ez'].
    destruct HQ as (Hez' & Hmz & _ & _).
    apply binary_round_aux_le_one; cbn [inexact b2z]; [lia|lia|].
    rewrite Hmz, Z.add_0_r.
    replace (- ez') with (- ez + (ez - ez')) by lia.
    rewrite Z.pow_add_r by lia.
    assert (0 < 2 ^ (ez - ez')) by (apply Z.pow_pos_nonneg; lia).
    nia.
  - unfold binary_round. destruct (shl_align q ez _) as [mz ez'].
    apply neg_not_gt_one, binary_round_aux_sign.
Qed.

(** *** The sign of a quotient *)

Lemma SFdiv_sign sx mx ex sy my ey :
  has_sign (xorb sx sy)
    (SFdiv prec emax (S754_finite sx mx ex) (S754_finite sy my ey)).
Proof.
  unfold SFdiv. destruct (SFdiv_core_binary _ _ _ _ _ _) as [[mz ez] lz].
  apply binary_round_aux_sign.
Qed.

(** A float that is not above zero, negated and divided by a positive
    finite float, is not below zero. *)
Lemma SFdiv_opp_not_negative x my ey :
  SFltb (S754_zero false) x = false ->
  SFltb (SFdiv prec emax (SFopp x) (S754_finite false my ey)) (S754_zero false)
    = false.
Proof.
  destruct x as [s|[]| |[] m e]; cbn [SFopp]; intros H; try discriminate H;
    try reflexivity.
  apply nonneg_not_lt_zero.
  apply (SFdiv_sign false m e false my ey).
Qed.

(** The square root of any float has a non-negative sign. *)
Lemma SFsqrt_sign x :
  match SFsqrt prec emax x with
  | S754_finite s _ _ => s = false
  | _ => True
  end.
Proof.
  destruct x as [s|[]| |[] m e]; cbn [SFsqrt]; auto.
  destruct (SFsqrt_core_binary _ _ _ _) as [[mz ez] lz].
  pose proof (binary_round_aux_sign false mz ez lz) as H.
  destruct (binary_round_aux prec emax false mz ez lz); auto.
Qed.

Lemma Prim2SF_one : Prim2SF 1%float = SF_one.
Proof. reflexivity. Qed.

Lemma Prim2SF_RAND_MAX :
  Prim2SF (int_to_double RAND_MAX) = S754_finite false 9007199250546688 (-22).
Proof. reflexivity. Qed.

Lemma Prim2SF_int_to_double_pos p :
  Z.pos p <= RAND_MAX ->
  exists m e,
    Prim2SF (int_to_double (Z.pos p)) = S754_finite false m e /\
    e = Z.pos (digits2_pos p) - 53 /\ Z.pos m = Z.pos p * 2 ^ (- e) /\
    Z.pos (digits2_pos m) = 53 /\ Z.pos (digits2_pos p) <= 31.
Proof.
  intros Hp.
  assert (Hd : Z.pos (digits2_pos p) <= 31).
  { apply (digits2_upper (Z.pos p) 31); [lia|]. unfold RAND_MAX in Hp.
    change (2 ^ 31) with 2147483648. lia. }
  destruct (binary_normalize_small p ltac:(lia)) as (m & e & Hn & He & Hm & Hdm).
  exists m, e. repeat split; try assumption.
  unfold int_to_double. rewrite Hn. apply Prim2SF_SF2Prim.
  unfold valid_binary, bounded, canonical_mantissa.
  apply andb_true_intro. split.
  - apply Z.eqb_eq. change (fexp prec emax (Z.pos (digits2_pos m) + e) = e).
    rewrite fexp_eq. lia.
  - apply Z.leb_le. unfold emax, prec. lia.
Qed.

Lemma unit_draw_spec k :
  0 <= k <= RAND_MAX ->
  has_sign false (Prim2SF (int_to_double k / int_to_double RAND_MAX)%float) /\
  SFltb SF_one (Prim2SF (int_to_double k / int_to_double RAND_MAX)%float) = false.
Proof.
  intros [Hk0 Hk]. rewrite div_spec, Prim2SF_RAND_MAX.
  destruct k as [|p|p]; [split; reflexivity| |lia].
  destruct (Prim2SF_int_to_double_pos p Hk) as (m & e & -> & He & Hm & Hdm & Hdp).
  split; [apply (SFdiv_sign false m e false)|].
  apply SFdiv_le_one.
  - lia.
  - rewrite Hm. unfold RAND_MAX in Hk.
    replace (- e) with (22 + (-22 - e)) by lia.
    rewrite Z.pow_add_r by lia.
    assert (0 < 2 ^ (-22 - e)) by (apply Z.pow_pos_nonneg; lia).
    change (2 ^ 22) with 4194304. nia.
  - rewrite Hdm. change (Z.pos (digits2_pos 9007199250546688)) with 53.
    rewrite fexp_eq. lia.
Qed.

(** [randf()] is never above one. *)
Lemma unit_draw_le_one k :
  0 <= k <= RAND_MAX -> (1 <? int_to_double k / int_to_double RAND_MAX)%float = false.
Proof.
  intros Hk. rewrite ltb_spec, Prim2SF_one. apply unit_draw_spec, Hk.
Qed.

(** [1 - randf()] is never above one. *)
Lemma one_minus_unit_draw_le_one k :
  0 <= k <= RAND_MAX -> (1 <? 1 - int_to_double k / int_to_double RAND_MAX)%float = false.
Proof.
  intros Hk. rewrite ltb_spec, sub_spec, Prim2SF_one.
  apply SFsub_one_le_one, unit_draw_spec, Hk.
Qed.

Lemma Prim2SF_sig_t :
  Prim2SF sig_t = S754_finite false 5464367547876202 (-54).
Proof. reflexivity. Qed.

(** [-y / sig_t] is not negative when [y] is not positive. *)
Lemma neg_over_sig_t_not_negative y :
  (0 <? y)%float = false -> (- y / sig_t <? 0)%float = false.
Proof.
  rewrite !ltb_spec, div_spec, opp_spec, Prim2SF_sig_t.
  apply SFdiv_opp_not_negative.
Qed.

(** The truncation of a square root is not negative. *)
Lemma double_to_int_sqrt_nonneg x : 0 <= double_to_int (PrimFloat.sqrt x).
Proof.
  unfold double_to_int. rewrite sqrt_spec.
  pose proof (SFsqrt_sign (Prim2SF x)) as H. unfold SF64sqrt.
  destruct (SFsqrt prec emax (Prim2SF x)) as [| | |s m e]; try lia.
  subst s. destruct e as [|p|p]; try lia.
  apply Z.quot_pos; lia.
Qed.

(** *** The square root of a small integer *)

Lemma digits2_lower (m k : Z) : 0 <= k -> 2 ^ k <= m -> k + 1 <= Zdigits2 m.
Proof.
  intros Hk Hm.
  assert (0 < 2 ^ k) by (apply Z.pow_pos_nonneg; lia).
  destruct m as [|p|p]; try lia. cbn [Zdigits2].
  rewrite digits2_pos_size.
  pose proof (Pos.size_gt p) as Hs.
  apply Pos2Z.pos_lt_pos in Hs. rewrite Pos2Z.inj_pow in Hs.
  destruct (Z_lt_le_dec k (Z.pos (Pos.size p))) as [|Hle]; [lia|].
  exfalso. assert (2 ^ Z.pos (Pos.size p) <= 2 ^ k) by (apply Z.pow_le_mono_r; lia).
  lia.
Qed.

Lemma digits2_53 (x : Z) :
  4503599627370496 <= x < 9007199254740992 -> Zdigits2 x = 53.
Proof.
  intros [Hlo Hhi].
  pose proof (digits2_upper x 53 ltac:(lia) ltac:(change (2 ^ 53) with 9007199254740992; lia)).
  pose proof (digits2_lower x 52 ltac:(lia) ltac:(change (2 ^ 52) with 4503599627370496; lia)).
  lia.
Qed.

(** An exact or inexact mantissa of 53 bits is rounded to itself or to its
    successor, at the same exponent. *)
Lemma binary_round_aux_53 m e l :
  4503599627370496 <= m < 9007199254740992 -> -1074 <= e <= 971 ->
  4503599627370496 <= round_nearest_even m l < 9007199254740992 ->
  exists m', Z.pos m' = round_nearest_even m l /\
    binary_round_aux prec emax false m e l = S754_finite false m' e.
Proof.
  intros Hm He Hr. unfold binary_round_aux, shr_fexp.
  rewrite (digits2_53 m Hm).
  replace (IntDef.Z.sub (fexp prec emax (IntDef.Z.add 53 e)) e) with 0
    by (change (0 = fexp prec emax (53 + e) - e); rewrite fexp_eq; lia).
  cbn [shr]. rewrite shr_m_record_of_loc.
  replace (loc_of_shr_record (shr_record_of_loc m l)) with l
    by (destruct l as [|[]]; reflexivity).
  rewrite (digits2_53 _ Hr).
  replace (IntDef.Z.sub (fexp prec emax (IntDef.Z.add 53 e)) e) with 0
    by (change (0 = fexp prec emax (53 + e) - e); rewrite fexp_eq; lia).
  cbn [shr shr_record_of_loc shr_m].
  destruct (round_nearest_even m l) as [|m'|m'] eqn:Hm'; try lia.
  exists m'. split; [reflexivity|].
  replace (IntDef.Z.leb e (IntDef.Z.sub emax prec)) with true
    by (symmetry; apply Z.leb_le; unfold emax, prec; lia).
  reflexivity.
Qed.

Lemma digits2_bounds p :
  2 ^ (Z.pos (digits2_pos p) - 1) <= Z.pos p < 2 ^ Z.pos (digits2_pos p).
Proof.
  rewrite digits2_pos_size.
  pose proof (Pos.size_gt p) as Hgt. pose proof (Pos.size_le p) as Hle.
  apply Pos2Z.pos_lt_pos in Hgt. apply Pos2Z.pos_le_pos in Hle.
  rewrite Pos2Z.inj_pow in Hgt, Hle.
  split; [|exact Hgt].
  replace (Z.pos (Pos.size p)) with (Z.pos (Pos.size p) - 1 + 1) in Hle by lia.
  rewrite Z.pow_add_r in Hle by lia. change (2 ^ 1) with 2 in Hle. lia.
Qed.

Lemma SFsqrt_trunc (m : positive) (e k : Z) :
  Z.pos (digits2_pos m) = 53 -> -52 <= e <= -22 ->
  Z.pos m = k * 2 ^ (- e) -> 0 < k < 2147483648 ->
  exists m' e', SFsqrt prec emax (S754_finite false m e) = S754_finite false m' e' /\
    e' < 0 /\ Z.pos m' / 2 ^ (- e') = Z.sqrt k.
Proof.
  intros Hdm He Hm Hk. unfold SFsqrt, SFsqrt_core_binary. cbn [Zdigits2].
  rewrite Hdm.
  change (IntDef.Z.min (fexp prec emax (IntDef.Z.div2 (IntDef.Z.add (IntDef.Z.add 53 e) 1)))
            (IntDef.Z.div2 e))
    with (Z.min (fexp prec emax (Z.div2 (53 + e + 1))) (Z.div2 e)).
  set (e' := Z.min _ _).
  assert (He' : e' = (54 + e) / 2 - 53).
  { unfold e'. rewrite fexp_eq, !Z.div2_div. clear - He. Z.to_euclidean_division_equations. lia. }
  assert (He'r : -52 <= e' <= -37)
    by (rewrite He'; clear - He; Z.to_euclidean_division_equations; lia).
  assert (He's : e - 2 * e' = 52 \/ e - 2 * e' = 53)
    by (rewrite He'; clear - He; Z.to_euclidean_division_equations; lia).
  clearbody e'. clear He'.
  change (IntDef.Z.sub e (IntDef.Z.mul 2 e')) with (e - 2 * e').
  remember (e - 2 * e') as s eqn:Hsdef. rename He's into Hs.
  set (X := match s with Z.pos _ => IntDef.Z.shiftl (Z.pos m) s | 0 => Z.pos m
                       | Z.neg _ => 0 end).
  assert (HX : X = Z.pos m * 2 ^ s).
  { unfold X. destruct Hs as [-> | ->];
      change (IntDef.Z.shiftl (Z.pos m) ?n) with (Z.shiftl (Z.pos m) n);
      rewrite Z.shiftl_mul_pow2 by lia; reflexivity. }
  clearbody X.
  remember (2 ^ (- e')) as T eqn:HTdef.
  assert (HT : 137438953472 <= T).
  { rewrite HTdef. change 137438953472 with (2 ^ 37). apply Z.pow_le_mono_r; lia. }
  assert (HXk : X = k * (T * T)).
  { rewrite HX, Hm, HTdef. rewrite <- Z.mul_assoc, <- !Z.pow_add_r by lia.
    f_equal. f_equal. lia. }
  assert (Hdig : 4503599627370496 <= Z.pos m < 9007199254740992).
  { pose proof (digits2_bounds m) as Hb. rewrite Hdm in Hb. exact Hb. }
  assert (HXr : 20282409603651670423947251286016 <= X < 81129638414606681695789005144064).
  { rewrite HX. clear - Hs Hdig. destruct Hs as [-> | ->].
    - change (2 ^ 52) with 4503599627370496. lia.
    - change (2 ^ 53) with 9007199254740992. lia. }
  change (IntDef.Z.sqrtrem X) with (Z.sqrtrem X).
  pose proof (Z.sqrtrem_spec X ltac:(lia)) as Hsq.
  destruct (Z.sqrtrem X) as [q r]. destruct Hsq as [Hq Hr].
  pose proof (Z.sqrt_spec k ltac:(lia)) as HN. cbv zeta in HN.
  set (N := Z.sqrt k) in *.
  assert (HN0 : 0 <= N) by apply Z.sqrt_nonneg.
  assert (HNhi : N < 46341) by nia.
  assert (Hq0 : 0 <= q) by lia.
  assert (Hqr : 4503599627370496 <= q < 9007199254740992) by nia.
  assert (Hlo : T * N <= q) by nia.
  assert (Hhi : q < T * (N + 1)) by nia.
  assert (Htop : T * (N + 1) <= 9007199254740992).
  { assert (HU : T * 2 ^ (53 + e') = 9007199254740992).
    { rewrite HTdef, <- Z.pow_add_r by lia.
      replace (- e' + (53 + e')) with 53 by lia. reflexivity. }
    assert (0 < 2 ^ (53 + e')) by (apply Z.pow_pos_nonneg; lia).
    set (U := 2 ^ (53 + e')) in *. clearbody U.
    assert (N < U) by (apply (Z.mul_lt_mono_pos_l T); lia).
    rewrite <- HU. apply Z.mul_le_mono_nonneg_l; lia. }
  set (l := if IntDef.Z.eqb r 0 then loc_Exact
            else loc_Inexact (if IntDef.Z.leb r q then Lt else Gt)).
  assert (Hround : 4503599627370496 <= round_nearest_even q l < 9007199254740992 /\
                   T * N <= round_nearest_even q l < T * (N + 1)).
  { unfold l. change (IntDef.Z.eqb r 0) with (r =? 0).
    change (IntDef.Z.leb r q) with (r <=? q).
    destruct (Z.eqb_spec r 0); [cbn; lia|].
    destruct (Z.leb_spec r q); cbn [round_nearest_even]; [lia|].
    assert (q + 1 < T * (N + 1)); [|lia].
    destruct (Z_lt_le_dec (q + 1) (T * (N + 1))) as [|Hge]; [assumption|exfalso].
    assert (q + 1 = T * (N + 1)) by lia. nia. }
  destruct Hround as [Hr53 HrN].
  destruct (binary_round_aux_53 q e' l Hqr ltac:(lia) Hr53) as (m' & Hm' & Hres).
  exists m', e'. split; [exact Hres|]. split; [lia|].
  rewrite Hm', <- HTdef. symmetry. apply Z.div_unique with (round_nearest_even q l - T * N); lia.
Qed.

(** The truncated double square root of a non-negative [int] is its integer
    square root. *)
Lemma double_sqrt_isqrt k :
  0 <= k <= RAND_MAX ->
  double_to_int (PrimFloat.sqrt (int_to_double k)) = Z.sqrt k.
Proof.
  intros [Hk0 Hk]. destruct k as [|p|p]; [reflexivity| |lia].
  destruct (Prim2SF_int_to_double_pos p Hk) as (m & e & Hrepr & He & Hm & Hdm & Hdp).
  assert (Hd1 : 1 <= Z.pos (digits2_pos p)) by lia.
  destruct (SFsqrt_trunc m e (Z.pos p) Hdm ltac:(lia) Hm
              ltac:(unfold RAND_MAX in Hk; lia)) as (m' & e' & Hres & He' & Hq).
  unfold double_to_int. rewrite sqrt_spec, Hrepr. unfold SF64sqrt. rewrite Hres.
  destruct e' as [|t|t]; try lia.
  rewrite Z.pow_pos_fold, Z.quot_div_nonneg; [exact Hq|lia|].
  apply Z.pow_pos_nonneg; lia.
Qed.

(** A double that compares equal to another is not below it. *)
Lemma eqb_not_ltb (x y : float) :
  (x =? y)%float = true -> (x <? y)%float = false.
Proof.
  rewrite FloatAxioms.eqb_spec, FloatAxioms.ltb_spec. unfold SFeqb, SFltb.
  destruct (SFcompare (Prim2SF x) (Prim2SF y)) as [[]|]; congruence.
Qed.

(** *** The unit interval *)

Lemma binary_round_aux_unit m e l :
  0 <= m -> e <= -52 -> m + b2z (inexact l) <= 2 ^ (- e) ->
  SFleb (S754_zero false) (binary_round_aux prec emax false m e l) = true /\
  SFleb (binary_round_aux prec emax false m e l) SF_one = true.
Proof.
  intros Hm He Hb. unfold binary_round_aux.
  pose proof (shr_fexp_le_one m e l Hm He Hb) as H1.
  destruct (shr_fexp prec emax m e l) as [a e1].
  destruct H1 as (Ha & He1 & Hb1).
  pose proof (round_nearest_even_le (shr_m a) (loc_of_shr_record a)) as Hr.
  rewrite inexact_loc_of_record in Hr.
  pose proof (round_nearest_even_nonneg (shr_m a) (loc_of_shr_record a) Ha) as Hr0.
  set (m1 := round_nearest_even (shr_m a) (loc_of_shr_record a)) in *.
  pose proof (shr_fexp_le_one m1 e1 loc_Exact Hr0 He1) as H2.
  cbn [inexact b2z] in H2. specialize (H2 ltac:(lia)).
  destruct (shr_fexp prec emax m1 e1 loc_Exact) as [c e2].
  destruct H2 as (Hc & He2 & Hb2).
  assert (Hle : shr_m c <= 2 ^ (- e2)) by (destruct (lost c); cbn [b2z] in Hb2; lia).
  destruct (shr_m c) as [|q|q]; [split; reflexivity| |lia].
  replace (IntDef.Z.leb e2 (IntDef.Z.sub emax prec)) with true
    by (symmetry; apply Z.leb_le; unfold emax, prec; lia).
  split; [reflexivity|].
  unfold SFleb, SF_one, SFcompare.
  destruct (Z.compare_spec e2 (-52)) as [Heq|Hlt|Hgt]; [|reflexivity|lia].
  subst e2. change (2 ^ (- -52)) with 4503599627370496 in Hle.
  rewrite Pos.compare_cont_spec. cbn [Pos.switch_Eq].
  destruct (Pos.compare_spec q 4503599627370496) as [|Hlt|Hgt]; try reflexivity.
  exfalso. apply Pos2Z.pos_lt_pos in Hgt. lia.
Qed.

Lemma SFdiv_unit ma ea mb eb :
  ea <= eb -> Z.pos ma <= Z.pos mb * 2 ^ (eb - ea) ->
  fexp prec emax (Z.pos (digits2_pos ma) + ea - (Z.pos (digits2_pos mb) + eb)) <= -52 ->
  SFleb (S754_zero false)
    (SFdiv prec emax (S754_finite false ma ea) (S754_finite false mb eb)) = true /\
  SFleb (SFdiv prec emax (S754_finite false ma ea) (S754_finite false mb eb))
    SF_one = true.
Proof.
  intros Hea Hv Hf. unfold SFdiv, SFdiv_core_binary. cbn [Zdigits2 xorb].
  change (IntDef.Z.sub (IntDef.Z.add (Z.pos (digits2_pos ma)) ea)
            (IntDef.Z.add (Z.pos (digits2_pos mb)) eb))
    with (Z.pos (digits2_pos ma) + ea - (Z.pos (digits2_pos mb) + eb)).
  set (f := fexp prec emax _) in *.
  change (IntDef.Z.min f (IntDef.Z.sub ea eb)) with (Z.min f (ea - eb)).
  set (e' := Z.min f (ea - eb)).
  change (IntDef.Z.sub (IntDef.Z.sub ea eb) e') with (ea - eb - e').
  set (s := ea - eb - e').
  assert (Hs : 0 <= s) by (unfold s, e'; lia).
  assert (He' : e' <= -52) by (unfold e'; lia).
  set (m' := match s with Z.pos _ => IntDef.Z.shiftl (Z.pos ma) s | 0 => Z.pos ma
                        | Z.neg _ => 0 end).
  assert (Hm' : m' = Z.pos ma * 2 ^ s).
  { unfold m'. destruct s as [|p|p] eqn:E; [cbn; lia| |lia].
    change (IntDef.Z.shiftl (Z.pos ma) (Z.pos p)) with (Z.shiftl (Z.pos ma) (Z.pos p)).
    rewrite Z.shiftl_mul_pow2 by lia. reflexivity. }
  clearbody m'.
  change (IntDef.Z.div_eucl m' (Z.pos mb)) with (Z.div_eucl m' (Z.pos mb)).
  pose proof (Z_div_mod m' (Z.pos mb) ltac:(lia)) as Hdiv.
  destruct (Z.div_eucl m' (Z.pos mb)) as [q r]. destruct Hdiv as [Hq Hr].
  assert (H2s : 0 < 2 ^ s) by (apply Z.pow_pos_nonneg; lia).
  assert (H2e : 0 < 2 ^ (eb - ea)) by (apply Z.pow_pos_nonneg; lia).
  assert (Hpow : 2 ^ (- e') = 2 ^ (eb - ea) * 2 ^ s).
  { rewrite <- Z.pow_add_r by lia. f_equal. unfold s. lia. }
  assert (Hq0 : 0 <= q) by nia.
  apply binary_round_aux_unit; [exact Hq0|exact He'|].
  rewrite new_location_exact, Hpow.
  set (X := 2 ^ (eb - ea)) in *. set (Y := 2 ^ s) in *.
  destruct (Z.eqb_spec r 0); cbn [negb b2z]; nia.
Qed.

(** [(double)k / (double)RAND_MAX] lies in the unit interval, ends included. *)
Lemma unit_draw_unit k :
  0 <= k <= RAND_MAX ->
  (0 <=? int_to_double k / int_to_double RAND_MAX)%float = true /\
  (int_to_double k / int_to_double RAND_MAX <=? 1)%float = true.
Proof.
  intros [Hk0 Hk]. rewrite !leb_spec, div_spec, Prim2SF_RAND_MAX, Prim2SF_one.
  change (Prim2SF 0) with (S754_zero false).
  destruct k as [|p|p]; [split; reflexivity| |lia].
  destruct (Prim2SF_int_to_double_pos p Hk) as (m & e & -> & He & Hm & Hdm & Hdp).
  apply SFdiv_unit.
  - lia.
  - rewrite Hm. unfold RAND_MAX in Hk.
    replace (- e) with (22 + (-22 - e)) by lia.
    rewrite Z.pow_add_r by lia.
    assert (0 < 2 ^ (-22 - e)) by (apply Z.pow_pos_nonneg; lia).
    change (2 ^ 22) with 4194304. nia.
  - rewrite Hdm. change (Z.pos (digits2_pos 9007199250546688)) with 53.
    rewrite fexp_eq. lia.
Qed.

(** *** The coordinates of a grid *)

Lemma grid_inside_WIDTH : grid_inside WIDTH = true.
Proof. vm_compute. reflexivity. Qed.

Lemma grid_inside_HEIGHT : grid_inside HEIGHT = true.
Proof. vm_compute. reflexivity. Qed.

Lemma int_to_double_mul_zero k :
  0 <= k <= RAND_MAX -> (int_to_double k * 0)%float = 0%float.
Proof.
  intros [Hk0 Hk]. apply Prim2SF_inj. rewrite mul_spec.
  destruct k as [|p|p]; [reflexivity| |lia].
  destruct (Prim2SF_int_to_double_pos p Hk) as (m & e & -> & _). reflexivity.
Qed.

Lemma coordinate_inside_grid extent cells k :
  grid_inside extent = true -> coordinate_inside extent 0 0 = true ->
  0 < extent -> 0 <= k < cells -> cells <= RAND_MAX ->
  coordinate_inside extent (Z.quot extent (cells + 1)) k = true.
Proof.
  intros Hg Hz He Hk Hc.
  assert (Hq : Z.quot extent (cells + 1) = extent / (cells + 1))
    by (apply Z.quot_div_nonneg; lia).
  rewrite Hq.
  assert (Hd0 : 0 <= extent / (cells + 1)) by (apply Z.div_pos; lia).
  assert (Hd1 : extent / (cells + 1) <= extent).
  { apply Z.div_le_upper_bound; nia. }
  assert (Hm : (cells + 1) * (extent / (cells + 1)) <= extent)
    by (apply Z.mul_div_le; lia).
  set (d := extent / (cells + 1)) in *. clearbody d.
  destruct (Z.eq_dec d 0) as [->|Hd].
  - unfold coordinate_inside in *. change (int_to_double 0) with 0%float in *.
    rewrite int_to_double_mul_zero by lia.
    exact Hz.
  - unfold grid_inside in Hg. rewrite forallb_forall in Hg.
    specialize (Hg d). unfold spacing_inside in Hg. rewrite forallb_forall in Hg.
    apply Hg.
    + apply list_elem_of_In, elem_of_seqZ. lia.
    + apply list_elem_of_In, elem_of_seqZ.
      assert (cells + 1 <= Z.quot extent d).
      { rewrite Z.quot_div_nonneg by lia. apply Z.div_le_lower_bound; lia. }
      lia.
Qed.

Lemma grid_margins_WIDTH : grid_margins WIDTH = true.
Proof. vm_compute. reflexivity. Qed.

Lemma grid_margins_HEIGHT : grid_margins HEIGHT = true.
Proof. vm_compute. reflexivity. Qed.

Lemma coordinate_margins_grid extent cells k :
  grid_margins extent = true -> coordinate_margins extent 0 0 = true ->
  0 < extent -> 0 <= k < cells -> cells <= RAND_MAX ->
  coordinate_margins extent (Z.quot extent (cells + 1)) k = true.
Proof.
  intros Hg Hz He Hk Hc. apply andb_prop in Hg. destruct Hg as [Hg _].
  assert (Hq : Z.quot extent (cells + 1) = extent / (cells + 1))
    by (apply Z.quot_div_nonneg; lia).
  rewrite Hq.
  assert (Hd0 : 0 <= extent / (cells + 1)) by (apply Z.div_pos; lia).
  assert (Hd1 : extent / (cells + 1) <= extent).
  { apply Z.div_le_upper_bound; nia. }
  assert (Hm : (cells + 1) * (extent / (cells + 1)) <= extent)
    by (apply Z.mul_div_le; lia).
  set (d := extent / (cells + 1)) in *. clearbody d.
  destruct (Z.eq_dec d 0) as [->|Hd].
  - unfold coordinate_margins in *. change (int_to_double 0) with 0%float in *.
    rewrite int_to_double_mul_zero by lia.
    exact Hz.
  - rewrite forallb_forall in Hg.
    specialize (Hg d). rewrite forallb_forall in Hg.
    apply Hg.
    + apply list_elem_of_In, elem_of_seqZ. lia.
    + apply list_elem_of_In, elem_of_seqZ.
      assert (cells + 1 <= Z.quot extent d).
      { rewrite Z.quot_div_nonneg by lia. apply Z.div_le_lower_bound; lia. }
      lia.
Qed.

Lemma first_coordinate_grid extent cells :
  grid_margins extent = true -> 0 < extent -> 0 <= cells ->
  first_coordinate (Z.quot extent (cells + 1)) = true.
Proof.
  intros Hg He Hc. apply andb_prop in Hg. destruct Hg as [_ Hg].
  rewrite forallb_forall in Hg. apply Hg.
  apply list_elem_of_In, elem_of_seqZ.
  rewrite Z.quot_div_nonneg by lia.
  assert (0 <= extent / (cells + 1)) by (apply Z.div_pos; lia).
  assert (extent / (cells + 1) <= extent) by (apply Z.div_le_upper_bound; nia).
  lia.
Qed.

(** * Facts about the vector of neutrons *)

Lemma alter_as_insert (f : Neutron.t -> Neutron.t) (l : list Neutron.t) j n :
  l !! j = Some n -> alter f j l = <[j := f n]> l.
Proof.
  revert j. induction l as [|a l IH]; intros [|j] H; try discriminate H.
  - injection H as ->. reflexivity.
  - cbn. f_equal. apply IH, H.
Qed.

Lemma find_dead_slot_Some l j : find_dead_slot l = Some j -> lowest_dead j l.
Proof.
  revert j. induction l as [|a l IH]; intros j H; cbn in H; [discriminate|].
  destruct (Neutron.alive a) eqn:Ha.
  - destruct (find_dead_slot l) as [k|]; [|discriminate].
    injection H as <-. destruct (IH k eq_refl) as [[d [Hd Hdead]] Hlow].
    split; [exists d; split; assumption|].
    intros [|i] p Hi Hp; cbn in Hp.
    + injection Hp as <-. exact Ha.
    + apply (Hlow i); [lia|exact Hp].
  - injection H as <-. split; [exists a; split; [reflexivity|exact Ha]|].
    intros i p Hi. lia.
Qed.

Lemma find_dead_slot_None l : find_dead_slot l = None <-> all_alive l.
Proof.
  induction l as [|a l IH]; cbn.
  - split; [|reflexivity]. intros _ i p H. destruct i; discriminate H.
  - destruct (Neutron.alive a) eqn:Ha.
    + destruct (find_dead_slot l) as [k|]; cbn.
      * split; [discriminate|]. intros H. exfalso.
        assert (all_alive l) as Hl by (intros i p Hp; apply (H (S i)), Hp).
        apply IH in Hl. discriminate Hl.
      * split; [|reflexivity]. intros _ [|i] p Hp; cbn in Hp.
        -- injection Hp as <-. exact Ha.
        -- destruct IH as [IH _]. apply (IH eq_refl i), Hp.
    + split; [discriminate|]. intros H.
      specialize (H 0%nat a eq_refl). congruence.
Qed.

Lemma lowest_dead_unique l j k : lowest_dead j l -> lowest_dead k l -> j = k.
Proof.
  intros [[d [Hd Hdd]] Hj] [[e [He Hde]] Hk].
  destruct (lt_eq_lt_dec j k) as [[Hlt|Heq]|Hgt]; [|exact Heq|].
  - specialize (Hk j d Hlt Hd). congruence.
  - specialize (Hj k e Hgt He). congruence.
Qed.

Lemma lowest_dead_find l j : lowest_dead j l -> find_dead_slot l = Some j.
Proof.
  intros Hj. destruct (find_dead_slot l) as [k|] eqn:Hk.
  - f_equal. apply (lowest_dead_unique l); [apply find_dead_slot_Some, Hk|exact Hj].
  - apply find_dead_slot_None in Hk. destruct Hj as [[d [Hd Hdd]] _].
    specialize (Hk j d Hd). congruence.
Qed.

Lemma live_count_le_length l : (live_count l <= length l)%nat.
Proof. induction l as [|a l IH]; cbn; [lia|]. destruct (Neutron.alive a); lia. Qed.

Lemma live_count_app l1 l2 :
  live_count (l1 ++ l2) = (live_count l1 + live_count l2)%nat.
Proof. induction l1 as [|a l1 IH]; cbn; [reflexivity|]. rewrite IH. lia. Qed.

Lemma live_count_insert l j n p :
  l !! j = Some n ->
  (live_count (<[j := p]> l) + (if Neutron.alive n then 1 else 0)
   = live_count l + (if Neutron.alive p then 1 else 0))%nat.
Proof.
  revert j. induction l as [|a l IH]; intros [|j] H; try discriminate H; simpl.
  - injection H as ->. destruct (Neutron.alive n), (Neutron.alive p); lia.
  - simpl in H. specialize (IH j H). destruct (Neutron.alive a); lia.
Qed.

Lemma live_count_alter f l j :
  (forall n, Neutron.alive (f n) = Neutron.alive n) ->
  live_count (alter f j l) = live_count l.
Proof.
  intros Hf. revert j. induction l as [|a l IH]; intros [|j]; cbn; try reflexivity.
  - rewrite Hf. reflexivity.
  - rewrite IH. reflexivity.
Qed.

Lemma turns_left_app l1 l2 :
  turns_left (l1 ++ l2) = (turns_left l1 + turns_left l2)%nat.
Proof. induction l1 as [|a l1 IH]; cbn; [reflexivity|]. rewrite IH. lia. Qed.

Lemma turns_left_insert l j d p :
  l !! j = Some d -> turns_of d = turns_of p ->
  turns_left (<[j := p]> l) = turns_left l.
Proof.
  revert j. induction l as [|a l IH]; intros [|j] H Ht; try discriminate H; simpl.
  - injection H as ->. lia.
  - simpl in H. rewrite (IH j H Ht). reflexivity.
Qed.

Lemma turns_left_bound l : (turns_left l <= 3 * length l)%nat.
Proof.
  induction l as [|a l IH]; cbn; [lia|].
  unfold turns_of. destruct (collides a); lia.
Qed.

Lemma turns_left_pos l : l <> [] -> (1 <= turns_left l)%nat.
Proof.
  destruct l as [|a l]; [congruence|]. intros _. cbn.
  unfold turns_of. destruct (collides a); lia.
Qed.

(** ** Counting the neutrons that are due *)

Lemma due_count_app l1 l2 :
  due_count (l1 ++ l2) = (due_count l1 + due_count l2)%nat.
Proof. induction l1 as [|a l1 IH]; cbn; [reflexivity|]. rewrite IH. lia. Qed.

Lemma due_count_insert l j d p :
  l !! j = Some d -> collides d = collides p ->
  due_count (<[j := p]> l) = due_count l.
Proof.
  revert j. induction l as [|a l IH]; intros [|j] H Hc; try discriminate H; simpl.
  - injection H as ->. rewrite Hc. reflexivity.
  - simpl in H. rewrite (IH j H Hc). reflexivity.
Qed.

Lemma due_count_zero l :
  due_count l = 0%nat <-> (forall i p, l !! i = Some p -> collides p = false).
Proof.
  induction l as [|a l IH]; cbn.
  - split; [|reflexivity]. intros _ [|i] p H; discriminate H.
  - split.
    + intros H [|i] p Hp; cbn in Hp.
      * injection Hp as <-. destruct (collides a); [lia|reflexivity].
      * apply (proj1 IH ltac:(destruct (collides a); lia) i p Hp).
    + intros H. rewrite (H 0%nat a eq_refl). apply IH.
      intros i p Hp. apply (H (S i) p Hp).
Qed.

Lemma live_count_all_alive l : all_alive l -> live_count l = length l.
Proof.
  induction l as [|a l IH]; intros H; [reflexivity|]. cbn.
  rewrite (H 0%nat a eq_refl), IH; [reflexivity|].
  intros i p Hp. apply (H (S i) p Hp).
Qed.

Lemma find_dead_slot_spare l :
  (live_count l < length l)%nat -> is_Some (find_dead_slot l).
Proof.
  intros H. destruct (find_dead_slot l) eqn:E; [eauto|].
  apply find_dead_slot_None, live_count_all_alive in E. lia.
Qed.

Lemma live_count_replicate_zero k : live_count (replicate k Neutron.zero) = 0%nat.
Proof. induction k as [|k IH]; [reflexivity|]. cbn. exact IH. Qed.

Lemma due_count_replicate_zero k : due_count (replicate k Neutron.zero) = 0%nat.
Proof. induction k as [|k IH]; [reflexivity|]. cbn. exact IH. Qed.

(** * Facts about the stepper *)

Section Stepper.
Context {P : Platform}.
Implicit Types (w : World) (n p : Neutron.t) (l : list Neutron.t).

(** ** Sampled distances are not negative *)

Lemma randf_le_one (s : rand_state) :
  rand_in_range P -> (1 <? fst (randf s))%float = false.
Proof. intros HR. apply unit_draw_le_one, HR. Qed.

Lemma sample_distance_not_negative (s : rand_state) :
  rand_in_range P -> log_sign_law P ->
  (sample_distance (fst (randf s)) <? 0)%float = false.
Proof.
  intros HR HL. unfold sample_distance.
  apply neg_over_sig_t_not_negative, HL, randf_le_one, HR.
Qed.

Lemma sample_distance_pushed_not_negative (s : rand_state) :
  rand_in_range P -> log_sign_law P ->
  (sample_distance_pushed (fst (randf s)) <? 0)%float = false.
Proof.
  intros HR HL. unfold sample_distance_pushed.
  apply neg_over_sig_t_not_negative, HL.
  apply one_minus_unit_draw_le_one, HR.
Qed.

Lemma secondary_not_due n p :
  rand_in_range P -> log_sign_law P ->
  secondary_of n p -> Neutron.alive n = true -> collides p = false.
Proof.
  intros HR HL (_ & _ & Ha & _ & [s [Hd|Hd]]) Hn; unfold collides;
    rewrite Hd, Ha, Hn; cbn [andb].
  - apply sample_distance_not_negative; assumption.
  - apply sample_distance_pushed_not_negative; assumption.
Qed.

(** ** One secondary *)

Lemma reused_secondary_of n w : secondary_of n (reused_secondary n w).
Proof.
  repeat split; try reflexivity.
  - exists (dir_seed w). reflexivity.
  - exists (rand_st w). left. reflexivity.
Qed.

Lemma pushed_secondary_of n w : secondary_of n (pushed_secondary n w).
Proof.
  repeat split; try reflexivity.
  - exists (dir_seed w). reflexivity.
  - exists (rand_st w). right. reflexivity.
Qed.

Lemma spawn_secondary_neuts nn w n :
  neuts w !! nn = Some n ->
  neuts (spawn_secondary nn w) =
    match find_dead_slot (neuts w) with
    | Some j => <[j := reused_secondary n w]> (neuts w)
    | None => neuts w ++ [pushed_secondary n w]
    end.
Proof.
  intros H. unfold spawn_secondary. rewrite H.
  destruct (find_dead_slot (neuts w)); reflexivity.
Qed.

Lemma spawn_secondary_spec nn w n :
  neuts w !! nn = Some n -> Neutron.alive n = true ->
  neuts (spawn_secondary nn w) !! nn = Some n /\
  live_count (neuts (spawn_secondary nn w)) = S (live_count (neuts w)) /\
  (length (neuts w) <= length (neuts (spawn_secondary nn w))
     <= S (length (neuts w)))%nat /\
  (forall j p, neuts (spawn_secondary nn w) !! j = Some p ->
     neuts w !! j = Some p \/ secondary_of n p) /\
  (forall j p, neuts w !! j = Some p -> Neutron.alive p = true ->
     neuts (spawn_secondary nn w) !! j = Some p).
Proof.
  intros Hn Ha. rewrite (spawn_secondary_neuts nn w n Hn).
  destruct (find_dead_slot (neuts w)) as [k|] eqn:Hk.
  - apply find_dead_slot_Some in Hk. destruct Hk as [[d [Hd Hdd]] _].
    assert (k <> nn) as Hne by (intros ->; congruence).
    repeat split.
    + rewrite list_lookup_insert_ne by exact Hne. exact Hn.
    + pose proof (live_count_insert (neuts w) k d (reused_secondary n w) Hd) as Hc.
      rewrite Hdd in Hc. cbn in Hc. rewrite Ha in Hc. lia.
    + rewrite length_insert. lia.
    + rewrite length_insert. lia.
    + intros j p Hp. apply list_lookup_insert_Some in Hp.
      destruct Hp as [(_ & <- & _)|(_ & Hp)]; [right|left; exact Hp].
      apply reused_secondary_of.
    + intros j p Hp Hpa. rewrite list_lookup_insert_ne; [exact Hp|].
      intros ->. congruence.
  - repeat split.
    + apply lookup_app_l_Some, Hn.
    + rewrite live_count_app. cbn. rewrite Ha. lia.
    + rewrite length_app. cbn. lia.
    + rewrite length_app. cbn. lia.
    + intros j p Hp. apply lookup_app_Some in Hp.
      destruct Hp as [Hp|[_ Hp]]; [left; exact Hp|right].
      apply list_lookup_singleton_Some in Hp. destruct Hp as [_ <-].
      apply pushed_secondary_of.
    + intros j p Hp _. apply lookup_app_l_Some, Hp.
Qed.

Lemma spawn_secondaries_spec k nn w n :
  neuts w !! nn = Some n -> Neutron.alive n = true ->
  neuts (spawn_secondaries k nn w) !! nn = Some n /\
  live_count (neuts (spawn_secondaries k nn w)) = (k + live_count (neuts w))%nat /\
  (length (neuts w) <= length (neuts (spawn_secondaries k nn w))
     <= k + length (neuts w))%nat /\
  (forall j p, neuts (spawn_secondaries k nn w) !! j = Some p ->
     neuts w !! j = Some p \/ secondary_of n p) /\
  (forall j p, neuts w !! j = Some p -> Neutron.alive p = true ->
     neuts (spawn_secondaries k nn w) !! j = Some p).
Proof.
  revert w. induction k as [|k IH]; intros w Hn Ha; cbn [spawn_secondaries].
  - repeat split; auto; lia.
  - destruct (spawn_secondary_spec nn w n Hn Ha) as (H1 & H2 & H3 & H4 & H5).
    destruct (IH (spawn_secondary nn w) H1 Ha) as (I1 & I2 & I3 & I4 & I5).
    repeat split; try lia; try assumption.
    + intros j p Hp. destruct (I4 j p Hp) as [Hq|Hq]; [|right; exact Hq].
      apply H4, Hq.
    + intros j p Hp Hpa. apply I5; [|exact Hpa]. apply H5; assumption.
Qed.

(** ** The number of secondaries *)

Lemma double_to_int_nu : double_to_int nu = 2.
Proof. reflexivity. Qed.

Lemma fission_secondaries_cases x :
  fission_secondaries x = (if (x <? 0.5)%float then 2 else 1).
Proof.
  unfold fission_secondaries. rewrite double_to_int_nu.
  change (nu - int_to_double 2)%float with 0.5%float.
  destruct (x <? 0.5)%float; reflexivity.
Qed.

(** ** The branch on [xi] *)

Lemma resolve_collision_capture nn w :
  (next_randf w <? sig_c / sig_t)%float = true ->
  resolve_collision nn w =
    set_neuts (alter (Neutron.with_alive false) nn (neuts w)) (after_randf w).
Proof. intros H. unfold resolve_collision. rewrite H. reflexivity. Qed.

Lemma resolve_collision_fission nn w :
  (next_randf w <? sig_c / sig_t)%float = false ->
  (next_randf w <? (sig_c + sig_f) / sig_t)%float = true ->
  resolve_collision nn w =
    spawn_secondaries
      (Z.to_nat (fission_secondaries (next_randf (after_randf w)))) nn
      (after_randf (after_randf w)).
Proof. intros H1 H2. unfold resolve_collision. rewrite H1, H2. reflexivity. Qed.

Lemma resolve_collision_scatter nn w :
  (next_randf w <? sig_c / sig_t)%float = false ->
  (next_randf w <? (sig_c + sig_f) / sig_t)%float = false ->
  resolve_collision nn w = after_randf w.
Proof. intros H1 H2. unfold resolve_collision. rewrite H1, H2. reflexivity. Qed.

(** Whatever the branch, the colliding neutron keeps its slot, its
    position and its tag; the neutrons that were alive are not touched;
    and a slot that changed holds a secondary of the colliding neutron. *)
Lemma resolve_collision_spec nn w n :
  neuts w !! nn = Some n -> Neutron.alive n = true ->
  (exists a, neuts (resolve_collision nn w) !! nn
             = Some (Neutron.with_alive a n)) /\
  (length (neuts w) <= length (neuts (resolve_collision nn w))
     <= 2 + length (neuts w))%nat /\
  (forall j p, j <> nn -> neuts (resolve_collision nn w) !! j = Some p ->
     neuts w !! j = Some p \/ secondary_of n p) /\
  (forall j p, j <> nn -> neuts w !! j = Some p -> Neutron.alive p = true ->
     neuts (resolve_collision nn w) !! j = Some p).
Proof.
  intros Hn Ha. unfold resolve_collision.
  destruct (next_randf w <? sig_c / sig_t)%float.
  - cbn [neuts set_neuts after_randf]. repeat split.
    + exists false. rewrite list_lookup_alter_eq, Hn. reflexivity.
    + rewrite length_alter. lia.
    + rewrite length_alter. lia.
    + intros j p Hj Hp. left. rewrite list_lookup_alter_ne in Hp by congruence.
      exact Hp.
    + intros j p Hj Hp _. rewrite list_lookup_alter_ne by congruence. exact Hp.
  - destruct (next_randf w <? (sig_c + sig_f) / sig_t)%float.
    + set (k := Z.to_nat _).
      assert (k <= 2)%nat as Hk.
      { unfold k. rewrite fission_secondaries_cases.
        destruct (_ <? 0.5)%float; cbn; lia. }
      destruct (spawn_secondaries_spec k nn (after_randf (after_randf w)) n Hn Ha)
        as (H1 & _ & H3 & H4 & H5).
      cbn [neuts after_randf] in *. repeat split; try lia.
      * exists true. rewrite H1. destruct n; cbn in Ha; subst; reflexivity.
      * intros j p _ Hp. apply H4, Hp.
      * intros j p _ Hp Hpa. apply H5; assumption.
    + cbn [neuts after_randf]. repeat split; try lia; auto.
      exists true. rewrite Hn. destruct n; cbn in Ha; subst; reflexivity.
Qed.

(** ** The resampling after the branch, and the motion *)

Lemma resample_self_neuts nn w :
  neuts (resample_self nn w) = alter (resampled w) nn (neuts w).
Proof. reflexivity. Qed.

Lemma collide_neuts nn w :
  neuts (collide nn w) =
    alter (resampled (resolve_collision nn w)) nn
      (neuts (resolve_collision nn w)).
Proof. reflexivity. Qed.

Lemma advance_neuts dt nn w :
  neuts (advance dt nn w) = alter (move_one dt) nn (neuts w).
Proof. reflexivity. Qed.

Lemma step_neutron_dead dt nn w n :
  neuts w !! nn = Some n -> Neutron.alive n = false ->
  step_neutron dt nn w = w.
Proof. intros Hn Ha. unfold step_neutron. rewrite Hn, Ha. reflexivity. Qed.

Lemma step_neutron_collides dt nn w n :
  neuts w !! nn = Some n -> Neutron.alive n = true ->
  (Neutron.distance_to_collision n <? 0)%float = true ->
  step_neutron dt nn w = advance dt nn (collide nn w).
Proof.
  intros Hn Ha Hd. unfold step_neutron. rewrite Hn, Ha, Hd. reflexivity.
Qed.

Lemma step_neutron_moves dt nn w n :
  neuts w !! nn = Some n -> Neutron.alive n = true ->
  (Neutron.distance_to_collision n <? 0)%float = false ->
  step_neutron dt nn w = advance dt nn w.
Proof.
  intros Hn Ha Hd. unfold step_neutron. rewrite Hn, Ha, Hd. reflexivity.
Qed.


(** One turn of the loop never shortens the vector, and lengthens it by
    two at most. *)
Lemma step_neutron_length dt nn w :
  (length (neuts w) <= length (neuts (step_neutron dt nn w))
     <= 2 + length (neuts w))%nat.
Proof.
  unfold step_neutron. destruct (neuts w !! nn) as [n|] eqn:Hn; [|lia].
  destruct (Neutron.alive n) eqn:Ha; cbn [negb]; [|lia].
  destruct (_ <? 0)%float.
  - rewrite advance_neuts, length_alter, collide_neuts, length_alter.
    apply (resolve_collision_spec nn w n Hn Ha).
  - rewrite advance_neuts, length_alter. lia.
Qed.


(** One turn of the loop at [nn] does not touch the other live neutrons. *)
Lemma step_neutron_keeps_alive dt nn w j p :
  j <> nn -> neuts w !! j = Some p -> Neutron.alive p = true ->
  neuts (step_neutron dt nn w) !! j = Some p.
Proof.
  intros Hj Hp Hpa. unfold step_neutron.
  destruct (neuts w !! nn) as [n|] eqn:Hn; [|exact Hp].
  destruct (Neutron.alive n) eqn:Ha; cbn [negb]; [|exact Hp].
  destruct (_ <? 0)%float.
  - rewrite advance_neuts, list_lookup_alter_ne by congruence.
    rewrite collide_neuts, list_lookup_alter_ne by congruence.
    destruct (resolve_collision_spec nn w n Hn Ha) as (_ & _ & _ & H4).
    apply H4; assumption.
  - rewrite advance_neuts, list_lookup_alter_ne by congruence. exact Hp.
Qed.

(** * The properties of the collision step *)

(** What the code does for a fission while the reference [n] is valid
    (see [step_stored_agrees]; [fission_at_full_vector_copies_freed_parent]
    has the other case).  The number of secondaries
    is [floor(nu)], plus one when the second draw is below
    [nu - floor(nu)], minus one for the parent: one or two.  That many
    neutrons come alive; a slot other than the parent's that changed holds
    a copy of the parent's position and tag with a direction and a distance
    sampled for it; and the parent stays alive in its slot, with its
    position and tag, and a resampled distance and direction. *)
Theorem fission_emits_secondaries nn w n :
  neuts w !! nn = Some n -> Neutron.alive n = true ->
  (next_randf w <? sig_c / sig_t)%float = false ->
  (next_randf w <? (sig_c + sig_f) / sig_t)%float = true ->
  let x := next_randf (after_randf w) in
  let k := fission_secondaries x in
  k = double_to_int nu
      + (if (x <? nu - int_to_double (double_to_int nu))%float then 1 else 0)
      - 1 /\
  (k = 1 \/ k = 2) /\
  live_count (neuts (collide nn w)) = (Z.to_nat k + live_count (neuts w))%nat /\
  (forall j p, j <> nn -> neuts (collide nn w) !! j = Some p ->
     neuts w !! j = Some p \/ secondary_of n p) /\
  (exists p, neuts (collide nn w) !! nn = Some p /\
     Neutron.alive p = true /\
     Neutron.r p = Neutron.r n /\ Neutron.c p = Neutron.c n /\
     p = resampled (resolve_collision nn w) n).
Proof.
  intros Hn Ha H1 H2 x k.
  assert (Hk : k = 1 \/ k = 2).
  { unfold k. rewrite fission_secondaries_cases.
    destruct (x <? 0.5)%float; auto. }
  split.
  { unfold k, fission_secondaries.
    destruct (x <? nu - int_to_double (double_to_int nu))%float; lia. }
  split; [exact Hk|].
  rewrite collide_neuts.
  set (w1 := resolve_collision nn w).
  assert (Hw1 : w1 = spawn_secondaries (Z.to_nat k) nn (after_randf (after_randf w)))
    by (apply resolve_collision_fission; assumption).
  destruct (spawn_secondaries_spec (Z.to_nat k) nn (after_randf (after_randf w)) n
              Hn Ha) as (S1 & S2 & _ & S4 & _).
  rewrite <- Hw1 in S1, S2, S4. cbn [neuts after_randf] in S2, S4.
  split; [|split].
  - rewrite live_count_alter by reflexivity. exact S2.
  - intros j p Hj Hp. rewrite list_lookup_alter_ne in Hp by congruence.
    apply S4, Hp.
  - exists (resampled w1 n). rewrite list_lookup_alter_eq, S1.
    repeat split. exact Ha.
Qed.

(** [C2] When a collision resolves as capture, the neutron is marked dead,
    the vector keeps its length (no neutron replaces it), no other slot
    changes, and there is exactly one live neutron fewer. *)
Theorem capture_removes_one dt nn w n :
  neuts w !! nn = Some n -> Neutron.alive n = true ->
  (Neutron.distance_to_collision n <? 0)%float = true ->
  (next_randf w <? sig_c / sig_t)%float = true ->
  (exists p, neuts (step_neutron dt nn w) !! nn = Some p /\
     Neutron.alive p = false) /\
  length (neuts (step_neutron dt nn w)) = length (neuts w) /\
  (forall j, j <> nn -> neuts (step_neutron dt nn w) !! j = neuts w !! j) /\
  live_count (neuts w) = S (live_count (neuts (step_neutron dt nn w))).
Proof.
  intros Hn Ha Hd Hc.
  rewrite (step_neutron_collides dt nn w n Hn Ha Hd).
  rewrite advance_neuts, collide_neuts, (resolve_collision_capture nn w Hc).
  cbn [neuts set_neuts]. repeat split.
  - eexists. rewrite !list_lookup_alter_eq, Hn. cbn. split; reflexivity.
  - rewrite !length_alter. reflexivity.
  - intros j Hj. rewrite !list_lookup_alter_ne by congruence. reflexivity.
  - rewrite !live_count_alter by reflexivity.
    rewrite (alter_as_insert _ _ _ _ Hn).
    pose proof (live_count_insert (neuts w) nn n (Neutron.with_alive false n) Hn) as H.
    rewrite Ha in H. cbn in H. lia.
Qed.

(** [C3] For a live neutron the loop body runs the collision resolution
    when its [distance_to_collision] is below [0] and only moves it
    otherwise; at a distance equal to [0] it only moves it, draws nothing
    from either generator and leaves every other neutron as it is. *)
Theorem collision_iff_distance_negative dt nn w n :
  neuts w !! nn = Some n -> Neutron.alive n = true ->
  ((Neutron.distance_to_collision n <? 0)%float = true ->
     step_neutron dt nn w = advance dt nn (collide nn w)) /\
  ((Neutron.distance_to_collision n <? 0)%float = false ->
     step_neutron dt nn w = advance dt nn w) /\
  ((Neutron.distance_to_collision n =? 0)%float = true ->
     step_neutron dt nn w = advance dt nn w /\
     neuts (step_neutron dt nn w) = <[nn := move_one dt n]> (neuts w) /\
     rand_st (step_neutron dt nn w) = rand_st w /\
     dir_seed (step_neutron dt nn w) = dir_seed w).
Proof.
  intros Hn Ha. split; [|split].
  - apply step_neutron_collides; assumption.
  - apply step_neutron_moves; assumption.
  - intros H0. apply eqb_not_ltb in H0.
    rewrite (step_neutron_moves dt nn w n Hn Ha H0).
    repeat split. rewrite advance_neuts. apply alter_as_insert, Hn.
Qed.

(** [C6] A secondary goes to the lowest index that holds a dead neutron:
    that slot becomes the copy of the parent with the sampled direction
    and distance, and the vector keeps its length.  When no neutron is
    dead, and only then, the copy is pushed back at the end. *)
Theorem secondary_takes_lowest_dead_slot nn w n :
  neuts w !! nn = Some n ->
  (forall j, lowest_dead j (neuts w) ->
     neuts (spawn_secondary nn w) = <[j := reused_secondary n w]> (neuts w)) /\
  (all_alive (neuts w) ->
     neuts (spawn_secondary nn w) = neuts w ++ [pushed_secondary n w]) /\
  (length (neuts (spawn_secondary nn w)) = S (length (neuts w))
     <-> all_alive (neuts w)) /\
  ((exists j, lowest_dead j (neuts w)) \/ all_alive (neuts w)) /\
  secondary_of n (reused_secondary n w) /\
  secondary_of n (pushed_secondary n w).
Proof.
  intros Hn. rewrite (spawn_secondary_neuts nn w n Hn).
  split; [|split; [|split; [|split; [|split]]]].
  - intros j Hj. rewrite (lowest_dead_find _ _ Hj). reflexivity.
  - intros Hall. apply find_dead_slot_None in Hall. rewrite Hall. reflexivity.
  - destruct (find_dead_slot (neuts w)) as [j|] eqn:Hf.
    + rewrite length_insert. split; [lia|].
      intros Hall. apply find_dead_slot_None in Hall. congruence.
    + rewrite length_app. cbn. split; [|lia].
      intros _. apply find_dead_slot_None, Hf.
  - destruct (find_dead_slot (neuts w)) as [j|] eqn:Hf.
    + left. exists j. apply find_dead_slot_Some, Hf.
    + right. apply find_dead_slot_None, Hf.
  - apply reused_secondary_of.
  - apply pushed_secondary_of.
Qed.

(** What the code does after the branch while the reference [n] is valid
    (see [step_stored_agrees]; [fission_at_full_vector_skips_resample] has
    the other case).  Whenever the collision resolution runs for a live
    neutron, whatever the outcome, its [distance_to_collision] becomes
    [-log(x) / sig_t] for the next [randf()] value [x] and its direction
    the next isotropic sample; on a platform whose [rand] and [log] behave
    as the C library's, that distance is not below zero. *)
Theorem collision_resamples_own_flight nn w n :
  rand_in_range P -> log_sign_law P ->
  neuts w !! nn = Some n -> Neutron.alive n = true ->
  let w1 := resolve_collision nn w in
  exists p, neuts (collide nn w) !! nn = Some p /\
    Neutron.distance_to_collision p = (- flog (next_randf w1) / sig_t)%float /\
    Neutron.u p = next_direction (after_randf w1) /\
    (Neutron.distance_to_collision p <? 0)%float = false.
Proof.
  intros HR HL Hn Ha w1.
  destruct (resolve_collision_spec nn w n Hn Ha) as ([a H1] & _).
  exists (resampled w1 (Neutron.with_alive a n)).
  rewrite collide_neuts. fold w1. rewrite list_lookup_alter_eq.
  fold w1 in H1. rewrite H1.
  repeat split. apply (sample_distance_not_negative (rand_st w1) HR HL).
Qed.

(** [C10] A neutron that is captured is still processed to the end of the
    loop body of that tick: it gets the next [randf()] distance and the
    next sampled direction, and its position advances by that direction
    times [vel * dt].  From then on the loop body skips it. *)
Theorem captured_neutron_still_moves dt nn w n :
  neuts w !! nn = Some n -> Neutron.alive n = true ->
  (Neutron.distance_to_collision n <? 0)%float = true ->
  (next_randf w <? sig_c / sig_t)%float = true ->
  let x := next_randf (after_randf w) in
  let d := next_direction w in
  neuts (step_neutron dt nn w) !! nn =
    Some {| Neutron.r :=
              Position.add (Neutron.r n) (Position.scale d (vel * dt)%float);
            Neutron.u := d;
            Neutron.distance_to_collision :=
              (sample_distance x - vel * dt)%float;
            Neutron.alive := false;
            Neutron.c := Neutron.c n |} /\
  (forall dt', step_neutron dt' nn (step_neutron dt nn w) = step_neutron dt nn w).
Proof.
  intros Hn Ha Hd Hc x d.
  assert (Hl : neuts (step_neutron dt nn w) !! nn =
    Some {| Neutron.r :=
              Position.add (Neutron.r n) (Position.scale d (vel * dt)%float);
            Neutron.u := d;
            Neutron.distance_to_collision :=
              (sample_distance x - vel * dt)%float;
            Neutron.alive := false;
            Neutron.c := Neutron.c n |}).
  { rewrite (step_neutron_collides dt nn w n Hn Ha Hd).
    rewrite advance_neuts, collide_neuts, (resolve_collision_capture nn w Hc).
    cbn [neuts set_neuts]. rewrite !list_lookup_alter_eq, Hn. reflexivity. }
  split; [exact Hl|].
  intros dt'. eapply step_neutron_dead; [exact Hl|reflexivity].
Qed.

End Stepper.

(** * [initialize_neutrons] *)

Section Initialize.
Context {P : Platform}.
Implicit Types (w : World) (n p : Neutron.t) (l : list Neutron.t).

Lemma resize_length k l : length (resize k l) = k.
Proof.
  unfold resize. rewrite length_app, length_take, length_replicate. lia.
Qed.

Lemma resize_double l :
  resize (length l * 2) l = l ++ replicate (length l) Neutron.zero.
Proof.
  unfold resize. rewrite take_ge by lia. f_equal. f_equal. lia.
Qed.

(** The neutrons added by the second [resize] are dead already, so the loop
    that marks them dead changes nothing. *)
Lemma mark_dead_prefix oldsize k l :
  (forall i, (i < k)%nat -> l !! (oldsize + i)%nat = Some Neutron.zero) ->
  foldl (fun l i => alter (Neutron.with_alive false) (oldsize + i)%nat l)
        l (seq 0 k) = l.
Proof.
  induction k as [|k IH]; intros H; [reflexivity|].
  rewrite seq_S, foldl_app, IH by (intros i Hi; apply H; lia).
  cbn [foldl]. rewrite (alter_as_insert _ _ _ Neutron.zero) by (apply H; lia).
  apply list_insert_id, H. lia.
Qed.

Lemma mark_dead_placeholders l :
  mark_dead (length l) (l ++ replicate (length l) Neutron.zero)
  = l ++ replicate (length l) Neutron.zero.
Proof.
  apply mark_dead_prefix. intros i Hi.
  rewrite lookup_app_r by lia.
  apply lookup_replicate_2. lia.
Qed.

Lemma init_cell_neuts ncols dr dc row col w :
  neuts (init_cell ncols dr dc row col w) =
    <[(row * ncols + col)%nat :=
        {| Neutron.r := grid_position dr dc row col;
           Neutron.u := next_direction w;
           Neutron.distance_to_collision := 0%float;
           Neutron.alive := true;
           Neutron.c := fst (random_color (rand_st w)) |}]> (neuts w).
Proof. reflexivity. Qed.

(** The first [k] turns of the inner loop, on the row [row]. *)
Lemma init_cols_spec ncols dr dc row k w :
  let w' := foldl (fun w col => init_cell ncols dr dc row col w) w (seq 0 k) in
  length (neuts w') = length (neuts w) /\
  (forall col, (col < k)%nat -> (row * ncols + col < length (neuts w))%nat ->
     exists p, neuts w' !! (row * ncols + col)%nat = Some p /\
               laid_out dr dc row col p) /\
  (forall j, (j < row * ncols \/ row * ncols + k <= j)%nat ->
     neuts w' !! j = neuts w !! j).
Proof.
  induction k as [|k IH]; cbn zeta.
  - split; [reflexivity|]. split; [intros col Hc; lia|reflexivity].
  - rewrite seq_S, foldl_app. cbn [foldl]. cbn zeta in IH.
    set (wk := foldl _ w (seq 0 k)) in *. destruct IH as (IH1 & IH2 & IH3).
    rewrite init_cell_neuts, Nat.add_0_l. repeat split.
    + rewrite length_insert. exact IH1.
    + intros col Hc Hlen. destruct (decide (col = k)) as [->|Hne].
      * eexists. split; [apply list_lookup_insert_eq; lia|].
        repeat split.
      * rewrite list_lookup_insert_ne by lia. apply IH2; [lia|exact Hlen].
    + intros j Hj. rewrite list_lookup_insert_ne by lia. apply IH3. lia.
Qed.

Lemma init_row_spec ncols dr dc row w :
  length (neuts (init_row ncols dr dc row w)) = length (neuts w) /\
  (forall col, (col < ncols)%nat -> (row * ncols + col < length (neuts w))%nat ->
     exists p, neuts (init_row ncols dr dc row w) !! (row * ncols + col)%nat
               = Some p /\ laid_out dr dc row col p) /\
  (forall j, (j < row * ncols \/ S row * ncols <= j)%nat ->
     neuts (init_row ncols dr dc row w) !! j = neuts w !! j).
Proof.
  destruct (init_cols_spec ncols dr dc row ncols w) as (H1 & H2 & H3).
  repeat split; [exact H1|exact H2|].
  intros j Hj. apply H3. cbn in Hj. lia.
Qed.

(** The first [k] turns of the outer loop. *)
Lemma init_rows_spec ncols dr dc k w :
  let w' := foldl (fun w row => init_row ncols dr dc row w) w (seq 0 k) in
  length (neuts w') = length (neuts w) /\
  (forall row col, (row < k)%nat -> (col < ncols)%nat ->
     (row * ncols + col < length (neuts w))%nat ->
     exists p, neuts w' !! (row * ncols + col)%nat = Some p /\
               laid_out dr dc row col p) /\
  (forall j, (k * ncols <= j)%nat -> neuts w' !! j = neuts w !! j).
Proof.
  induction k as [|k IH]; cbn zeta.
  - split; [reflexivity|]. split; [intros row col Hr; lia|reflexivity].
  - rewrite seq_S, foldl_app. cbn [foldl]. cbn zeta in IH.
    set (wk := foldl _ w (seq 0 k)) in *. destruct IH as (IH1 & IH2 & IH3).
    rewrite Nat.add_0_l.
    destruct (init_row_spec ncols dr dc k wk) as (R1 & R2 & R3).
    repeat split.
    + rewrite R1. exact IH1.
    + intros row col Hr Hc Hlen. destruct (decide (row = k)) as [->|Hne].
      * apply R2; [exact Hc|]. rewrite IH1. exact Hlen.
      * rewrite R3 by nia. apply IH2; [lia|exact Hc|exact Hlen].
    + intros j Hj. rewrite R3 by (cbn in Hj; lia). apply IH3. cbn in Hj. lia.
Qed.

Lemma init_grid_spec nrows ncols dr dc w :
  length (neuts (init_grid nrows ncols dr dc w)) = length (neuts w) /\
  (forall row col, (row < nrows)%nat -> (col < ncols)%nat ->
     (row * ncols + col < length (neuts w))%nat ->
     exists p, neuts (init_grid nrows ncols dr dc w) !! (row * ncols + col)%nat
               = Some p /\ laid_out dr dc row col p).
Proof.
  destruct (init_rows_spec ncols dr dc nrows w) as (H1 & H2 & _).
  split; [exact H1|exact H2].
Qed.

Lemma grid_rows_nonneg size : 0 <= grid_rows size.
Proof. apply double_to_int_sqrt_nonneg. Qed.

Lemma spacing_Some extent cells :
  0 <= cells ->
  spacing extent cells = Some (int_to_double (Z.quot extent (cells + 1))).
Proof.
  intros H. unfold spacing.
  destruct (Z.eqb_spec (cells + 1) 0); [lia|reflexivity].
Qed.

(** For a vector of fewer than [2^32] neutrons the number of rows is the
    integer square root of half the size. *)
Lemma grid_rows_isqrt size :
  Z.of_nat size < 4294967296 -> grid_rows size = Z.sqrt (Z.of_nat size / 2).
Proof.
  intros H. unfold grid_rows. apply double_sqrt_isqrt.
  split; [apply Z.div_pos; lia|]. unfold RAND_MAX.
  assert (Z.of_nat size / 2 < 2147483648)
    by (apply Z.div_lt_upper_bound; lia).
  lia.
Qed.

Lemma int_checked_Some k :
  INT_MIN <= k <= INT_MAX -> int_checked k = Some k.
Proof.
  intros [H1 H2]. unfold int_checked.
  destruct (Z.leb_spec INT_MIN k); [|lia].
  destruct (Z.leb_spec k INT_MAX); [reflexivity|lia].
Qed.

Lemma int_checked_None k : INT_MAX < k -> int_checked k = None.
Proof.
  intros H. unfold int_checked.
  destruct (Z.leb_spec k INT_MAX); [lia|]. rewrite andb_false_r. reflexivity.
Qed.

(** The vector [initialize_neutrons] returns when twice the number of
    cells is an [int], and only then: the grid, then as many
    value-initialised neutrons. *)
Lemma initialize_neutrons_eq w :
  let nrows := grid_rows (length (neuts w)) in
  let ncols := grid_cols (length (neuts w)) in
  let dr := int_to_double (Z.quot HEIGHT (nrows + 1)) in
  let dc := int_to_double (Z.quot WIDTH (ncols + 1)) in
  let w2 := init_grid (Z.to_nat nrows) (Z.to_nat ncols) dr dc
              (set_neuts (resize (Z.to_nat (nrows * ncols)) (neuts w)) w) in
  initialize_neutrons w =
    if 2 * (nrows * ncols) <=? INT_MAX
    then Some (set_neuts (neuts w2 ++ replicate (length (neuts w2)) Neutron.zero)
                 w2)
    else None.
Proof.
  intros nrows ncols dr dc w2. unfold initialize_neutrons.
  pose proof (grid_rows_nonneg (length (neuts w))) as Hr.
  fold nrows in Hr |- *.
  assert (Hc : ncols = 2 * nrows) by reflexivity.
  assert (Hlen : length (neuts w2) = Z.to_nat (nrows * ncols)).
  { unfold w2.
    destruct (init_grid_spec (Z.to_nat nrows) (Z.to_nat ncols) dr dc
                (set_neuts (resize (Z.to_nat (nrows * ncols)) (neuts w)) w))
      as [-> _].
    apply resize_length. }
  unfold INT_MAX in *.
  destruct (Z.leb_spec (2 * (nrows * ncols)) 2147483647) as [Hfit|Hover].
  - rewrite (int_checked_Some nrows) by (unfold INT_MIN, INT_MAX; nia).
    cbn [mbind option_bind].
    rewrite (int_checked_Some (2 * nrows)) by (unfold INT_MIN, INT_MAX; nia).
    cbn [mbind option_bind]. rewrite <- Hc.
    rewrite (int_checked_Some (nrows * ncols)) by (unfold INT_MIN, INT_MAX; nia).
    cbn [mbind option_bind].
    rewrite (spacing_Some HEIGHT nrows Hr), (spacing_Some WIDTH ncols) by lia.
    cbn [mbind option_bind]. fold dr dc w2.
    rewrite (int_checked_Some (Z.of_nat (length (neuts w2)) * 2))
      by (rewrite Hlen; unfold INT_MIN, INT_MAX; nia).
    cbn [mbind option_bind].
    replace (Z.to_nat (Z.of_nat (length (neuts w2)) * 2))
      with (length (neuts w2) * 2)%nat by lia.
    rewrite resize_double, mark_dead_placeholders. reflexivity.
  - destruct (int_checked nrows) as [r|] eqn:E1; [|reflexivity].
    assert (r = nrows) as ->.
    { unfold int_checked in E1. destruct (_ && _); congruence. }
    cbn [mbind option_bind].
    destruct (int_checked (2 * nrows)) as [c|] eqn:E2; [|reflexivity].
    assert (c = ncols) as ->.
    { unfold int_checked in E2. destruct (_ && _); congruence. }
    cbn [mbind option_bind].
    destruct (int_checked (nrows * ncols)) as [k|] eqn:E3; [|reflexivity].
    assert (k = nrows * ncols) as ->.
    { unfold int_checked in E3. destruct (_ && _); congruence. }
    cbn [mbind option_bind].
    rewrite (spacing_Some HEIGHT nrows Hr), (spacing_Some WIDTH ncols) by lia.
    cbn [mbind option_bind]. fold dr dc w2.
    rewrite (int_checked_None (Z.of_nat (length (neuts w2)) * 2))
      by (rewrite Hlen; unfold INT_MAX; nia).
    reflexivity.
Qed.

(** Twice the number of cells is an [int] for every vector of fewer than
    [1073790482] neutrons; from there on, and below [2^32], it is not. *)
Lemma grid_fits_int size :
  Z.of_nat size < 1073790482 ->
  2 * (grid_rows size * grid_cols size) <= INT_MAX.
Proof.
  intros Hs. unfold grid_cols.
  rewrite (grid_rows_isqrt size) by lia.
  assert (H2 : 0 <= Z.of_nat size / 2) by (apply Z.div_pos; lia).
  assert (Hh : Z.of_nat size / 2 < 536895241)
    by (apply Z.div_lt_upper_bound; lia).
  pose proof (Z.sqrt_spec (Z.of_nat size / 2) H2) as Hsq. cbn zeta in Hsq.
  pose proof (Z.sqrt_nonneg (Z.of_nat size / 2)) as Hr0.
  set (r := Z.sqrt (Z.of_nat size / 2)) in *. set (h := Z.of_nat size / 2) in *.
  clearbody r h. clear - Hsq Hh Hr0. unfold INT_MAX.
  assert (r < 23171) by nia. nia.
Qed.

Lemma grid_overflows_int size :
  1073790482 <= Z.of_nat size < 4294967296 ->
  INT_MAX < 2 * (grid_rows size * grid_cols size).
Proof.
  intros Hs. unfold grid_cols.
  rewrite (grid_rows_isqrt size) by lia.
  assert (H2 : 0 <= Z.of_nat size / 2) by (apply Z.div_pos; lia).
  assert (Hh : 536895241 <= Z.of_nat size / 2)
    by (apply Z.div_le_lower_bound; lia).
  pose proof (Z.sqrt_spec (Z.of_nat size / 2) H2) as Hsq. cbn zeta in Hsq.
  pose proof (Z.sqrt_nonneg (Z.of_nat size / 2)) as Hr0.
  set (r := Z.sqrt (Z.of_nat size / 2)) in *. set (h := Z.of_nat size / 2) in *.
  clearbody r h. clear - Hsq Hh Hr0. unfold INT_MAX.
  assert (23171 <= r) by nia. nia.
Qed.

(** [C4], as the program has it: for a vector of fewer than [1073790482]
    neutrons (from there on the [int] product [oldsize * 2] overflows),
    [initialize_neutrons] lays out [rows], the integer square root of half
    the size, rows of [cols = 2 * rows] neutrons each and returns
    [2 * rows * cols] slots: the first [rows * cols] are alive, with a
    distance of [0] and positions spaced by [dc] and [dr], and the
    [rows * cols] slots after them are dead.  The margins are half the
    spacing at the left and at the top, where the first column and the
    first row lie, and at least one and a half spacings at the right and
    at the bottom. *)
Theorem initialize_lays_out_grid w :
  let size := length (neuts w) in
  let rows := grid_rows size in
  let cols := grid_cols size in
  let dr := int_to_double (Z.quot HEIGHT (rows + 1)) in
  let dc := int_to_double (Z.quot WIDTH (cols + 1)) in
  Z.of_nat size < 1073790482 ->
  0 <= rows /\ cols = 2 * rows /\ rows = Z.sqrt (Z.of_nat size / 2) /\
  exists w', initialize_neutrons w = Some w' /\
    Z.of_nat (length (neuts w')) = 2 * (rows * cols) /\
    (forall i, Z.of_nat i < rows * cols ->
       exists p, neuts w' !! i = Some p /\
         Neutron.alive p = true /\
         Neutron.distance_to_collision p = 0%float /\
         Neutron.r p =
           {| Position.x :=
                dc / 2.0 + int_to_double (Z.of_nat i mod cols) * dc;
              Position.y :=
                dr / 2.0 + int_to_double (Z.of_nat i / cols) * dr;
              Position.z := 0 |}%float /\
         (dc / 2.0 <=? Position.x (Neutron.r p))%float = true /\
         (dc + dc / 2.0
          <=? int_to_double WIDTH - Position.x (Neutron.r p))%float = true /\
         (dr / 2.0 <=? Position.y (Neutron.r p))%float = true /\
         (dr + dr / 2.0
          <=? int_to_double HEIGHT - Position.y (Neutron.r p))%float = true /\
         (Z.of_nat i mod cols = 0 ->
          (Position.x (Neutron.r p) =? dc / 2.0)%float = true) /\
         (Z.of_nat i / cols = 0 ->
          (Position.y (Neutron.r p) =? dr / 2.0)%float = true)) /\
    (forall i, rows * cols <= Z.of_nat i < 2 * (rows * cols) ->
       exists p, neuts w' !! i = Some p /\ Neutron.alive p = false).
Proof.
  intros size rows cols dr dc Hsize.
  pose proof (grid_rows_nonneg size) as Hr. fold rows in Hr.
  assert (Hc : cols = 2 * rows) by reflexivity.
  assert (Hsq : rows = Z.sqrt (Z.of_nat size / 2))
    by (apply grid_rows_isqrt; lia).
  split; [exact Hr|]. split; [exact Hc|]. split; [exact Hsq|].
  pose proof (grid_fits_int size Hsize) as Hfit. fold rows cols in Hfit.
  assert (Hrows : rows < 65536).
  { rewrite Hsq. apply Z.sqrt_lt_square; [apply Z.div_pos; lia|lia|].
    apply Z.div_lt_upper_bound; lia. }
  pose proof (initialize_neutrons_eq w) as Hinit. cbn zeta in Hinit.
  fold size rows cols dr dc in Hinit.
  destruct (Z.leb_spec (2 * (rows * cols)) INT_MAX) as [_|Hbad]; [|lia].
  set (w1 := set_neuts (resize (Z.to_nat (rows * cols)) (neuts w)) w) in *.
  set (w2 := init_grid (Z.to_nat rows) (Z.to_nat cols) dr dc w1) in *.
  destruct (init_grid_spec (Z.to_nat rows) (Z.to_nat cols) dr dc w1)
    as [Hlen Hcells].
  fold w2 in Hlen, Hcells.
  assert (Hl1 : length (neuts w1) = Z.to_nat (rows * cols))
    by apply resize_length.
  rewrite Hl1 in Hlen, Hcells.
  eexists. split; [exact Hinit|]. cbn [neuts set_neuts].
  split; [|split].
  - rewrite length_app, length_replicate, Hlen. lia.
  - intros i Hi.
    assert (HC : (Z.to_nat cols <> 0)%nat) by nia.
    set (C := Z.to_nat cols) in *.
    pose proof (Nat.div_mod i C HC) as Hdm.
    pose proof (Nat.mod_upper_bound i C HC) as Hmod.
    assert (Hdiv : (i / C < Z.to_nat rows)%nat).
    { apply Nat.Div0.div_lt_upper_bound. unfold C. nia. }
    destruct (Hcells (i / C)%nat (i mod C)%nat Hdiv Hmod) as (p & Hp & Hpa & Hpd & Hpr).
    { unfold C in *. nia. }
    replace (i / C * C + i mod C)%nat with i in Hp by lia.
    exists p. split; [apply lookup_app_l_Some, Hp|].
    split; [exact Hpa|]. split; [exact Hpd|].
    rewrite Hpr. unfold grid_position.
    rewrite Nat2Z.inj_mod, Nat2Z.inj_div. unfold C. rewrite Z2Nat.id by lia.
    split; [reflexivity|]. cbn [Position.x Position.y].
    assert (Hcol : 0 <= Z.of_nat i mod cols < cols)
      by (apply Z.mod_pos_bound; lia).
    assert (Hrow : 0 <= Z.of_nat i / cols < rows).
    { split; [apply Z.div_pos; lia|]. apply Z.div_lt_upper_bound; nia. }
    pose proof (coordinate_margins_grid WIDTH cols (Z.of_nat i mod cols)
                  grid_margins_WIDTH eq_refl eq_refl Hcol
                  ltac:(unfold RAND_MAX; lia)) as Hx.
    pose proof (coordinate_margins_grid HEIGHT rows (Z.of_nat i / cols)
                  grid_margins_HEIGHT eq_refl eq_refl Hrow
                  ltac:(unfold RAND_MAX; lia)) as Hy.
    unfold coordinate_margins in Hx, Hy.
    apply andb_prop in Hx, Hy. destruct Hx as [Hx0 Hx1], Hy as [Hy0 Hy1].
    fold dc in Hx0, Hx1. fold dr in Hy0, Hy1.
    repeat (split; [assumption|]). split.
    + intros ->.
      apply (first_coordinate_grid WIDTH cols grid_margins_WIDTH eq_refl).
      lia.
    + intros ->.
      apply (first_coordinate_grid HEIGHT rows grid_margins_HEIGHT eq_refl Hr).
  - intros i Hi. exists Neutron.zero. split; [|reflexivity].
    rewrite lookup_app_r by lia. apply lookup_replicate_2. lia.
Qed.

(** [C9], as the program has it: for a vector of no or one neutron the
    grid has no row and no column, and [initialize_neutrons] applies no
    floor to it: it lays out nothing and returns the empty vector, leaving
    both generators as they were.  The two divisions are by [rows + 1] and
    [cols + 1], which is one here, so they do not divide by zero. *)
Theorem degenerate_count_gives_empty_grid w :
  (length (neuts w) <= 1)%nat ->
  grid_rows (length (neuts w)) = 0 /\
  grid_cols (length (neuts w)) = 0 /\
  spacing HEIGHT (grid_rows (length (neuts w))) = Some 1080%float /\
  spacing WIDTH (grid_cols (length (neuts w))) = Some 1920%float /\
  initialize_neutrons w = Some (set_neuts [] w).
Proof.
  intros Hlen.
  assert (Hr : grid_rows (length (neuts w)) = 0).
  { destruct (length (neuts w)) as [|[|k]]; [reflexivity|reflexivity|lia]. }
  assert (Hc : grid_cols (length (neuts w)) = 0)
    by (unfold grid_cols; rewrite Hr; reflexivity).
  split; [exact Hr|]. split; [exact Hc|].
  rewrite initialize_neutrons_eq, Hr, Hc. repeat split.
Qed.

End Initialize.

(** * The loop of [move_neutrons] *)

Section Tick.
Context {P : Platform}.
Implicit Types (w : World) (n p : Neutron.t) (l : list Neutron.t).

Lemma state_at_S dt w i :
  state_at dt w (S i) = step_neutron dt i (state_at dt w i).
Proof. unfold state_at. rewrite seq_S, foldl_app. reflexivity. Qed.

Lemma state_at_length dt w i :
  (length (neuts w) <= length (neuts (state_at dt w i)))%nat.
Proof.
  induction i as [|i IH]; [reflexivity|]. rewrite state_at_S.
  pose proof (step_neutron_length dt i (state_at dt w i)). lia.
Qed.

Lemma state_at_length_mono dt w i j :
  (i <= j)%nat ->
  (length (neuts (state_at dt w i)) <= length (neuts (state_at dt w j)))%nat.
Proof.
  induction 1 as [|j Hij IH]; [reflexivity|]. rewrite state_at_S.
  pose proof (step_neutron_length dt j (state_at dt w j)). lia.
Qed.


(** A loop that finishes has run the body once at every index below the
    final length, in order, and has not shortened the vector. *)
Lemma move_loop_spec fuel dt nn w w' :
  move_loop fuel dt nn w = Some w' ->
  (length (neuts w) <= length (neuts w'))%nat /\
  w' = foldl (fun w j => step_neutron dt j w) w
         (seq nn (length (neuts w') - nn)).
Proof.
  revert nn w. induction fuel as [|fuel IH]; intros nn w H; cbn [move_loop] in H.
  - destruct (decide (nn < length (neuts w))%nat) as [Hlt|Hge]; [discriminate|].
    injection H as <-. split; [reflexivity|].
    replace (length (neuts w) - nn)%nat with 0%nat by lia. reflexivity.
  - destruct (decide (nn < length (neuts w))%nat) as [Hlt|Hge].
    + destruct (IH _ _ H) as [Hlen Hw'].
      pose proof (step_neutron_length dt nn w) as Hs.
      split; [lia|].
      replace (length (neuts w') - nn)%nat
        with (S (length (neuts w') - S nn)) by lia.
      exact Hw'.
    + injection H as <-. split; [reflexivity|].
      replace (length (neuts w) - nn)%nat with 0%nat by lia. reflexivity.
Qed.




(** ** The loop finishes *)

Lemma turns_of_not_due p : collides p = false -> turns_of p = 1%nat.
Proof. unfold turns_of. intros ->. reflexivity. Qed.

Lemma dead_not_due p : Neutron.alive p = false -> collides p = false.
Proof. unfold collides. intros ->. reflexivity. Qed.

(** A secondary costs the rest of the loop one turn more when it is pushed
    back, and none when it takes a dead slot. *)
Lemma spawn_secondary_turns m nn w n :
  rand_in_range P -> log_sign_law P ->
  neuts w !! nn = Some n -> Neutron.alive n = true ->
  (m <= length (neuts w))%nat ->
  (turns_left (drop m (neuts (spawn_secondary nn w)))
   <= 1 + turns_left (drop m (neuts w)))%nat.
Proof.
  intros HR HL Hn Ha Hm. rewrite (spawn_secondary_neuts nn w n Hn).
  destruct (find_dead_slot (neuts w)) as [j|] eqn:Hf.
  - apply find_dead_slot_Some in Hf. destruct Hf as [[d [Hd Hdd]] _].
    destruct (le_lt_dec m j) as [Hle|Hlt].
    + rewrite drop_insert_ge by exact Hle.
      rewrite (turns_left_insert _ _ d); [lia| |].
      * rewrite lookup_drop. replace (m + (j - m))%nat with j by lia. exact Hd.
      * rewrite (turns_of_not_due d (dead_not_due d Hdd)).
        symmetry. apply turns_of_not_due.
        apply (secondary_not_due n _ HR HL (reused_secondary_of n w) Ha).
    + rewrite drop_insert_lt by exact Hlt. lia.
  - rewrite drop_app_le by exact Hm. rewrite turns_left_app. cbn [turns_left].
    rewrite (turns_of_not_due (pushed_secondary n w)); [lia|].
    apply (secondary_not_due n _ HR HL (pushed_secondary_of n w) Ha).
Qed.

Lemma spawn_secondaries_turns k m nn w n :
  rand_in_range P -> log_sign_law P ->
  neuts w !! nn = Some n -> Neutron.alive n = true ->
  (m <= length (neuts w))%nat ->
  (turns_left (drop m (neuts (spawn_secondaries k nn w)))
   <= k + turns_left (drop m (neuts w)))%nat.
Proof.
  intros HR HL. revert w. induction k as [|k IH]; intros w Hn Ha Hm;
    cbn [spawn_secondaries]; [lia|].
  destruct (spawn_secondary_spec nn w n Hn Ha) as (H1 & _ & H3 & _).
  pose proof (IH (spawn_secondary nn w) H1 Ha ltac:(lia)) as IHk.
  pose proof (spawn_secondary_turns m nn w n HR HL Hn Ha Hm). lia.
Qed.

Lemma resolve_collision_turns nn w n :
  rand_in_range P -> log_sign_law P ->
  neuts w !! nn = Some n -> Neutron.alive n = true ->
  (turns_left (drop (S nn) (neuts (resolve_collision nn w)))
   <= 2 + turns_left (drop (S nn) (neuts w)))%nat.
Proof.
  intros HR HL Hn Ha. unfold resolve_collision.
  destruct (next_randf w <? sig_c / sig_t)%float.
  - cbn [neuts set_neuts after_randf]. rewrite drop_alter_lt by lia. lia.
  - destruct (next_randf w <? (sig_c + sig_f) / sig_t)%float.
    + set (k := Z.to_nat _).
      assert (k <= 2)%nat as Hk.
      { unfold k. rewrite fission_secondaries_cases.
        destruct (_ <? 0.5)%float; cbn; lia. }
      pose proof (lookup_lt_Some _ _ _ Hn) as Hlt.
      pose proof (spawn_secondaries_turns k (S nn) nn
                    (after_randf (after_randf w)) n HR HL Hn Ha Hlt) as H.
      cbn [neuts after_randf] in H. lia.
    + cbn [neuts after_randf]. lia.
Qed.

(** Every turn of the loop uses up at least one of the turns left. *)
Lemma step_neutron_turns dt nn w n :
  rand_in_range P -> log_sign_law P ->
  neuts w !! nn = Some n ->
  (1 + turns_left (drop (S nn) (neuts (step_neutron dt nn w)))
   <= turns_left (drop nn (neuts w)))%nat.
Proof.
  intros HR HL Hn. rewrite (drop_S _ _ _ Hn). cbn [turns_left].
  unfold step_neutron, turns_of, collides. rewrite Hn.
  destruct (Neutron.alive n) eqn:Ha; cbn [negb andb]; [|lia].
  destruct (_ <? 0)%float.
  - rewrite advance_neuts, drop_alter_lt by lia.
    rewrite collide_neuts, drop_alter_lt by lia.
    pose proof (resolve_collision_turns nn w n HR HL Hn Ha). lia.
  - rewrite advance_neuts, drop_alter_lt by lia. lia.
Qed.

Lemma move_loop_total fuel dt nn w :
  rand_in_range P -> log_sign_law P ->
  (turns_left (drop nn (neuts w)) <= fuel)%nat ->
  is_Some (move_loop fuel dt nn w).
Proof.
  intros HR HL. revert nn w. induction fuel as [|fuel IH]; intros nn w Hf;
    cbn [move_loop].
  - destruct (decide (nn < length (neuts w))%nat) as [Hlt|Hge]; [|eauto].
    exfalso. apply lookup_lt_is_Some_2 in Hlt. destruct Hlt as [n Hn].
    rewrite (drop_S _ _ _ Hn) in Hf. cbn [turns_left] in Hf.
    unfold turns_of in Hf. destruct (collides n); lia.
  - destruct (decide (nn < length (neuts w))%nat) as [Hlt|Hge]; [|eauto].
    apply lookup_lt_is_Some_2 in Hlt. destruct Hlt as [n Hn].
    apply IH. pose proof (step_neutron_turns dt nn w n HR HL Hn). lia.
Qed.

(** [X1] On a platform whose [rand] and [log] behave as the C library's, a
    tick finishes: three turns of the loop for every slot are enough. *)
Theorem move_neutrons_terminates dt w :
  rand_in_range P -> log_sign_law P ->
  is_Some (move_neutrons (3 * length (neuts w)) dt w).
Proof.
  intros HR HL. apply move_loop_total; [assumption..|].
  rewrite drop_0. apply turns_left_bound.
Qed.

(** [C7] A tick never shortens the vector, nor does any turn of its loop;
    and the live neutrons never outnumber the slots, before, during and
    after the tick. *)
Theorem tick_never_shrinks fuel dt w w' :
  move_neutrons fuel dt w = Some w' ->
  (length (neuts w) <= length (neuts w'))%nat /\
  (forall i j, (i <= j)%nat ->
     length (neuts (state_at dt w i)) <= length (neuts (state_at dt w j)))%nat /\
  (forall i, live_count (neuts (state_at dt w i))
             <= length (neuts (state_at dt w i)))%nat /\
  (live_count (neuts w') <= length (neuts w'))%nat.
Proof.
  intros H. split; [apply (move_loop_spec fuel dt 0 w w' H)|].
  split; [intros i j; apply state_at_length_mono|].
  split; [intros i|]; apply live_count_le_length.
Qed.


End Tick.

(** * The reference [n] and the buffer of the vector *)

Section StorageFacts.
Context {P : Platform}.
Variable stale : Neutron.t -> Neutron.t.
Variable grown : nat -> nat.
Implicit Types (w : World) (n p : Neutron.t) (l : list Neutron.t) (b : Stored).

(** ** While [n] is valid *)

Lemma spawn_secondary_stored_valid nn w cap n :
  neuts w !! nn = Some n -> Neutron.alive n = true ->
  (length (neuts w) < cap \/ live_count (neuts w) < length (neuts w))%nat ->
  spawn_secondary_stored stale grown nn (mkStored w cap None) = mkStored (spawn_secondary nn w) cap None.
Proof.
  intros Hn Ha Hroom. unfold spawn_secondary_stored, spawn_secondary, read_n.
  cbn [vec capacity dangling]. rewrite Hn.
  destruct (find_dead_slot (neuts w)) as [j|] eqn:Hf; [reflexivity|].
  destruct Hroom as [Hcap|Hspare].
  - destruct (Nat.leb_spec cap (length (neuts w))); [lia|reflexivity].
  - apply find_dead_slot_spare in Hspare. rewrite Hf in Hspare.
    destruct Hspare as [? [=]].
Qed.

Lemma spawn_secondaries_stored_valid k nn w cap n :
  neuts w !! nn = Some n -> Neutron.alive n = true ->
  (length (neuts w) + k <= cap \/
   live_count (neuts w) + k <= length (neuts w))%nat ->
  spawn_secondaries_stored stale grown k nn (mkStored w cap None) = mkStored (spawn_secondaries k nn w) cap None.
Proof.
  revert w. induction k as [|k IH]; intros w Hn Ha Hroom; [reflexivity|].
  cbn [spawn_secondaries_stored spawn_secondaries].
  rewrite (spawn_secondary_stored_valid nn w cap n Hn Ha) by lia.
  destruct (spawn_secondary_spec nn w n Hn Ha) as (H1 & H2 & H3 & _).
  apply (IH _ H1 Ha). destruct Hroom as [Hcap|Hspare]; [left; lia|right].
  rewrite H2. rewrite (spawn_secondary_neuts nn w n Hn).
  destruct (find_dead_slot_spare (neuts w) ltac:(lia)) as [j ->].
  rewrite length_insert. lia.
Qed.

(** With room for two more neutrons, in the capacity or in dead slots,
    no [emplace_back] reallocates, [n] stays valid, and the loop body is
    [step_neutron]. *)
Lemma step_stored_agrees dt nn w cap :
  (length (neuts w) + 2 <= cap \/
   live_count (neuts w) + 2 <= length (neuts w))%nat ->
  step_stored stale grown dt nn w cap = (step_neutron dt nn w, cap).
Proof.
  intros Hroom. unfold step_stored, step_neutron.
  destruct (neuts w !! nn) as [n|] eqn:Hn; [|reflexivity].
  destruct (Neutron.alive n) eqn:Ha; cbn [negb]; [|reflexivity].
  destruct (_ <? 0)%float; [|reflexivity].
  unfold collide_stored, collide, resolve_collision_stored, resolve_collision.
  cbn [vec on_vec capacity dangling].
  destruct (next_randf w <? sig_c / sig_t)%float; [reflexivity|].
  destruct (next_randf w <? (sig_c + sig_f) / sig_t)%float; [|reflexivity].
  set (k := Z.to_nat _).
  assert (k <= 2)%nat as Hk.
  { unfold k. rewrite fission_secondaries_cases.
    destruct (_ <? 0.5)%float; cbn; lia. }
  unfold on_vec. cbn [vec capacity dangling].
  rewrite (spawn_secondaries_stored_valid k nn (after_randf (after_randf w)) cap n
             Hn Ha) by (cbn [neuts after_randf]; lia).
  reflexivity.
Qed.

(** ** Once [n] dangles *)

Lemma all_alive_snoc l p :
  all_alive l -> Neutron.alive p = true -> all_alive (l ++ [p]).
Proof.
  intros Hl Hp i q Hq. apply lookup_app_Some in Hq.
  destruct Hq as [Hq|[_ Hq]]; [apply (Hl i q Hq)|].
  apply list_lookup_singleton_Some in Hq. destruct Hq as [_ <-]. exact Hp.
Qed.

(** In a full vector with no dead slot, the first secondary is a copy of
    the parent pushed back, and the push leaves [n] dangling. *)
Lemma spawn_secondary_stored_full nn w cap n :
  neuts w !! nn = Some n -> all_alive (neuts w) ->
  (cap <= length (neuts w))%nat ->
  spawn_secondary_stored stale grown nn (mkStored w cap None)
  = mkStored (set_neuts (neuts w ++ [pushed_secondary n w])
                (after_randf (after_direction w)))
             (grown (length (neuts w))) (Some (stale n)).
Proof.
  intros Hn Hall Hfull. unfold spawn_secondary_stored, read_n.
  cbn [vec capacity dangling]. rewrite Hn.
  apply find_dead_slot_None in Hall. rewrite Hall.
  destruct (Nat.leb_spec cap (length (neuts w))); [reflexivity|lia].
Qed.

(** With [n] dangling and no dead slot, a secondary is a copy of what the
    freed buffer holds. *)
Lemma spawn_secondary_stored_dangling nn w cap v :
  all_alive (neuts w) ->
  neuts (vec (spawn_secondary_stored stale grown nn (mkStored w cap (Some v))))
  = neuts w ++ [pushed_secondary v w] /\
  dangling (spawn_secondary_stored stale grown nn (mkStored w cap (Some v))) = Some v.
Proof.
  intros Hall. unfold spawn_secondary_stored, read_n.
  cbn [vec capacity dangling].
  apply find_dead_slot_None in Hall. rewrite Hall. split; reflexivity.
Qed.

Lemma write_n_dangling f nn b v :
  dangling b = Some v ->
  vec (write_n f nn b) = vec b /\ dangling (write_n f nn b) = Some (f v).
Proof. intros H. unfold write_n. rewrite H. split; reflexivity. Qed.

(** What is written through a dangling [n] does not reach the vector. *)
Lemma resample_advance_dangling dt nn b v :
  dangling b = Some v ->
  neuts (vec (advance_stored dt nn (resample_self_stored nn b)))
  = neuts (vec b).
Proof.
  intros H. unfold advance_stored, resample_self_stored, write_n, on_vec.
  cbn [dangling vec capacity]. rewrite H. cbn [dangling vec capacity].
  reflexivity.
Qed.

Lemma live_count_full_all_alive l :
  live_count l = length l -> all_alive l.
Proof.
  induction l as [|a l IH]; intros H i p Hp; [destruct i; discriminate Hp|].
  cbn in H. pose proof (live_count_le_length l) as Hle.
  destruct (Neutron.alive a) eqn:Ha; [|lia].
  destruct i as [|i]; cbn in Hp.
  - injection Hp as <-. exact Ha.
  - apply (IH ltac:(lia) i p Hp).
Qed.

(** After a fission in a full vector that has fewer dead slots than the
    fission has secondaries, [n] dangles, the vector is longer, and the
    element at [nn] is as it was. *)
Lemma fission_stored_full k nn w cap n :
  neuts w !! nn = Some n -> Neutron.alive n = true ->
  (cap <= length (neuts w))%nat -> (k <= 2)%nat ->
  (length (neuts w) < live_count (neuts w) + k)%nat ->
  let b := spawn_secondaries_stored stale grown k nn (mkStored w cap None) in
  dangling b <> None /\ neuts (vec b) !! nn = Some n /\
  (length (neuts w) < length (neuts (vec b)))%nat.
Proof.
  intros Hn Ha Hfull Hk Hdead.
  pose proof (live_count_le_length (neuts w)) as Hle.
  assert (Hpush : forall w0 k0, neuts w0 !! nn = Some n ->
            live_count (neuts w0) = length (neuts w0) ->
            (cap <= length (neuts w0))%nat -> (1 <= k0 <= 2)%nat ->
            let b := spawn_secondaries_stored stale grown k0 nn (mkStored w0 cap None) in
            dangling b <> None /\ neuts (vec b) !! nn = Some n /\
            (length (neuts w0) < length (neuts (vec b)))%nat).
  { intros w0 k0 Hn0 Hlive Hfull0 Hk0.
    apply live_count_full_all_alive in Hlive.
    assert (k0 = 1 \/ k0 = 2)%nat as [-> | ->] by lia;
      cbn [spawn_secondaries_stored];
      rewrite (spawn_secondary_stored_full nn w0 cap n Hn0 Hlive Hfull0).
    - cbn [vec dangling neuts set_neuts]. split; [discriminate|].
      split; [apply lookup_app_l_Some, Hn0|]. rewrite length_app. cbn. lia.
    - set (w1 := set_neuts _ _).
      assert (Hall1 : all_alive (neuts w1))
        by (apply all_alive_snoc; [exact Hlive|exact Ha]).
      destruct (spawn_secondary_stored_dangling nn w1 (grown (length (neuts w0)))
                  (stale n) Hall1) as [Hv Hd].
      rewrite Hv, Hd. split; [discriminate|]. unfold w1. cbn [neuts set_neuts].
      split; [apply lookup_app_l_Some, lookup_app_l_Some, Hn0|].
      rewrite !length_app. cbn. lia. }
  destruct (decide (live_count (neuts w) = length (neuts w))) as [Hlive|Hone].
  - apply Hpush; [assumption..|lia].
  - assert (k = 2)%nat as -> by lia. cbn [spawn_secondaries_stored].
    rewrite (spawn_secondary_stored_valid nn w cap n Hn Ha) by lia.
    destruct (spawn_secondary_spec nn w n Hn Ha) as (H1 & H2 & _).
    assert (Hlen : length (neuts (spawn_secondary nn w)) = length (neuts w)).
    { rewrite (spawn_secondary_neuts nn w n Hn).
      destruct (find_dead_slot_spare (neuts w) ltac:(lia)) as [j ->].
      apply length_insert. }
    destruct (Hpush (spawn_secondary nn w) 1%nat H1 ltac:(lia) ltac:(lia)
                ltac:(lia)) as (Hd & Hnn & Hl).
    cbn [spawn_secondaries_stored] in Hd, Hnn, Hl.
    split; [exact Hd|]. split; [exact Hnn|lia].
Qed.

(** [C8], where the code goes wrong: a fission in a full vector that has
    fewer dead slots than the fission has secondaries reallocates the
    vector, so the reference [n] dangles when the two statements after the
    branch run.  The vector comes out longer, and the neutron that
    collided is in it exactly as it was: its distance has not been
    resampled and is still below zero. *)
Theorem fission_at_full_vector_skips_resample dt nn w cap n :
  neuts w !! nn = Some n -> Neutron.alive n = true ->
  (Neutron.distance_to_collision n <? 0)%float = true ->
  (next_randf w <? sig_c / sig_t)%float = false ->
  (next_randf w <? (sig_c + sig_f) / sig_t)%float = true ->
  (cap <= length (neuts w))%nat ->
  (length (neuts w)
   < live_count (neuts w)
     + Z.to_nat (fission_secondaries (next_randf (after_randf w))))%nat ->
  let w' := fst (step_stored stale grown dt nn w cap) in
  (length (neuts w) < length (neuts w'))%nat /\
  exists p, neuts w' !! nn = Some p /\ p = n /\
    (Neutron.distance_to_collision p <? 0)%float = true.
Proof.
  intros Hn Ha Hd H1 H2 Hfull Hdead. unfold step_stored.
  rewrite Hn, Ha, Hd. cbn [negb fst vec].
  unfold collide_stored, resolve_collision_stored.
  cbn [vec on_vec capacity dangling]. rewrite H1, H2.
  set (k := Z.to_nat _) in *.
  assert (k <= 2)%nat as Hk.
  { unfold k. rewrite fission_secondaries_cases.
    destruct (_ <? 0.5)%float; cbn; lia. }
  unfold on_vec. cbn [vec capacity dangling].
  destruct (fission_stored_full k nn (after_randf (after_randf w)) cap n
              Hn Ha Hfull Hk Hdead) as (Hdang & Hnn & Hlen).
  cbn zeta in Hdang, Hnn, Hlen. cbn [neuts after_randf] in Hlen.
  set (b := spawn_secondaries_stored stale grown k nn _) in *.
  destruct (dangling b) as [v|] eqn:Hv; [|congruence].
  rewrite (resample_advance_dangling dt nn b v Hv).
  split; [exact Hlen|]. exists n. split; [exact Hnn|]. split; [reflexivity|exact Hd].
Qed.

(** [C1], where the code goes wrong: one tick of the loop body on a vector
    of one neutron, due for a collision, whose capacity is one, with the
    draws of a fission into three.  The first secondary is a copy of the
    parent, and pushing it reallocates the vector; the second is a copy
    of what the freed buffer holds, whatever that is; and the parent is
    left as it was, with its old direction, position and distance: it is
    not re-randomised.  The five draws of [rand] and the three of the
    direction sampler have been made all the same. *)
Theorem fission_at_full_vector_copies_freed_parent :
  let w' := fst (step_stored stale grown tick_dt 0 crowded_world 1) in
  neuts w' =
    [ due_neutron;
      Neutron.with_distance 3.2967032967032965
        (Neutron.with_u (Position.mk 1 0 0) due_neutron);
      Neutron.with_distance 3.2967032967032965
        (Neutron.with_u (Position.mk 0 1 0) (stale due_neutron)) ] /\
  rand_st w' = 5%nat /\ dir_seed w' = 3.
Proof. vm_compute. repeat split. Qed.

End StorageFacts.

(** * Further properties of the program *)

(** ** [randf] and [random_color] *)

Section Samplers.
Context {P : Platform}.

(** [X8] On a platform whose [rand] stays within [0, RAND_MAX], [randf()]
    returns a number of the unit interval, so never a NaN; and both ends
    are reached: it is [0] when [rand] returns [0], and [1] when [rand]
    returns [RAND_MAX]. *)
Theorem randf_in_unit_interval (s : rand_state) :
  rand_in_range P ->
  (0 <=? fst (randf s))%float = true /\
  (fst (randf s) <=? 1)%float = true /\
  (fst (rand s) = 0 -> fst (randf s) = 0%float) /\
  (fst (rand s) = RAND_MAX -> fst (randf s) = 1%float).
Proof.
  intros HR. destruct (unit_draw_unit (fst (rand s)) (HR s)) as [H0 H1].
  split; [exact H0|]. split; [exact H1|].
  unfold randf. cbn [fst]. split; intros ->; reflexivity.
Qed.

Lemma to_uchar_range k : is_uchar (to_uchar k).
Proof. unfold is_uchar, to_uchar. pose proof (Z.mod_pos_bound k 256). lia. Qed.

(** The colour [random_color] returns has its channels within [0, 255],
    and they are not all above [200]. *)
Lemma random_color_safe (s : rand_state) :
  rand_in_range P ->
  let c := fst (random_color s) in
  is_uchar (Color.r c) /\ is_uchar (Color.g c) /\ is_uchar (Color.b c) /\
  near_white c = false.
Proof.
  intros HR. unfold random_color.
  set (s1 := snd (rand s)). set (s2 := snd (rand s1)). set (s3 := snd (rand s2)).
  pose proof (HR s3) as [Hk _].
  generalize dependent (fst (rand s3)). intros k3 Hk.
  generalize (to_uchar_range (Z.rem (fst (rand s)) 256)).
  generalize (to_uchar (Z.rem (fst (rand s)) 256)). intros rgb0 H0.
  generalize (to_uchar_range (Z.rem (fst (rand s1)) 256)).
  generalize (to_uchar (Z.rem (fst (rand s1)) 256)). intros rgb1 H1.
  generalize (to_uchar_range (Z.rem (fst (rand s2)) 256)).
  generalize (to_uchar (Z.rem (fst (rand s2)) 256)). intros rgb2 H2.
  assert (H10 : is_uchar 10) by (unfold is_uchar; lia).
  assert (W : forall c0 c1 c2,
             (c0 = 10 \/ c1 = 10 \/ c2 = 10) -> near_white (Color.mk c0 c1 c2) = false).
  { intros c0 c1 c2 [->|[->| ->]]; unfold near_white; cbn [Color.r Color.g Color.b];
      change (200 <? 10) with false; rewrite ?andb_false_r; reflexivity. }
  destruct ((200 <? rgb0) && (200 <? rgb1) && (200 <? rgb2)) eqn:E; cbn [fst].
  - pose proof (Z.rem_bound_pos k3 3 Hk ltac:(lia)) as Hrem.
    assert (Hi : to_uchar (Z.rem k3 3) = Z.rem k3 3).
    { unfold to_uchar. apply Z.mod_small. lia. }
    rewrite Hi. set (indx := Z.rem _ 3) in *.
    destruct (Z.eqb_spec indx 0);
      [cbn [Color.r Color.g Color.b]; repeat (split; [assumption|]); apply W; tauto|].
    destruct (Z.eqb_spec indx 1);
      [cbn [Color.r Color.g Color.b]; repeat (split; [assumption|]); apply W; tauto|].
    destruct (Z.eqb_spec indx 2); [|lia].
    cbn [Color.r Color.g Color.b]; repeat (split; [assumption|]); apply W; tauto.
  - unfold near_white. cbn [Color.r Color.g Color.b]. auto.
Qed.

Lemma to_uchar_rem k m :
  0 <= k -> 0 < m <= 256 -> to_uchar (Z.rem k m) = k mod m.
Proof.
  intros Hk Hm. rewrite Z.rem_mod_nonneg by lia. unfold to_uchar.
  pose proof (Z.mod_pos_bound k m ltac:(lia)). apply Z.mod_small. lia.
Qed.

(** [X9] On a platform whose [rand] is never negative, [random_color]
    draws three channels, each the value of [rand] modulo [256].  When
    they are not all above [200] it returns them, after three draws; when
    they are, a fourth draw modulo [3] picks the channel that is set to
    [10].  Either way the channels returned are within [0, 255] and not
    all above [200]: no nearly white colour. *)
Theorem random_color_not_near_white (s : rand_state) :
  rand_in_range P ->
  let s1 := snd (rand s) in
  let s2 := snd (rand s1) in
  let s3 := snd (rand s2) in
  let drawn := Color.mk (fst (rand s) mod 256) (fst (rand s1) mod 256)
                 (fst (rand s2) mod 256) in
  let c := fst (random_color s) in
  is_uchar (Color.r c) /\ is_uchar (Color.g c) /\ is_uchar (Color.b c) /\
  near_white c = false /\
  (near_white drawn = false -> random_color s = (drawn, s3)) /\
  (near_white drawn = true ->
   random_color s = (darken (fst (rand s3) mod 3) drawn, snd (rand s3))).
Proof.
  intros HR s1 s2 s3 drawn c.
  destruct (random_color_safe s HR) as (Hr & Hg & Hb & Hw).
  repeat (split; [assumption|]).
  unfold random_color. fold s1 s2 s3.
  rewrite !to_uchar_rem by (first [apply HR|lia]).
  unfold near_white, drawn, darken. cbn [Color.r Color.g Color.b].
  split; intros ->; reflexivity.
Qed.

End Samplers.

(** ** A whole tick of [move_neutrons] *)

Section TickBounds.
Context {P : Platform}.
Implicit Types (w : World) (n p : Neutron.t) (l : list Neutron.t).

(** A secondary changes nothing in the number of neutrons that are due
    from an index [m] on. *)
Lemma spawn_secondary_due m nn w n :
  rand_in_range P -> log_sign_law P ->
  neuts w !! nn = Some n -> Neutron.alive n = true ->
  (m <= length (neuts w))%nat ->
  due_count (drop m (neuts (spawn_secondary nn w)))
  = due_count (drop m (neuts w)).
Proof.
  intros HR HL Hn Ha Hm. rewrite (spawn_secondary_neuts nn w n Hn).
  destruct (find_dead_slot (neuts w)) as [j|] eqn:Hf.
  - apply find_dead_slot_Some in Hf. destruct Hf as [[d [Hd Hdd]] _].
    destruct (le_lt_dec m j) as [Hle|Hlt].
    + rewrite drop_insert_ge by exact Hle.
      apply (due_count_insert _ _ d).
      * rewrite lookup_drop. replace (m + (j - m))%nat with j by lia. exact Hd.
      * rewrite (dead_not_due d Hdd). symmetry.
        apply (secondary_not_due n _ HR HL (reused_secondary_of n w) Ha).
    + rewrite drop_insert_lt by exact Hlt. reflexivity.
  - rewrite drop_app_le by exact Hm. rewrite due_count_app. cbn [due_count].
    rewrite (secondary_not_due n _ HR HL (pushed_secondary_of n w) Ha). lia.
Qed.

Lemma spawn_secondaries_due k m nn w n :
  rand_in_range P -> log_sign_law P ->
  neuts w !! nn = Some n -> Neutron.alive n = true ->
  (m <= length (neuts w))%nat ->
  due_count (drop m (neuts (spawn_secondaries k nn w)))
  = due_count (drop m (neuts w)).
Proof.
  intros HR HL. revert w. induction k as [|k IH]; intros w Hn Ha Hm;
    cbn [spawn_secondaries]; [reflexivity|].
  destruct (spawn_secondary_spec nn w n Hn Ha) as (H1 & _ & H3 & _).
  rewrite (IH (spawn_secondary nn w) H1 Ha ltac:(lia)).
  apply (spawn_secondary_due m nn w n HR HL Hn Ha Hm).
Qed.

Lemma resolve_collision_due nn w n :
  rand_in_range P -> log_sign_law P ->
  neuts w !! nn = Some n -> Neutron.alive n = true ->
  due_count (drop (S nn) (neuts (resolve_collision nn w)))
  = due_count (drop (S nn) (neuts w)).
Proof.
  intros HR HL Hn Ha. unfold resolve_collision.
  destruct (next_randf w <? sig_c / sig_t)%float.
  - cbn [neuts set_neuts after_randf]. rewrite drop_alter_lt by lia. reflexivity.
  - destruct (next_randf w <? (sig_c + sig_f) / sig_t)%float; [|reflexivity].
    pose proof (lookup_lt_Some _ _ _ Hn) as Hlt.
    apply (spawn_secondaries_due _ (S nn) nn (after_randf (after_randf w)) n
             HR HL Hn Ha Hlt).
Qed.

(** One turn of the loop takes the neutron it visits off the count of the
    neutrons still due, and adds none. *)
Lemma step_neutron_due dt nn w n :
  rand_in_range P -> log_sign_law P ->
  neuts w !! nn = Some n ->
  (due_count (drop (S nn) (neuts (step_neutron dt nn w)))
   + (if collides n then 1 else 0))%nat
  = due_count (drop nn (neuts w)).
Proof.
  intros HR HL Hn. rewrite (drop_S _ _ _ Hn). cbn [due_count].
  unfold step_neutron, collides. rewrite Hn.
  destruct (Neutron.alive n) eqn:Ha; cbn [negb andb]; [|lia].
  destruct (_ <? 0)%float.
  - rewrite advance_neuts, drop_alter_lt by lia.
    rewrite collide_neuts, drop_alter_lt by lia.
    rewrite (resolve_collision_due nn w n HR HL Hn Ha). lia.
  - rewrite advance_neuts, drop_alter_lt by lia. lia.
Qed.

(** One turn of the loop lengthens the vector only at a neutron that is
    due, and then by two at most. *)
Lemma step_neutron_length_due dt nn w n :
  neuts w !! nn = Some n ->
  (length (neuts (step_neutron dt nn w))
   <= length (neuts w) + 2 * (if collides n then 1 else 0))%nat.
Proof.
  intros Hn. pose proof (step_neutron_length dt nn w) as H.
  unfold collides. destruct (Neutron.alive n) eqn:Ha; cbn [andb].
  - destruct (_ <? 0)%float eqn:Hd; [lia|].
    rewrite (step_neutron_moves dt nn w n Hn Ha Hd), advance_neuts, length_alter. lia.
  - rewrite (step_neutron_dead dt nn w n Hn Ha). lia.
Qed.

Lemma move_loop_growth fuel dt nn w w' :
  rand_in_range P -> log_sign_law P ->
  move_loop fuel dt nn w = Some w' ->
  (length (neuts w')
   <= length (neuts w) + 2 * due_count (drop nn (neuts w)))%nat.
Proof.
  intros HR HL. revert nn w.
  induction fuel as [|fuel IH]; intros nn w H; cbn [move_loop] in H;
    destruct (decide (nn < length (neuts w))%nat) as [Hlt|Hge];
    try discriminate H; try (injection H as <-; lia).
  apply lookup_lt_is_Some_2 in Hlt. destruct Hlt as [n Hn].
  pose proof (IH _ _ H) as IH'.
  pose proof (step_neutron_due dt nn w n HR HL Hn).
  pose proof (step_neutron_length_due dt nn w n Hn). lia.
Qed.

(** [X2] A tick never shortens the vector, and lengthens it by two slots
    at most for every neutron that was due for a collision when the tick
    began: the neutrons born during the tick are not due, so they add
    none. *)
Theorem tick_growth_bounded fuel dt w w' :
  rand_in_range P -> log_sign_law P ->
  move_neutrons fuel dt w = Some w' ->
  (length (neuts w) <= length (neuts w')
     <= length (neuts w) + 2 * due_count (neuts w))%nat.
Proof.
  intros HR HL H. split; [apply (move_loop_spec fuel dt 0 w w' H)|].
  pose proof (move_loop_growth fuel dt 0 w w' HR HL H) as Hg.
  rewrite drop_0 in Hg. exact Hg.
Qed.


Lemma resolve_collision_live nn w n :
  neuts w !! nn = Some n -> Neutron.alive n = true ->
  (live_count (neuts w) <= live_count (neuts (resolve_collision nn w)) + 1 /\
   live_count (neuts (resolve_collision nn w)) <= live_count (neuts w) + 2)%nat.
Proof.
  intros Hn Ha. unfold resolve_collision.
  destruct (next_randf w <? sig_c / sig_t)%float.
  - cbn [neuts set_neuts after_randf].
    rewrite (alter_as_insert _ _ _ n Hn).
    pose proof (live_count_insert (neuts w) nn n (Neutron.with_alive false n) Hn) as H.
    rewrite Ha in H. cbn in H. lia.
  - destruct (next_randf w <? (sig_c + sig_f) / sig_t)%float.
    + set (k := Z.to_nat _).
      assert (k <= 2)%nat as Hk.
      { unfold k. rewrite fission_secondaries_cases.
        destruct (_ <? 0.5)%float; cbn; lia. }
      destruct (spawn_secondaries_spec k nn (after_randf (after_randf w)) n Hn Ha)
        as (_ & H2 & _).
      cbn [neuts after_randf] in *. lia.
    + cbn [neuts after_randf]. lia.
Qed.

Lemma step_neutron_live dt nn w n :
  neuts w !! nn = Some n ->
  (live_count (neuts w)
   <= live_count (neuts (step_neutron dt nn w)) + (if collides n then 1 else 0) /\
   live_count (neuts (step_neutron dt nn w))
   <= live_count (neuts w) + 2 * (if collides n then 1 else 0))%nat.
Proof.
  intros Hn. unfold collides. destruct (Neutron.alive n) eqn:Ha; cbn [andb].
  - destruct (_ <? 0)%float eqn:Hd.
    + rewrite (step_neutron_collides dt nn w n Hn Ha Hd).
      rewrite advance_neuts, collide_neuts.
      rewrite !live_count_alter by reflexivity.
      pose proof (resolve_collision_live nn w n Hn Ha). lia.
    + rewrite (step_neutron_moves dt nn w n Hn Ha Hd), advance_neuts.
      rewrite live_count_alter by reflexivity. lia.
  - rewrite (step_neutron_dead dt nn w n Hn Ha). lia.
Qed.

Lemma move_loop_live fuel dt nn w w' :
  rand_in_range P -> log_sign_law P ->
  move_loop fuel dt nn w = Some w' ->
  (live_count (neuts w) <= live_count (neuts w') + due_count (drop nn (neuts w)) /\
   live_count (neuts w')
   <= live_count (neuts w) + 2 * due_count (drop nn (neuts w)))%nat.
Proof.
  intros HR HL. revert nn w.
  induction fuel as [|fuel IH]; intros nn w H; cbn [move_loop] in H;
    destruct (decide (nn < length (neuts w))%nat) as [Hlt|Hge];
    try discriminate H; try (injection H as <-; lia).
  apply lookup_lt_is_Some_2 in Hlt. destruct Hlt as [n Hn].
  pose proof (IH _ _ H) as IH'.
  pose proof (step_neutron_due dt nn w n HR HL Hn).
  pose proof (step_neutron_live dt nn w n Hn). lia.
Qed.

(** [X3] A tick takes away at most one live neutron, and adds at most
    two, for every neutron that was due for a collision when it began. *)
Theorem tick_population_bounded fuel dt w w' :
  rand_in_range P -> log_sign_law P ->
  move_neutrons fuel dt w = Some w' ->
  (live_count (neuts w) <= live_count (neuts w') + due_count (neuts w) /\
   live_count (neuts w') <= live_count (neuts w) + 2 * due_count (neuts w))%nat.
Proof.
  intros HR HL H.
  pose proof (move_loop_live fuel dt 0 w w' HR HL H) as Hg.
  rewrite drop_0 in Hg. exact Hg.
Qed.

(** ** Dead slots to spare *)

Lemma spawn_secondaries_spare k nn w n :
  neuts w !! nn = Some n -> Neutron.alive n = true ->
  (live_count (neuts w) + k <= length (neuts w))%nat ->
  length (neuts (spawn_secondaries k nn w)) = length (neuts w) /\
  live_count (neuts (spawn_secondaries k nn w)) = (k + live_count (neuts w))%nat.
Proof.
  revert w. induction k as [|k IH]; intros w Hn Ha Hk; cbn [spawn_secondaries];
    [split; reflexivity|].
  destruct (spawn_secondary_spec nn w n Hn Ha) as (H1 & H2 & _).
  assert (Hlen : length (neuts (spawn_secondary nn w)) = length (neuts w)).
  { rewrite (spawn_secondary_neuts nn w n Hn).
    destruct (find_dead_slot_spare (neuts w) ltac:(lia)) as [j ->].
    apply length_insert. }
  destruct (IH (spawn_secondary nn w) H1 Ha ltac:(lia)) as [I1 I2].
  split; lia.
Qed.

Lemma resolve_collision_spare nn w n :
  neuts w !! nn = Some n -> Neutron.alive n = true ->
  (live_count (neuts w) + 2 <= length (neuts w))%nat ->
  length (neuts (resolve_collision nn w)) = length (neuts w) /\
  (live_count (neuts (resolve_collision nn w)) <= live_count (neuts w) + 2)%nat.
Proof.
  intros Hn Ha Hs. unfold resolve_collision.
  destruct (next_randf w <? sig_c / sig_t)%float.
  - cbn [neuts set_neuts after_randf]. split; [apply length_alter|].
    rewrite (alter_as_insert _ _ _ n Hn).
    pose proof (live_count_insert (neuts w) nn n (Neutron.with_alive false n) Hn) as H.
    rewrite Ha in H. cbn in H. lia.
  - destruct (next_randf w <? (sig_c + sig_f) / sig_t)%float.
    + set (k := Z.to_nat _).
      assert (k <= 2)%nat as Hk.
      { unfold k. rewrite fission_secondaries_cases.
        destruct (_ <? 0.5)%float; cbn; lia. }
      destruct (spawn_secondaries_spare k nn (after_randf (after_randf w)) n Hn Ha)
        as [H1 H2]; [cbn [neuts after_randf]; lia|].
      cbn [neuts after_randf] in *. lia.
    + cbn [neuts after_randf]. lia.
Qed.

Lemma step_neutron_spare dt nn w n :
  neuts w !! nn = Some n ->
  (live_count (neuts w) + 2 * (if collides n then 1 else 0)
   <= length (neuts w))%nat ->
  length (neuts (step_neutron dt nn w)) = length (neuts w) /\
  (live_count (neuts (step_neutron dt nn w))
   <= live_count (neuts w) + 2 * (if collides n then 1 else 0))%nat.
Proof.
  intros Hn. unfold collides. destruct (Neutron.alive n) eqn:Ha; cbn [andb].
  - destruct (_ <? 0)%float eqn:Hd; intros Hs.
    + rewrite (step_neutron_collides dt nn w n Hn Ha Hd).
      rewrite advance_neuts, length_alter, collide_neuts, length_alter.
      rewrite !live_count_alter by reflexivity.
      apply (resolve_collision_spare nn w n Hn Ha). lia.
    + rewrite (step_neutron_moves dt nn w n Hn Ha Hd), advance_neuts, length_alter.
      rewrite live_count_alter by reflexivity. lia.
  - intros _. rewrite (step_neutron_dead dt nn w n Hn Ha). lia.
Qed.

Lemma move_loop_spare fuel dt nn w :
  rand_in_range P -> log_sign_law P ->
  (live_count (neuts w) + 2 * due_count (drop nn (neuts w))
   <= length (neuts w))%nat ->
  (length (neuts w) - nn <= fuel)%nat ->
  exists w', move_loop fuel dt nn w = Some w' /\
    length (neuts w') = length (neuts w).
Proof.
  intros HR HL. revert nn w.
  induction fuel as [|fuel IH]; intros nn w Hs Hf; cbn [move_loop];
    destruct (decide (nn < length (neuts w))%nat) as [Hlt|Hge];
    try (exists w; split; reflexivity); [lia|].
  apply lookup_lt_is_Some_2 in Hlt. destruct Hlt as [n Hn].
  pose proof (step_neutron_due dt nn w n HR HL Hn) as Hd.
  destruct (step_neutron_spare dt nn w n Hn ltac:(lia)) as [H1 H2].
  destruct (IH (S nn) (step_neutron dt nn w) ltac:(lia) ltac:(lia))
    as (w' & Hw' & Hlen).
  exists w'. split; [exact Hw'|lia].
Qed.

(** [X4] When the vector holds two dead slots for every neutron that is
    due, the tick finishes within one turn of the loop per slot and the
    vector keeps its length: every secondary goes to a dead slot and none
    is pushed back. *)
Theorem spare_slots_absorb_growth fuel dt w :
  rand_in_range P -> log_sign_law P ->
  (live_count (neuts w) + 2 * due_count (neuts w) <= length (neuts w))%nat ->
  (length (neuts w) <= fuel)%nat ->
  exists w', move_neutrons fuel dt w = Some w' /\
    length (neuts w') = length (neuts w).
Proof.
  intros HR HL Hs Hf. apply (move_loop_spare fuel dt 0 w HR HL); [exact Hs|lia].
Qed.

(** ** A tick in which no neutron is due *)

Lemma set_neuts_neuts w : set_neuts (neuts w) w = w.
Proof. destruct w; reflexivity. Qed.

Lemma move_loop_quiet dt suf pre fuel w :
  neuts w = pre ++ suf -> due_count suf = 0%nat ->
  (length suf <= fuel)%nat ->
  move_loop fuel dt (length pre) w
  = Some (set_neuts (pre ++ map (moved dt) suf) w).
Proof.
  revert pre fuel w. induction suf as [|n suf IH]; intros pre fuel w Hw Hd Hf.
  - rewrite app_nil_r in Hw. cbn [map]. rewrite app_nil_r, <- Hw, set_neuts_neuts.
    destruct fuel; cbn [move_loop];
      destruct (decide (length (neuts w) < length (neuts w))%nat) as [Hlt|Hge];
      try reflexivity; lia.
  - destruct fuel as [|fuel]; [cbn in Hf; lia|]. cbn [move_loop].
    assert (Hn : neuts w !! length pre = Some n)
      by (rewrite Hw; apply list_lookup_middle; reflexivity).
    destruct (decide (length pre < length (neuts w))%nat) as [Hlt|Hge];
      [|apply lookup_lt_Some in Hn; lia].
    cbn [due_count] in Hd.
    assert (Hc : collides n = false) by (destruct (collides n); [lia|reflexivity]).
    assert (Hd' : due_count suf = 0%nat) by (rewrite Hc in Hd; lia).
    cbn [length] in Hf. cbn [map].
    unfold collides in Hc. destruct (Neutron.alive n) eqn:Ha; cbn [andb] in Hc.
    + rewrite (step_neutron_moves dt _ w n Hn Ha Hc).
      pose proof (IH (pre ++ [move_one dt n]) fuel (advance dt (length pre) w)) as H.
      rewrite length_app, Nat.add_1_r in H. rewrite H; [| |exact Hd'|lia].
      * replace (moved dt n) with (if Neutron.alive n then move_one dt n else n)
          by reflexivity.
        rewrite Ha, <- app_assoc. reflexivity.
      * rewrite advance_neuts, Hw, <- app_assoc.
        rewrite alter_app_r_alt by lia. rewrite Nat.sub_diag. reflexivity.
    + rewrite (step_neutron_dead dt _ w n Hn Ha).
      pose proof (IH (pre ++ [n]) fuel w) as H.
      rewrite length_app, Nat.add_1_r in H. rewrite H; [| |exact Hd'|lia].
      * replace (moved dt n) with (if Neutron.alive n then move_one dt n else n)
          by reflexivity.
        rewrite Ha, <- app_assoc. reflexivity.
      * rewrite Hw, <- app_assoc. reflexivity.
Qed.

(** [X5] A tick in which no neutron is due for a collision finishes
    within one turn of the loop per slot, moves every live neutron along
    its direction by [vel * dt], leaves the dead ones as they are, and
    draws no random number: both generator states are as before. *)
Theorem quiet_tick_only_moves fuel dt w :
  due_count (neuts w) = 0%nat -> (length (neuts w) <= fuel)%nat ->
  move_neutrons fuel dt w = Some (set_neuts (map (moved dt) (neuts w)) w).
Proof.
  intros Hd Hf. apply (move_loop_quiet dt (neuts w) [] fuel w); auto.
Qed.


(** ** The tags *)




(** [X7] The scattering branch: when [xi] is below neither threshold, the
    turn of the loop changes the slot of the colliding neutron only (it
    gets the resampled distance and direction and is moved), keeps the
    length and the number of live neutrons, and has called [randf] twice
    and the direction sampler once. *)
Theorem scatter_only_turns dt nn w n :
  neuts w !! nn = Some n -> Neutron.alive n = true ->
  (Neutron.distance_to_collision n <? 0)%float = true ->
  (next_randf w <? sig_c / sig_t)%float = false ->
  (next_randf w <? (sig_c + sig_f) / sig_t)%float = false ->
  neuts (step_neutron dt nn w)
    = <[nn := move_one dt (resampled (after_randf w) n)]> (neuts w) /\
  length (neuts (step_neutron dt nn w)) = length (neuts w) /\
  live_count (neuts (step_neutron dt nn w)) = live_count (neuts w) /\
  rand_st (step_neutron dt nn w) = snd (randf (snd (randf (rand_st w)))) /\
  dir_seed (step_neutron dt nn w) = snd (isotropic_sample (dir_seed w)).
Proof.
  intros Hn Ha Hd H1 H2.
  rewrite (step_neutron_collides dt nn w n Hn Ha Hd).
  unfold collide. rewrite (resolve_collision_scatter nn w H1 H2).
  rewrite advance_neuts, resample_self_neuts. cbn [neuts after_randf].
  rewrite list_alter_alter_eq.
  split; [apply (alter_as_insert (move_one dt ∘ resampled (after_randf w)) _ _ n Hn)|].
  split; [apply length_alter|].
  split; [apply live_count_alter; reflexivity|].
  split; reflexivity.
Qed.

End TickBounds.

(** ** The grid of [initialize_neutrons] *)

Section Grid.
Context {P : Platform}.
Implicit Types (w : World) (n p : Neutron.t) (l : list Neutron.t).

Lemma init_cols_by ncols dr dc row k w :
  let w' := foldl (fun w col => init_cell ncols dr dc row col w) w (seq 0 k) in
  length (neuts w') = length (neuts w) /\
  (forall col, (col < k)%nat -> (row * ncols + col < length (neuts w))%nat ->
     exists p, neuts w' !! (row * ncols + col)%nat = Some p /\
               laid_out_by dr dc row col p) /\
  (forall j, (j < row * ncols \/ row * ncols + k <= j)%nat ->
     neuts w' !! j = neuts w !! j).
Proof.
  induction k as [|k IH]; cbn zeta.
  - split; [reflexivity|]. split; [intros col Hc; lia|reflexivity].
  - rewrite seq_S, foldl_app. cbn [foldl]. cbn zeta in IH.
    set (wk := foldl _ w (seq 0 k)) in *. destruct IH as (IH1 & IH2 & IH3).
    rewrite init_cell_neuts, Nat.add_0_l. repeat split.
    + rewrite length_insert. exact IH1.
    + intros col Hc Hlen. destruct (decide (col = k)) as [->|Hne].
      * eexists. split; [apply list_lookup_insert_eq; lia|].
        exists (dir_seed wk), (rand_st wk). reflexivity.
      * rewrite list_lookup_insert_ne by lia. apply IH2; [lia|exact Hlen].
    + intros j Hj. rewrite list_lookup_insert_ne by lia. apply IH3. lia.
Qed.

Lemma init_rows_by ncols dr dc k w :
  let w' := foldl (fun w row => init_row ncols dr dc row w) w (seq 0 k) in
  length (neuts w') = length (neuts w) /\
  (forall row col, (row < k)%nat -> (col < ncols)%nat ->
     (row * ncols + col < length (neuts w))%nat ->
     exists p, neuts w' !! (row * ncols + col)%nat = Some p /\
               laid_out_by dr dc row col p) /\
  (forall j, (k * ncols <= j)%nat -> neuts w' !! j = neuts w !! j).
Proof.
  induction k as [|k IH]; cbn zeta.
  - split; [reflexivity|]. split; [intros row col Hr; lia|reflexivity].
  - rewrite seq_S, foldl_app. cbn [foldl]. cbn zeta in IH.
    set (wk := foldl _ w (seq 0 k)) in *. destruct IH as (IH1 & IH2 & IH3).
    rewrite Nat.add_0_l.
    destruct (init_cols_by ncols dr dc k ncols wk) as (R1 & R2 & R3).
    cbn zeta in R1, R2, R3. fold (init_row ncols dr dc k wk) in R1, R2, R3.
    repeat split.
    + rewrite R1. exact IH1.
    + intros row col Hr Hc Hlen. destruct (decide (row = k)) as [->|Hne].
      * apply R2; [exact Hc|]. rewrite IH1. exact Hlen.
      * rewrite R3 by nia. apply IH2; [lia|exact Hc|exact Hlen].
    + intros j Hj. rewrite R3 by (cbn in Hj; lia). apply IH3. cbn in Hj. lia.
Qed.

(** The vector [initialize_neutrons] returns, cell by cell. *)
Lemma initialize_neutrons_cells w w' :
  initialize_neutrons w = Some w' ->
  let rows := grid_rows (length (neuts w)) in
  let cols := grid_cols (length (neuts w)) in
  let dr := int_to_double (Z.quot HEIGHT (rows + 1)) in
  let dc := int_to_double (Z.quot WIDTH (cols + 1)) in
  exists grid,
    neuts w' = grid ++ replicate (length grid) Neutron.zero /\
    Z.of_nat (length grid) = rows * cols /\
    forall i p, grid !! i = Some p ->
      exists row col, (Z.of_nat row < rows) /\ (Z.of_nat col < cols) /\
        laid_out_by dr dc row col p.
Proof.
  intros Hw' rows cols dr dc.
  pose proof (grid_rows_nonneg (length (neuts w))) as Hr. fold rows in Hr.
  assert (Hc : cols = 2 * rows) by reflexivity.
  pose proof (initialize_neutrons_eq w) as Hinit. cbn zeta in Hinit.
  fold rows cols dr dc in Hinit. rewrite Hw' in Hinit.
  destruct (2 * (rows * cols) <=? INT_MAX); [|discriminate Hinit].
  injection Hinit as ->.
  set (w1 := set_neuts (resize (Z.to_nat (rows * cols)) (neuts w)) w) in *.
  set (w2 := init_grid (Z.to_nat rows) (Z.to_nat cols) dr dc w1) in *.
  destruct (init_rows_by (Z.to_nat cols) dr dc (Z.to_nat rows) w1)
    as (Hlen & Hcells & _).
  cbn zeta in Hlen, Hcells.
  fold (init_grid (Z.to_nat rows) (Z.to_nat cols) dr dc w1) in Hlen, Hcells.
  fold w2 in Hlen, Hcells.
  assert (Hl1 : length (neuts w1) = Z.to_nat (rows * cols))
    by apply resize_length.
  rewrite Hl1 in Hlen, Hcells.
  exists (neuts w2). cbn [neuts set_neuts].
  split; [reflexivity|]. split; [rewrite Hlen; lia|].
  intros i p Hp. pose proof (lookup_lt_Some _ _ _ Hp) as Hi. rewrite Hlen in Hi.
  assert (HC : (Z.to_nat cols <> 0)%nat) by nia.
  set (C := Z.to_nat cols) in *.
  pose proof (Nat.div_mod i C HC) as Hdm.
  pose proof (Nat.mod_upper_bound i C HC) as Hmod.
  assert (Hdiv : (i / C < Z.to_nat rows)%nat).
  { apply Nat.Div0.div_lt_upper_bound. unfold C. nia. }
  destruct (Hcells (i / C)%nat (i mod C)%nat Hdiv Hmod) as (q & Hq & Hlaid).
  { unfold C in *. nia. }
  replace (i / C * C + i mod C)%nat with i in Hq by lia.
  rewrite Hp in Hq. injection Hq as <-.
  exists (i / C)%nat, (i mod C)%nat.
  clear Hdm.
  generalize dependent (i / C)%nat. generalize dependent (i mod C)%nat.
  intros col Hcol row Hrow Hlaid.
  split; [lia|]. split; [unfold C in Hcol; lia|]. exact Hlaid.
Qed.

(** [X10] For a vector of fewer than [1073790482] neutrons,
    [initialize_neutrons] returns a vector of which exactly one half is
    alive: [2 * rows * rows] live neutrons, which is never more than the
    size asked for, and the size asked for is below
    [2 * (rows + 1) * (rows + 1)].  From [1073790482] neutrons on (and
    below [2^32]) the [int] product [oldsize * 2] overflows and the
    function has no result. *)
Theorem initialize_fills_half w :
  let size := length (neuts w) in
  let rows := grid_rows size in
  (Z.of_nat size < 1073790482 ->
   exists w', initialize_neutrons w = Some w' /\
     Z.of_nat (live_count (neuts w')) = 2 * rows * rows /\
     length (neuts w') = (2 * live_count (neuts w'))%nat /\
     2 * rows * rows <= Z.of_nat size < 2 * (rows + 1) * (rows + 1)) /\
  (1073790482 <= Z.of_nat size < 4294967296 -> initialize_neutrons w = None).
Proof.
  intros size rows.
  pose proof (initialize_neutrons_eq w) as Heq. cbn zeta in Heq.
  fold size in Heq. split.
  - intros Hs. pose proof (grid_fits_int size Hs) as Hfit.
    destruct (Z.leb_spec (2 * (grid_rows size * grid_cols size)) INT_MAX)
      as [_|Hbad]; [|lia].
    eexists. split; [exact Heq|].
    destruct (initialize_neutrons_cells _ _ Heq) as (grid & Hn & Hlen & Hcells).
    cbn zeta in Hlen, Hcells. fold size rows in Hlen, Hcells.
    unfold grid_cols in Hlen. fold size rows in Hlen.
    rewrite Hn.
    assert (Hlive : live_count grid = length grid).
    { apply live_count_all_alive. intros i p Hp.
      destruct (Hcells i p Hp) as (row & col & _ & _ & seed & s & ->).
      reflexivity. }
    rewrite live_count_app, length_app, length_replicate,
      live_count_replicate_zero, Hlive.
    split; [lia|]. split; [lia|].
    unfold rows. rewrite (grid_rows_isqrt size) by lia.
    assert (H2 : 0 <= Z.of_nat size / 2) by (apply Z.div_pos; lia).
    pose proof (Z.sqrt_spec (Z.of_nat size / 2) H2) as Hsq. cbn zeta in Hsq.
    pose proof (Z.div_mod (Z.of_nat size) 2 ltac:(lia)) as Hd.
    pose proof (Z.mod_pos_bound (Z.of_nat size) 2 ltac:(lia)) as Hm.
    set (r := Z.sqrt (Z.of_nat size / 2)) in *.
    set (h := Z.of_nat size / 2) in *. set (m := Z.of_nat size mod 2) in *.
    set (z := Z.of_nat size) in *.
    clearbody r h m z. clear - Hsq Hd Hm. nia.
  - intros Hs. pose proof (grid_overflows_int size Hs) as Hover.
    destruct (Z.leb_spec (2 * (grid_rows size * grid_cols size)) INT_MAX)
      as [Hbad|_]; [lia|exact Heq].
Qed.

(** [X11] On a platform whose [rand] is never negative, no live neutron of
    the vector that [initialize_neutrons] returns has a nearly white
    tag, and all its channels are within [0, 255]. *)
Theorem initialize_tags_not_near_white w w' :
  rand_in_range P ->
  initialize_neutrons w = Some w' ->
  forall i p, neuts w' !! i = Some p -> Neutron.alive p = true ->
    is_uchar (Color.r (Neutron.c p)) /\ is_uchar (Color.g (Neutron.c p)) /\
    is_uchar (Color.b (Neutron.c p)) /\ near_white (Neutron.c p) = false.
Proof.
  intros HR Hw i p Hp Ha.
  destruct (initialize_neutrons_cells _ _ Hw) as (grid & Hn & Hlen & Hcells).
  rewrite Hn in Hp.
  apply lookup_app_Some in Hp. destruct Hp as [Hp|[_ Hp]].
  - destruct (Hcells i p Hp) as (row & col & _ & _ & seed & s & ->).
    apply (random_color_safe s HR).
  - apply lookup_replicate in Hp. destruct Hp as [-> _]. discriminate Ha.
Qed.

(** [X12] For a vector of fewer than [2^32] neutrons, every live neutron
    that [initialize_neutrons] returns lies inside the window: its [x] is
    in [0, WIDTH), its [y] in [0, HEIGHT), and its [z] is [0]. *)
Theorem initialize_places_inside_window w w' :
  Z.of_nat (length (neuts w)) < 4294967296 ->
  initialize_neutrons w = Some w' ->
  forall i p, neuts w' !! i = Some p -> Neutron.alive p = true ->
    (0 <=? Position.x (Neutron.r p))%float = true /\
    (Position.x (Neutron.r p) <? int_to_double WIDTH)%float = true /\
    (0 <=? Position.y (Neutron.r p))%float = true /\
    (Position.y (Neutron.r p) <? int_to_double HEIGHT)%float = true /\
    Position.z (Neutron.r p) = 0%float.
Proof.
  intros Hs Hw i p Hp Ha.
  destruct (initialize_neutrons_cells _ _ Hw) as (grid & Hn & Hlen & Hcells).
  rewrite Hn in Hp.
  apply lookup_app_Some in Hp. destruct Hp as [Hp|[_ Hp]];
    [|apply lookup_replicate in Hp; destruct Hp as [-> _]; discriminate Ha].
  destruct (Hcells i p Hp) as (row & col & Hrow & Hcol & seed & s & ->).
  cbn [Neutron.r grid_position Position.x Position.y Position.z].
  pose proof (grid_rows_nonneg (length (neuts w))) as Hr0.
  assert (Hr : grid_rows (length (neuts w)) < 65536).
  { rewrite (grid_rows_isqrt _ Hs).
    apply Z.sqrt_lt_square; [apply Z.div_pos; lia|lia|].
    apply Z.div_lt_upper_bound; lia. }
  unfold grid_cols in *.
  set (rows := grid_rows (length (neuts w))) in *. clearbody rows.
  pose proof (coordinate_inside_grid WIDTH (2 * rows) (Z.of_nat col) grid_inside_WIDTH
                eq_refl eq_refl ltac:(lia) ltac:(unfold RAND_MAX; lia)) as Hx.
  pose proof (coordinate_inside_grid HEIGHT rows (Z.of_nat row) grid_inside_HEIGHT
                eq_refl eq_refl ltac:(lia) ltac:(unfold RAND_MAX; lia)) as Hy.
  unfold coordinate_inside in Hx, Hy.
  apply andb_prop in Hx, Hy. destruct Hx as [Hx0 Hx1], Hy as [Hy0 Hy1].
  auto.
Qed.

Lemma initialize_none_due w w' :
  initialize_neutrons w = Some w' -> due_count (neuts w') = 0%nat.
Proof.
  intros Hw.
  destruct (initialize_neutrons_cells _ _ Hw) as (grid & Hn & _ & Hcells).
  rewrite Hn.
  rewrite due_count_app, due_count_replicate_zero, Nat.add_0_r.
  apply due_count_zero. intros i p Hp.
  destruct (Hcells i p Hp) as (row & col & _ & _ & seed & s & ->). reflexivity.
Qed.

(** [X13] No neutron of the vector that [initialize_neutrons] returns is
    due for a collision, so the first tick after it only moves the live
    neutrons, and draws no random number. *)
Theorem first_tick_only_moves fuel dt w w1 :
  initialize_neutrons w = Some w1 -> (length (neuts w1) <= fuel)%nat ->
  due_count (neuts w1) = 0%nat /\
  move_neutrons fuel dt w1 = Some (set_neuts (map (moved dt) (neuts w1)) w1).
Proof.
  intros Hw Hf. pose proof (initialize_none_due w w1 Hw) as Hd.
  split; [exact Hd|].
  apply (move_loop_quiet dt (neuts w1) [] fuel w1); auto.
Qed.

Lemma live_count_moved dt l : live_count (map (moved dt) l) = live_count l.
Proof.
  induction l as [|n l IH]; [reflexivity|]. cbn [map live_count]. rewrite IH.
  unfold moved. destruct (Neutron.alive n) eqn:Ha; [|rewrite Ha; reflexivity].
  change (Neutron.alive (move_one dt n)) with (Neutron.alive n).
  rewrite Ha. reflexivity.
Qed.

Lemma due_count_moved dt l :
  (forall i p, l !! i = Some p -> Neutron.alive p = true ->
     Neutron.distance_to_collision p = 0%float) ->
  (0 - vel * dt <? 0)%float = true ->
  due_count (map (moved dt) l) = live_count l.
Proof.
  intros Hl Hdt. induction l as [|n l IH]; [reflexivity|].
  cbn [map due_count live_count].
  rewrite IH by (intros i p Hp; apply (Hl (S i) p Hp)).
  unfold moved, collides. destruct (Neutron.alive n) eqn:Ha.
  - change (Neutron.alive (move_one dt n)) with (Neutron.alive n).
    change (Neutron.distance_to_collision (move_one dt n))
      with (Neutron.distance_to_collision n - vel * dt)%float.
    rewrite Ha, (Hl 0%nat n eq_refl Ha), Hdt. reflexivity.
  - rewrite Ha. reflexivity.
Qed.

(** [X19] The neutrons of the grid start with a distance of zero, so after
    the first tick, with any time step that takes them below zero (the
    one of [main] does), every live neutron is due for a collision: the
    second tick resolves a collision for each of them. *)
Theorem every_neutron_due_after_first_tick fuel dt w w1 :
  initialize_neutrons w = Some w1 -> (length (neuts w1) <= fuel)%nat ->
  (0 - vel * dt <? 0)%float = true ->
  exists w2, move_neutrons fuel dt w1 = Some w2 /\
    live_count (neuts w2) = live_count (neuts w1) /\
    due_count (neuts w2) = live_count (neuts w2).
Proof.
  intros Hw Hf Hdt. pose proof (initialize_none_due w w1 Hw) as Hd.
  eexists. split; [apply (move_loop_quiet dt (neuts w1) [] fuel w1); auto|].
  cbn [neuts set_neuts app]. rewrite live_count_moved. split; [reflexivity|].
  apply due_count_moved; [|exact Hdt].
  destruct (initialize_neutrons_cells _ _ Hw) as (grid & Hn & _ & Hcells).
  rewrite Hn.
  intros i p Hp Ha. apply lookup_app_Some in Hp. destruct Hp as [Hp|[_ Hp]].
  - destruct (Hcells i p Hp) as (row & col & _ & _ & seed & s & ->). reflexivity.
  - apply lookup_replicate in Hp. destruct Hp as [-> _]. reflexivity.
Qed.

End Grid.

(** ** [draw_neutrons] *)

Lemma wrap_position_in_window posx posy r :
  Z.quot NEUT_SIZE 2 <= posx <= WIDTH - Z.quot NEUT_SIZE 2 ->
  Z.quot NEUT_SIZE 2 <= posy <= HEIGHT - Z.quot NEUT_SIZE 2 ->
  wrap_position posx posy r = r.
Proof.
  intros Hx Hy. unfold wrap_position.
  destruct (Z.ltb_spec posx (Z.quot NEUT_SIZE 2)); [lia|].
  destruct (Z.ltb_spec posy (Z.quot NEUT_SIZE 2)); [lia|].
  destruct (Z.ltb_spec (WIDTH - Z.quot NEUT_SIZE 2) posx); [lia|].
  destruct (Z.ltb_spec (HEIGHT - Z.quot NEUT_SIZE 2) posy); [lia|].
  reflexivity.
Qed.

Lemma wrap_position_spec r :
  let r' := wrap_position (double_to_int (Position.x r))
                          (double_to_int (Position.y r)) r in
  in_window r' /\ Position.z r' = Position.z r /\
  (fits_int (Position.x r) = true -> fits_int (Position.x r') = true) /\
  (fits_int (Position.y r) = true -> fits_int (Position.y r') = true).
Proof.
  destruct r as [x y z]. unfold wrap_position, in_window. cbn [Position.x Position.y Position.z].
  change (Z.quot NEUT_SIZE 2) with 1. change (WIDTH - NEUT_SIZE) with 1917.
  change (HEIGHT - NEUT_SIZE) with 1077. change (WIDTH - 1) with 1919.
  change (HEIGHT - 1) with 1079.
  assert (E1 : double_to_int (int_to_double 1917) = 1917) by reflexivity.
  assert (E2 : double_to_int (int_to_double 1077) = 1077) by reflexivity.
  assert (E3 : double_to_int (int_to_double 1) = 1) by reflexivity.
  assert (F1 : fits_int (int_to_double 1917) = true) by reflexivity.
  assert (F2 : fits_int (int_to_double 1077) = true) by reflexivity.
  assert (F3 : fits_int (int_to_double 1) = true) by reflexivity.
  generalize dependent (int_to_double 1917). intros a1 E1 F1.
  generalize dependent (int_to_double 1077). intros a2 E2 F2.
  generalize dependent (int_to_double 1). intros a3 E3 F3.
  destruct (Z.ltb_spec (double_to_int x) 1), (Z.ltb_spec (double_to_int y) 1),
    (Z.ltb_spec 1919 (double_to_int x)), (Z.ltb_spec 1079 (double_to_int y));
    cbn [Position.x Position.y Position.z]; try lia;
    (split; [lia|split; [reflexivity|split; intros; assumption]]).
Qed.

Lemma draw_neutrons_lookup l i :
  fst (draw_neutrons l) !! i = (fun n => fst (draw_neutron n)) <$> l !! i.
Proof.
  revert i. induction l as [|n l IH]; intros [|i]; simpl; try reflexivity.
  apply IH.
Qed.

Lemma draw_neutron_dead n :
  Neutron.alive n = false -> draw_neutron n = (n, []).
Proof. intros H. unfold draw_neutron. rewrite H. reflexivity. Qed.

Lemma draw_neutron_alive n :
  Neutron.alive n = true ->
  draw_neutron n =
    (Neutron.with_r (wrap_position (double_to_int (Position.x (Neutron.r n)))
                                   (double_to_int (Position.y (Neutron.r n)))
                                   (Neutron.r n)) n,
     draw_block (double_to_int (Position.x (Neutron.r n)))
                (double_to_int (Position.y (Neutron.r n))) (Neutron.c n)).
Proof. intros H. unfold draw_neutron. rewrite H. reflexivity. Qed.

Lemma draw_neutron_fields n :
  Neutron.alive (fst (draw_neutron n)) = Neutron.alive n /\
  Neutron.c (fst (draw_neutron n)) = Neutron.c n /\
  Neutron.u (fst (draw_neutron n)) = Neutron.u n /\
  Neutron.distance_to_collision (fst (draw_neutron n))
    = Neutron.distance_to_collision n.
Proof.
  unfold draw_neutron. destruct (Neutron.alive n) eqn:E; cbn [negb fst Neutron.with_r
    Neutron.alive Neutron.c Neutron.u Neutron.distance_to_collision]; auto.
Qed.

Lemma draw_neutron_in_window n :
  in_window (Neutron.r n) -> fst (draw_neutron n) = n.
Proof.
  intros [Hx Hy]. unfold draw_neutron.
  destruct (Neutron.alive n); [|reflexivity]. cbn [negb fst].
  rewrite wrap_position_in_window by assumption. destruct n; reflexivity.
Qed.

Lemma draw_neutron_lands n :
  Neutron.alive n = true -> in_window (Neutron.r (fst (draw_neutron n))).
Proof.
  intros Ha. rewrite (draw_neutron_alive n Ha). cbn [fst Neutron.with_r Neutron.r].
  apply wrap_position_spec.
Qed.

(** [X14] [draw_neutrons] leaves every live neutron whose coordinates
    convert to [int] at a position whose pixel is inside the window, with
    [1 <= posx <= WIDTH - 1] and [1 <= posy <= HEIGHT - 1]; it changes
    nothing of the neutron but [r.x] and [r.y], and nothing at all when
    the pixel was inside the window already. *)
Theorem draw_wraps_into_window l i n :
  l !! i = Some n -> Neutron.alive n = true -> drawable n ->
  exists p, fst (draw_neutrons l) !! i = Some p /\
    in_window (Neutron.r p) /\ drawable p /\
    p = Neutron.with_r (Neutron.r p) n /\
    Position.z (Neutron.r p) = Position.z (Neutron.r n) /\
    (in_window (Neutron.r n) -> p = n).
Proof.
  intros Hi Ha [Dx Dy]. eexists. rewrite draw_neutrons_lookup, Hi.
  split; [reflexivity|]. cbn [fst].
  rewrite draw_neutron_alive by assumption. cbn [fst].
  destruct (wrap_position_spec (Neutron.r n)) as (Hw & Hz & Fx & Fy).
  cbn zeta in Hw, Hz, Fx, Fy.
  cbn [Neutron.with_r Neutron.r].
  split; [exact Hw|]. split; [split; cbn [Neutron.with_r Neutron.r]; auto|].
  split; [reflexivity|]. split; [exact Hz|].
  intros [Hx Hy]. rewrite wrap_position_in_window by assumption.
  destruct n; reflexivity.
Qed.

Lemma live_count_draw l : live_count (fst (draw_neutrons l)) = live_count l.
Proof.
  induction l as [|n l IH]; [reflexivity|]. simpl.
  destruct (draw_neutron_fields n) as (-> & _). rewrite IH. reflexivity.
Qed.

Lemma draw_neutrons_length l : length (fst (draw_neutrons l)) = length l.
Proof. induction l as [|n l IH]; simpl; congruence. Qed.

(** [X15] [draw_neutrons] keeps the length of the vector and the number
    of live neutrons; of every neutron it keeps the alive flag, the tag,
    the direction and the distance; and it leaves a dead neutron as it
    is. *)
Theorem draw_keeps_population l :
  length (fst (draw_neutrons l)) = length l /\
  live_count (fst (draw_neutrons l)) = live_count l /\
  forall i n, l !! i = Some n ->
    exists p, fst (draw_neutrons l) !! i = Some p /\
      Neutron.alive p = Neutron.alive n /\ Neutron.c p = Neutron.c n /\
      Neutron.u p = Neutron.u n /\
      Neutron.distance_to_collision p = Neutron.distance_to_collision n /\
      (Neutron.alive n = false -> p = n).
Proof.
  split; [apply draw_neutrons_length|]. split; [apply live_count_draw|].
  intros i n Hi. eexists. rewrite draw_neutrons_lookup, Hi.
  split; [reflexivity|]. cbn [fst].
  destruct (draw_neutron_fields n) as (Ha & Hc & Hu & Hd).
  repeat (split; [assumption|]).
  intros Hdead. rewrite draw_neutron_dead by assumption. reflexivity.
Qed.

Lemma draw_neutron_twice n :
  drawable n -> fst (draw_neutron (fst (draw_neutron n))) = fst (draw_neutron n).
Proof.
  intros _. destruct (Neutron.alive n) eqn:Ha.
  - rewrite (draw_neutron_alive n Ha). cbn [fst].
    apply draw_neutron_in_window. cbn [Neutron.with_r Neutron.r].
    apply wrap_position_spec.
  - rewrite (draw_neutron_dead n Ha). cbn [fst].
    rewrite (draw_neutron_dead n Ha). reflexivity.
Qed.

(** [X16] Drawing twice leaves the vector that drawing once leaves: a
    position that has been wrapped is not wrapped again. *)
Theorem draw_twice_is_draw_once l :
  Forall drawable l ->
  fst (draw_neutrons (fst (draw_neutrons l))) = fst (draw_neutrons l).
Proof.
  induction 1 as [|n l Hn _ IH]; [reflexivity|]. simpl.
  rewrite draw_neutron_twice by assumption. rewrite IH. reflexivity.
Qed.

Lemma draw_block_length posx posy c : length (draw_block posx posy c) = 9%nat.
Proof. reflexivity. Qed.

Lemma draw_block_elem posx posy c pt :
  pt ∈ draw_block posx posy c ->
  point_color pt = c /\ point_alpha pt = 180 /\
  posx - 1 <= point_x pt <= posx + 1 /\ posy - 1 <= point_y pt <= posy + 1.
Proof.
  unfold draw_block. change (seqZ 0 NEUT_SIZE) with [0; 1; 2]. simpl.
  rewrite !elem_of_cons, elem_of_nil.
  intros H. repeat (destruct H as [->|H]; [cbn; repeat split; lia|]).
  destruct H.
Qed.

Lemma draw_block_centre posx posy c :
  mkPoint posx posy c 180 ∈ draw_block posx posy c.
Proof.
  unfold draw_block. change (seqZ 0 NEUT_SIZE) with [0; 1; 2]. simpl.
  replace (posx - 1 + 1) with posx by lia.
  replace (posy - 1 + 1) with posy by lia.
  rewrite !elem_of_cons. do 4 right. left. reflexivity.
Qed.

Lemma draw_neutrons_points_length l :
  length (snd (draw_neutrons l)) = (9 * live_count l)%nat.
Proof.
  induction l as [|n l IH]; [reflexivity|]. simpl.
  rewrite length_app, IH. unfold draw_neutron.
  destruct (Neutron.alive n); cbn [negb snd]; [rewrite draw_block_length|simpl]; lia.
Qed.

Lemma draw_neutrons_points_elem l pt :
  pt ∈ snd (draw_neutrons l) <->
  exists i n, l !! i = Some n /\ Neutron.alive n = true /\
    pt ∈ draw_block (double_to_int (Position.x (Neutron.r n)))
                    (double_to_int (Position.y (Neutron.r n))) (Neutron.c n).
Proof.
  induction l as [|n l IH]; simpl.
  - rewrite elem_of_nil. split; [tauto|]. intros (i & n & H & _). destruct i; discriminate.
  - rewrite elem_of_app, IH. split.
    + intros [H|(i & m & Hi & Ha & Hp)].
      * exists 0%nat, n. unfold draw_neutron in H.
        destruct (Neutron.alive n); cbn [negb snd] in H.
        -- auto.
        -- apply elem_of_nil in H. destruct H.
      * exists (S i), m. auto.
    + intros ([|i] & m & Hi & Ha & Hp).
      * injection Hi as ->. left. rewrite draw_neutron_alive by assumption. exact Hp.
      * right. exists i, m. auto.
Qed.

(** [X17] When the pixel arithmetic of every live neutron stays within
    [int], [draw_neutrons] draws nine points for every live neutron and
    none for a dead one; every point has [int] coordinates, the tag of a
    live neutron as its colour, an alpha of [180], and lies within one
    pixel of the position that neutron had before the call, which is
    itself drawn. *)
Theorem draw_paints_live_neutrons l :
  (forall i n, l !! i = Some n -> Neutron.alive n = true -> paintable n) ->
  length (snd (draw_neutrons l)) = (9 * live_count l)%nat /\
  (forall pt, pt ∈ snd (draw_neutrons l) ->
     exists i n, l !! i = Some n /\ Neutron.alive n = true /\
       point_color pt = Neutron.c n /\ point_alpha pt = 180 /\
       INT_MIN <= point_x pt <= INT_MAX /\
       INT_MIN <= point_y pt <= INT_MAX /\
       double_to_int (Position.x (Neutron.r n)) - 1 <= point_x pt
         <= double_to_int (Position.x (Neutron.r n)) + 1 /\
       double_to_int (Position.y (Neutron.r n)) - 1 <= point_y pt
         <= double_to_int (Position.y (Neutron.r n)) + 1) /\
  (forall i n, l !! i = Some n -> Neutron.alive n = true ->
     mkPoint (double_to_int (Position.x (Neutron.r n)))
             (double_to_int (Position.y (Neutron.r n))) (Neutron.c n) 180
       ∈ snd (draw_neutrons l)).
Proof.
  intros Hpaint. split; [apply draw_neutrons_points_length|]. split.
  - intros pt Hpt. apply draw_neutrons_points_elem in Hpt.
    destruct Hpt as (i & n & Hi & Ha & Hp). exists i, n.
    apply draw_block_elem in Hp.
    destruct (Hpaint i n Hi Ha) as (_ & Hx & Hy).
    repeat split; try tauto; lia.
  - intros i n Hi Ha. apply draw_neutrons_points_elem. exists i, n.
    split; [assumption|]. split; [assumption|]. apply draw_block_centre.
Qed.

(** ** A frame of [main] *)

Section Frame.
Context {P : Platform}.

(** [X18] A frame of [main], [move_neutrons] and then [draw_neutrons]:
    the generator states, the length and the number of live neutrons are
    those the tick left; nine points are drawn for every live neutron;
    and, when the positions the tick left convert to [int], every live
    neutron is left at a pixel inside the window. *)
Theorem frame_leaves_live_neutrons_in_window fuel w wm :
  move_neutrons fuel tick_dt w = Some wm -> Forall drawable (neuts wm) ->
  exists w' pts, frame fuel w = Some (w', pts) /\
    rand_st w' = rand_st wm /\ dir_seed w' = dir_seed wm /\
    length (neuts w') = length (neuts wm) /\
    live_count (neuts w') = live_count (neuts wm) /\
    length pts = (9 * live_count (neuts w'))%nat /\
    forall i p, neuts w' !! i = Some p -> Neutron.alive p = true ->
      in_window (Neutron.r p).
Proof.
  intros Hm _. unfold frame. rewrite Hm. cbn [mbind option_bind].
  eexists _, _. split; [reflexivity|]. cbn [neuts rand_st dir_seed set_neuts].
  split; [reflexivity|]. split; [reflexivity|].
  split; [apply draw_neutrons_length|].
  split; [apply live_count_draw|].
  split; [rewrite live_count_draw; apply draw_neutrons_points_length|].
  intros i p Hp Ha. rewrite draw_neutrons_lookup in Hp.
  destruct (neuts wm !! i) as [n|]; [|discriminate Hp].
  injection Hp as <-. apply draw_neutron_lands.
  destruct (draw_neutron_fields n) as (<- & _). exact Ha.
Qed.

End Frame.

(** ** The whole of [main] *)

Section Main.
Context {P : Platform}.
Implicit Types (w : World) (n p : Neutron.t) (l : list Neutron.t).







End Main.


(** * The program on the scripted platform *)

Lemma scripted_in_range draws :
  script_in_range draws = true -> rand_in_range (scripted draws).
Proof.
  intros H i. cbn [rand scripted fst].
  unfold script_in_range in H. rewrite forallb_forall in H.
  destruct (nth_in_or_default i draws 0) as [Hin| ->].
  - specialize (H _ Hin). apply andb_prop in H. lia.
  - unfold RAND_MAX. lia.
Qed.

Lemma scripted_log_sign_law draws : log_sign_law (scripted draws).
Proof.
  intros y Hy. cbn [flog scripted]. unfold sign_log. rewrite Hy.
  destruct (y =? 1)%float; reflexivity.
Qed.

(** The end-to-end scenario of the specification: two neutrons requested,
    one row of two, four slots; the spacings are [1920 / 3 = 640] and
    [1080 / 2 = 540], so the two live neutrons sit at [x = 320] and
    [x = 960], at [y = 270]. *)
Example initialize_two :
  (neuts <$> initialize (P := scripted [100; 200; 300; 5; 6; 7]) 2 0%nat 0)
  = Some [ {| Neutron.r := Position.mk 320 270 0;
              Neutron.u := Position.mk 1 0 0;
              Neutron.distance_to_collision := 0%float;
              Neutron.alive := true;
              Neutron.c := Color.mk 100 200 44 |};
           {| Neutron.r := Position.mk 960 270 0;
              Neutron.u := Position.mk 0 1 0;
              Neutron.distance_to_collision := 0%float;
              Neutron.alive := true;
              Neutron.c := Color.mk 5 6 7 |};
           Neutron.zero; Neutron.zero ].
Proof. vm_compute. reflexivity. Qed.

(** One tick of a vector with no dead slot in which the only neutron
    fissions into three: the two secondaries are pushed back, and the same
    tick moves them, each along its own direction. *)
Example tick_of_crowded_world :
  (neuts <$> move_neutrons 9 tick_dt crowded_world)
  = Some [ {| Neutron.r := Position.mk 102 200 0;
              Neutron.u := Position.mk 1 0 0;
              Neutron.distance_to_collision := 1.2967032967032965%float;
              Neutron.alive := true;
              Neutron.c := Color.mk 10 20 30 |};
           {| Neutron.r := Position.mk 102 200 0;
              Neutron.u := Position.mk 1 0 0;
              Neutron.distance_to_collision := 1.2967032967032965%float;
              Neutron.alive := true;
              Neutron.c := Color.mk 10 20 30 |};
           {| Neutron.r := Position.mk 100 202 0;
              Neutron.u := Position.mk 0 1 0;
              Neutron.distance_to_collision := 1.2967032967032965%float;
              Neutron.alive := true;
              Neutron.c := Color.mk 10 20 30 |} ].
Proof. vm_compute. reflexivity. Qed.

(** ** The theorems at these worlds *)

Lemma capture_removes_one_witness :
  (Neutron.distance_to_collision due_neutron <? 0)%float = true /\
  (next_randf capture_world <? sig_c / sig_t)%float = true /\
  live_count (neuts capture_world) = 1%nat /\
  live_count (neuts (step_neutron tick_dt 0 capture_world)) = 0%nat.
Proof.
  pose proof (capture_removes_one tick_dt 0 capture_world due_neutron
                eq_refl eq_refl eq_refl eq_refl) as (_ & _ & _ & H).
  repeat (split; [reflexivity|]).
  change (live_count (neuts capture_world)) with 1%nat in H. lia.
Defined.

Lemma collision_iff_distance_negative_witness :
  neuts fresh_world !! 0%nat = Some fresh_neutron /\
  Neutron.alive fresh_neutron = true /\
  (Neutron.distance_to_collision fresh_neutron =? 0)%float = true /\
  step_neutron tick_dt 0 fresh_world = advance tick_dt 0 fresh_world /\
  rand_st (step_neutron tick_dt 0 fresh_world) = rand_st fresh_world.
Proof.
  pose proof (collision_iff_distance_negative tick_dt 0 fresh_world
                fresh_neutron eq_refl eq_refl) as (_ & _ & H).
  destruct (H eq_refl) as (H1 & _ & H3 & _).
  repeat (split; [reflexivity|]). split; assumption.
Defined.

Lemma secondary_takes_lowest_dead_slot_witness :
  neuts fission_world !! 0%nat = Some due_neutron /\
  lowest_dead 1 (neuts fission_world) /\
  neuts (spawn_secondary 0 fission_world)
  = [due_neutron; reused_secondary due_neutron fission_world].
Proof.
  pose proof (secondary_takes_lowest_dead_slot 0 fission_world due_neutron
                eq_refl) as (H & _).
  assert (Hlow : lowest_dead 1 (neuts fission_world))
    by (apply find_dead_slot_Some; reflexivity).
  split; [reflexivity|]. split; [exact Hlow|].
  rewrite (H 1%nat Hlow). reflexivity.
Defined.

Lemma captured_neutron_still_moves_witness :
  (next_randf capture_world <? sig_c / sig_t)%float = true /\
  Neutron.r due_neutron = Position.mk 100 200 0 /\
  neuts (step_neutron tick_dt 0 capture_world) !! 0%nat =
    Some {| Neutron.r := Position.mk 102 200 0;
            Neutron.u := Position.mk 1 0 0;
            Neutron.distance_to_collision := 1.2967032967032965%float;
            Neutron.alive := false;
            Neutron.c := Color.mk 10 20 30 |}.
Proof.
  pose proof (captured_neutron_still_moves tick_dt 0 capture_world due_neutron
                eq_refl eq_refl eq_refl eq_refl) as H.
  cbv zeta in H. destruct H as [H _].
  repeat (split; [reflexivity|]). rewrite H. vm_compute. reflexivity.
Defined.

Lemma tick_never_shrinks_witness :
  exists w', move_neutrons 9 tick_dt crowded_world = Some w' /\
    length (neuts crowded_world) = 1%nat /\
    (length (neuts crowded_world) <= length (neuts w'))%nat.
Proof.
  eexists. split; [vm_compute; reflexivity|]. split; [reflexivity|].
  eapply (tick_never_shrinks 9 tick_dt crowded_world).
  vm_compute. reflexivity.
Defined.


Lemma degenerate_count_gives_empty_grid_witness :
  (length (neuts (world_of [] [Neutron.zero])) <= 1)%nat /\
  initialize_neutrons (world_of [] [Neutron.zero])
  = Some (world_of [] []).
Proof.
  assert (H : (length (neuts (world_of [] [Neutron.zero])) <= 1)%nat)
    by (cbn; lia).
  split; [exact H|].
  destruct (degenerate_count_gives_empty_grid (world_of [] [Neutron.zero]) H)
    as (_ & _ & _ & _ & Hinit).
  exact Hinit.
Defined.

(** [C9], as the specification has it, fails: requested one neutron, the
    program computes a grid of no row and no column, does not raise it to
    one, and returns the empty vector. *)
Lemma zero_row_grid_gets_no_floor :
  grid_rows 1 = 0 /\ grid_cols 1 = 0 /\
  initialize (P := scripted []) 1 0%nat 0 = Some (world_of [] []).
Proof. repeat split. Qed.

(** ** The further properties at these worlds *)

Lemma randf_in_unit_interval_witness :
  rand_in_range (scripted ends_script) /\
  fst (randf (P := scripted ends_script) 0%nat) = 0%float /\
  fst (randf (P := scripted ends_script) 1%nat) = 1%float /\
  (0 <=? fst (randf (P := scripted ends_script) 0%nat))%float = true /\
  (fst (randf (P := scripted ends_script) 1%nat) <=? 1)%float = true.
Proof.
  pose proof (scripted_in_range ends_script eq_refl) as HR.
  destruct (randf_in_unit_interval (P := scripted ends_script) 0%nat HR)
    as (Hlo & _ & Hzero & _).
  destruct (randf_in_unit_interval (P := scripted ends_script) 1%nat HR)
    as (_ & Hhi & _ & Hone).
  split; [exact HR|]. split; [exact (Hzero eq_refl)|].
  split; [exact (Hone eq_refl)|]. split; assumption.
Defined.

Lemma random_color_not_near_white_witness :
  rand_in_range (scripted white_script) /\
  near_white (Color.mk 255 254 253) = true /\
  random_color (P := scripted white_script) 0%nat
  = (Color.mk 255 10 253, 4%nat) /\
  near_white (fst (random_color (P := scripted white_script) 0%nat)) = false.
Proof.
  pose proof (scripted_in_range white_script eq_refl) as HR.
  pose proof (random_color_not_near_white (P := scripted white_script) 0%nat HR)
    as H.
  cbv zeta in H. destruct H as (_ & _ & _ & Hw & _ & Hdark).
  split; [exact HR|]. split; [reflexivity|].
  split; [exact (Hdark eq_refl)|exact Hw].
Defined.

Lemma tick_growth_bounded_witness :
  rand_in_range (scripted fission_script) /\
  log_sign_law (scripted fission_script) /\
  due_count (neuts crowded_world) = 1%nat /\
  exists w', move_neutrons 9 tick_dt crowded_world = Some w' /\
    (length (neuts w') <= length (neuts crowded_world) + 2 * 1)%nat.
Proof.
  pose proof (scripted_in_range fission_script eq_refl) as HR.
  pose proof (scripted_log_sign_law fission_script) as HL.
  split; [exact HR|]. split; [exact HL|]. split; [reflexivity|].
  eexists. split; [vm_compute; reflexivity|].
  eapply (tick_growth_bounded 9 tick_dt crowded_world _ HR HL).
  vm_compute. reflexivity.
Defined.

Lemma tick_population_bounded_witness :
  rand_in_range (scripted fission_script) /\
  log_sign_law (scripted fission_script) /\
  due_count (neuts crowded_world) = 1%nat /\
  exists w', move_neutrons 9 tick_dt crowded_world = Some w' /\
    (live_count (neuts crowded_world) <= live_count (neuts w') + 1)%nat /\
    (live_count (neuts w') <= live_count (neuts crowded_world) + 2 * 1)%nat.
Proof.
  pose proof (scripted_in_range fission_script eq_refl) as HR.
  pose proof (scripted_log_sign_law fission_script) as HL.
  split; [exact HR|]. split; [exact HL|]. split; [reflexivity|].
  eexists. split; [vm_compute; reflexivity|].
  eapply (tick_population_bounded 9 tick_dt crowded_world _ HR HL).
  vm_compute. reflexivity.
Defined.

Lemma spare_slots_absorb_growth_witness :
  rand_in_range (scripted fission_script) /\
  log_sign_law (scripted fission_script) /\
  (live_count (neuts roomy_world) + 2 * due_count (neuts roomy_world)
   <= length (neuts roomy_world))%nat /\
  exists w', move_neutrons 3 tick_dt roomy_world = Some w' /\
    length (neuts w') = 3%nat.
Proof.
  pose proof (scripted_in_range fission_script eq_refl) as HR.
  pose proof (scripted_log_sign_law fission_script) as HL.
  assert (Hs : (live_count (neuts roomy_world) + 2 * due_count (neuts roomy_world)
                <= length (neuts roomy_world))%nat) by (cbn; lia).
  split; [exact HR|]. split; [exact HL|]. split; [exact Hs|].
  apply (spare_slots_absorb_growth 3 tick_dt roomy_world HR HL Hs).
  cbn. lia.
Defined.

Lemma quiet_tick_only_moves_witness :
  due_count (neuts fresh_world) = 0%nat /\
  move_neutrons 1 tick_dt fresh_world
  = Some (set_neuts [move_one tick_dt fresh_neutron] fresh_world).
Proof.
  split; [reflexivity|].
  apply (quiet_tick_only_moves 1 tick_dt fresh_world eq_refl).
  cbn. lia.
Defined.


Lemma scatter_only_turns_witness :
  (next_randf scatter_world <? sig_c / sig_t)%float = false /\
  (next_randf scatter_world <? (sig_c + sig_f) / sig_t)%float = false /\
  live_count (neuts (step_neutron tick_dt 0 scatter_world)) = 1%nat /\
  rand_st (step_neutron tick_dt 0 scatter_world) = 2%nat /\
  dir_seed (step_neutron tick_dt 0 scatter_world) = 1.
Proof.
  pose proof (scatter_only_turns tick_dt 0 scatter_world due_neutron
                eq_refl eq_refl eq_refl eq_refl eq_refl) as (_ & _ & H1 & H2 & H3).
  split; [reflexivity|]. split; [reflexivity|].
  split; [rewrite H1; reflexivity|]. split; [rewrite H2; reflexivity|].
  rewrite H3. reflexivity.
Defined.

Lemma initialize_tags_not_near_white_witness :
  rand_in_range (scripted [100; 200; 300; 5; 6; 7]) /\
  exists w', initialize_neutrons two_world = Some w' /\
    forall i p, neuts w' !! i = Some p -> Neutron.alive p = true ->
      near_white (Neutron.c p) = false.
Proof.
  pose proof (scripted_in_range [100; 200; 300; 5; 6; 7] eq_refl) as HR.
  split; [exact HR|].
  eexists. split; [vm_compute; reflexivity|].
  intros i p Hp Ha.
  eapply (initialize_tags_not_near_white two_world _ HR); [|exact Hp|exact Ha].
  vm_compute. reflexivity.
Defined.

Lemma initialize_places_inside_window_witness :
  Z.of_nat (length (neuts two_world)) < 4294967296 /\
  exists w', initialize_neutrons two_world = Some w' /\
    forall i p, neuts w' !! i = Some p -> Neutron.alive p = true ->
      (Position.x (Neutron.r p) <? int_to_double WIDTH)%float = true.
Proof.
  assert (Hs : Z.of_nat (length (neuts two_world)) < 4294967296) by (cbn; lia).
  split; [exact Hs|].
  eexists. split; [vm_compute; reflexivity|].
  intros i p Hp Ha.
  eapply (initialize_places_inside_window two_world _ Hs); [|exact Hp|exact Ha].
  vm_compute. reflexivity.
Defined.

Lemma first_tick_only_moves_witness :
  exists w1, initialize_neutrons two_world = Some w1 /\
    length (neuts w1) = 4%nat /\
    move_neutrons 4 tick_dt w1
    = Some (set_neuts (map (moved tick_dt) (neuts w1)) w1).
Proof.
  eexists. split; [vm_compute; reflexivity|]. split; [reflexivity|].
  eapply (first_tick_only_moves 4 tick_dt two_world).
  - vm_compute. reflexivity.
  - cbn. lia.
Defined.

Lemma draw_wraps_into_window_witness :
  strays !! 0%nat = Some stray_neutron /\
  drawable stray_neutron /\
  exists p, fst (draw_neutrons strays) !! 0%nat = Some p /\
    Neutron.r p = Position.mk 1917 1 0 /\ in_window (Neutron.r p).
Proof.
  assert (Hd : drawable stray_neutron) by (split; reflexivity).
  split; [reflexivity|]. split; [exact Hd|].
  destruct (draw_wraps_into_window strays 0 stray_neutron eq_refl eq_refl Hd)
    as (p & Hp & Hw & _).
  exists p. split; [exact Hp|]. split; [|exact Hw].
  vm_compute in Hp. injection Hp as <-. reflexivity.
Defined.

Lemma draw_twice_is_draw_once_witness :
  Forall drawable strays /\
  fst (draw_neutrons (fst (draw_neutrons strays))) = fst (draw_neutrons strays).
Proof.
  assert (Hd : Forall drawable strays)
    by (repeat constructor; reflexivity).
  split; [exact Hd|]. apply (draw_twice_is_draw_once strays Hd).
Defined.

Lemma frame_leaves_live_neutrons_in_window_witness :
  exists wm, move_neutrons 9 tick_dt crowded_world = Some wm /\
    Forall drawable (neuts wm) /\
    exists w' pts, frame 9 crowded_world = Some (w', pts) /\
      length pts = 27%nat /\
      forall i p, neuts w' !! i = Some p -> Neutron.alive p = true ->
        in_window (Neutron.r p).
Proof.
  eexists. split; [vm_compute; reflexivity|].
  match goal with |- Forall drawable (neuts ?wm) /\ _ =>
    assert (Hd : Forall drawable (neuts wm))
      by (repeat constructor; reflexivity);
    destruct (frame_leaves_live_neutrons_in_window 9 crowded_world wm
                ltac:(vm_compute; reflexivity) Hd)
      as (w' & pts & Hf & _ & _ & _ & Hl & Hp & Hw)
  end.
  split; [exact Hd|]. exists w', pts. split; [exact Hf|]. split; [|exact Hw].
  vm_compute in Hf. injection Hf as <- <-. reflexivity.
Defined.

Lemma move_neutrons_terminates_witness :
  rand_in_range (scripted fission_script) /\
  log_sign_law (scripted fission_script) /\
  is_Some (move_neutrons 3 tick_dt crowded_world).
Proof.
  pose proof (scripted_in_range fission_script eq_refl) as HR.
  pose proof (scripted_log_sign_law fission_script) as HL.
  split; [exact HR|]. split; [exact HL|].
  apply (move_neutrons_terminates tick_dt crowded_world HR HL).
Defined.

Lemma every_neutron_due_after_first_tick_witness :
  (0 - vel * tick_dt <? 0)%float = true /\
  exists w1 w2, initialize_neutrons two_world = Some w1 /\
    move_neutrons 4 tick_dt w1 = Some w2 /\
    live_count (neuts w2) = 2%nat /\ due_count (neuts w2) = 2%nat.
Proof.
  split; [reflexivity|].
  eexists. 
  match goal with |- exists w2, ?I = Some ?w1 /\ _ =>
    assert (Hi : I = Some w1) by (vm_compute; reflexivity);
    destruct (every_neutron_due_after_first_tick 4 tick_dt two_world w1 Hi
                ltac:(cbn; lia) eq_refl) as (w2 & Hm & Hl & Hd)
  end.
  exists w2. split; [exact Hi|]. split; [exact Hm|].
  rewrite Hd, Hl. split; reflexivity.
Defined.


(** ** The grid of two neutrons *)

Lemma initialize_lays_out_grid_witness :
  Z.of_nat (length (neuts two_world)) < 1073790482 /\
  grid_rows 2 = 1 /\ grid_cols 2 = 2 /\
  exists w', initialize_neutrons two_world = Some w' /\
    Z.of_nat (length (neuts w')) = 4 /\
    exists p, neuts w' !! 1%nat = Some p /\
      Neutron.r p = Position.mk 960 270 0 /\
      (640 + 640 / 2.0 <=? 1920 - Position.x (Neutron.r p))%float = true.
Proof.
  assert (Hs : Z.of_nat (length (neuts two_world)) < 1073790482) by (cbn; lia).
  split; [exact Hs|]. split; [reflexivity|]. split; [reflexivity|].
  pose proof (initialize_lays_out_grid two_world) as H. cbv zeta in H.
  destruct (H Hs) as (_ & _ & _ & w' & Hw' & Hlen & Hlive & _).
  exists w'. split; [exact Hw'|]. split; [exact Hlen|].
  destruct (Hlive 1%nat ltac:(vm_compute; reflexivity))
    as (p & Hp & _ & _ & Hr & _ & Hfar & _).
  exists p. split; [exact Hp|]. split; [rewrite Hr; reflexivity|exact Hfar].
Defined.

(** [C4], as the specification has it, fails: requested two neutrons, the
    program spaces the columns by [1920 / 3 = 640] and puts them at
    [x = 320] and [x = 960], so the right margin is [960], one and a half
    spacings, and no neutron lies half a spacing from the right edge. *)
Lemma right_margin_is_wider : ~ margins_of_half_spacing.
Proof.
  intros H.
  pose proof (initialize_two
              : neuts <$> initialize_neutrons two_world = Some _) as Hn.
  destruct (initialize_neutrons two_world) as [w'|] eqn:Hw'; [|discriminate Hn].
  cbn [fmap option_fmap option_map] in Hn. injection Hn as Hn.
  specialize (H _ two_world w' ltac:(cbn; lia) Hw'). cbv zeta in H.
  destruct H as (i & p & Hp & Ha & Hm). rewrite Hn in Hp.
  destruct i as [|[|[|[|i]]]]; cbn in Hp; try discriminate Hp;
    injection Hp as <-; vm_compute in Hm, Ha; discriminate.
Qed.

(** ** The reference [n] at a full vector *)

Lemma fission_at_full_vector_skips_resample_witness :
  (next_randf fission_world <? sig_c / sig_t)%float = false /\
  (next_randf fission_world <? (sig_c + sig_f) / sig_t)%float = true /\
  length (neuts fission_world) = 2%nat /\
  live_count (neuts fission_world) = 1%nat /\
  fission_secondaries (next_randf (after_randf fission_world)) = 2 /\
  (Neutron.distance_to_collision due_neutron <? 0)%float = true /\
  neuts (fst (step_stored id (fun k => 2 * k)%nat tick_dt 0 fission_world 2))
    !! 0%nat = Some due_neutron.
Proof.
  pose proof (fission_at_full_vector_skips_resample id (fun k => 2 * k)%nat
                tick_dt 0 fission_world 2 due_neutron
                eq_refl eq_refl eq_refl eq_refl eq_refl
                ltac:(cbn; lia) ltac:(vm_compute; lia)) as H.
  cbv zeta in H. destruct H as (_ & p & Hp & -> & _).
  repeat (split; [reflexivity|]). exact Hp.
Defined.

Lemma draw_paints_live_neutrons_witness :
  paintable stray_neutron /\ paintable fresh_neutron /\
  length (snd (draw_neutrons strays)) = 18%nat /\
  mkPoint (-5) 2000 (Color.mk 10 20 30) 180 ∈ snd (draw_neutrons strays).
Proof.
  assert (H1 : paintable stray_neutron)
    by (repeat split; (reflexivity || (vm_compute; congruence))).
  assert (H2 : paintable fresh_neutron)
    by (repeat split; (reflexivity || (vm_compute; congruence))).
  assert (Hl : forall i n, strays !! i = Some n -> Neutron.alive n = true ->
                 paintable n).
  { intros [|[|[|i]]] n Hn Ha; cbn in Hn; try discriminate Hn;
      injection Hn as <-; try assumption; try discriminate Ha. }
  destruct (draw_paints_live_neutrons strays Hl) as (Hlen & _ & Hc).
  split; [exact H1|]. split; [exact H2|]. split; [exact Hlen|].
  apply (Hc 0%nat stray_neutron eq_refl eq_refl).
Defined.

Lemma initialize_fills_half_witness :
  Z.of_nat (length (neuts two_world)) < 1073790482 /\
  exists w', initialize_neutrons two_world = Some w' /\
    live_count (neuts w') = 2%nat /\ length (neuts w') = 4%nat.
Proof.
  assert (Hs : Z.of_nat (length (neuts two_world)) < 1073790482) by (cbn; lia).
  split; [exact Hs|].
  pose proof (initialize_fills_half two_world) as H. cbv zeta in H.
  destruct H as [H _]. destruct (H Hs) as (w' & Hw' & Hlive & Hlen & _).
  exists w'. split; [exact Hw'|].
  change (grid_rows (length (neuts two_world))) with 1 in Hlive.
  split; lia.
Defined.
